(** * pacote — lib/util/git.js

    A shallow embedding of the git client of pacote (remote reference
    resolution, environment and spawn options, clone workflows) and the
    properties of it that the specification states. *)

From Stdlib Require Import Ascii ZArith QArith.
From stdpp Require Import gmap strings list fin_maps.

Local Open Scope stdpp_scope.

(** ** JavaScript strings

    A JavaScript string is a sequence of UTF-16 code units.  The model keeps
    the code units below 256: a [string] of Rocq, whose [ascii] characters
    are read as code units 0..255. *)

Module Js.

Definition TAB : string := String "009"%char "".
Definition LF : string := String "010"%char "".

(** The class [\s] of regular expressions, which is also what
    [String.prototype.trim] removes: WhiteSpace and LineTerminator.
    Below 256 these are TAB, LF, VT, FF, CR, SP and NBSP (U+00A0). *)
Definition is_whitespace (c : ascii) : bool :=
  match c with
  | "009" | "010" | "011" | "012" | "013" | " " | "160" => true
  | _ => false
  end%char.

(** LineTerminator, which [.] does not match: LF and CR below 256. *)
Definition is_line_terminator (c : ascii) : bool :=
  match c with
  | "010" | "013" => true
  | _ => false
  end%char.

(** The class [\d]. *)
Definition is_digit (c : ascii) : bool :=
  match c with
  | "0" | "1" | "2" | "3" | "4" | "5" | "6" | "7" | "8" | "9" => true
  | _ => false
  end%char.

Definition is_slash (c : ascii) : bool := bool_decide (c = "/"%char).

Definition is_dot (c : ascii) : bool := bool_decide (c = "."%char).

(** Longest prefix whose characters satisfy [p], and what follows it:
    a greedy [p*] at the start of [s]. *)
Fixpoint take_while (p : ascii → bool) (s : string) : string :=
  match s with
  | "" => ""
  | String c s' => if p c then String c (take_while p s') else ""
  end.

Fixpoint drop_while (p : ascii → bool) (s : string) : string :=
  match s with
  | "" => ""
  | String c s' => if p c then drop_while p s' else s
  end.

(** [s.startsWith(t)] *)
Fixpoint startsWith (s t : string) : bool :=
  match t, s with
  | "", _ => true
  | String b t', String a s' => if decide (a = b) then startsWith s' t' else false
  | String _ _, "" => false
  end.

(** What follows the prefix [t] of [s], if [s] starts with [t]. *)
Fixpoint after_prefix (t s : string) : option string :=
  match t, s with
  | "", _ => Some s
  | String b t', String a s' => if decide (a = b) then after_prefix t' s' else None
  | String _ _, "" => None
  end.

(** [s.endsWith(t)]: some tail of [s] is [t]. *)
Fixpoint endsWith (s t : string) : bool :=
  if decide (s = t) then true
  else match s with
       | "" => false
       | String _ s' => endsWith s' t
       end.

(** [s.indexOf(t) !== -1]: [t] starts at some position of [s]. *)
Fixpoint includes (s t : string) : bool :=
  if startsWith s t then true
  else match s with
       | "" => false
       | String _ s' => includes s' t
       end.

(** [s.trim()] *)
Definition trim (s : string) : string :=
  String.rev (drop_while is_whitespace (String.rev (drop_while is_whitespace s))).

(** [s.split('\n')]: the pieces between line feeds; the empty string
    gives one empty piece. *)
Fixpoint split_lines (s : string) : list string :=
  match s with
  | "" => [""]
  | String c s' =>
      if decide (c = "010"%char) then "" :: split_lines s'
      else match split_lines s' with
           | l :: ls => String c l :: ls
           | [] => [String c ""]
           end
  end.

(** [s.split(/\s+/)] without a limit.  [in_sep] says that the characters
    just before [s] were whitespace of a separator already matched, so
    that further whitespace belongs to the same (greedy) match.  The head
    of the result is the piece that is being read. *)
Fixpoint split_ws_from (in_sep : bool) (s : string) : list string :=
  match s with
  | "" => [""]
  | String c s' =>
      if is_whitespace c then
        if in_sep then split_ws_from true s'
        else "" :: split_ws_from true s'
      else match split_ws_from false s' with
           | l :: ls => String c l :: ls
           | [] => [String c ""]
           end
  end.

(** [s.split(/\s+/, lim)]: the first [lim] pieces. *)
Definition split_ws (s : string) (lim : nat) : list string :=
  take lim (split_ws_from false s).

End Js.

(** ** Remote references *)

(** The strings 'tag', 'branch', 'head' and 'other' of [refType]. *)
Inductive RefType := Tag | Branch | Head | Other.

Record RemoteReference := Doc {
  sha : string;
  ref : string;
  type : RefType
}.

Global Instance RefType_eq_dec : EqDecision RefType.
Proof. solve_decision. Defined.

Global Instance RemoteReference_eq_dec : EqDecision RemoteReference.
Proof. solve_decision. Defined.

Definition CARET_BRACES : string := "^{}".
Definition REFS_TAGS : string := "refs/tags/".
Definition REFS_HEADS : string := "refs/heads/".
Definition HEAD : string := "HEAD".

(** [refType], lines 210-218: "refs/tags/" anywhere in the argument makes
    a tag; failing that, "refs/heads/" anywhere makes a branch; failing
    that, a trailing "HEAD" makes a head.  [revs] calls it with the whole
    line. *)
Definition refType (ref : string) : RefType :=
  if Js.includes ref REFS_TAGS then Tag
  else if Js.includes ref REFS_HEADS then Branch
  else if Js.endsWith ref HEAD then Head
  else Other.

(** The final group of the expression below, a greedy [.] repeated: the
    longest run of characters that are not line terminators. *)
Definition dot_star (s : string) : string :=
  Js.take_while (λ c, negb (Js.is_line_terminator c)) s.

(** The first capture of [s.match(R)], for R the expression of line 125:
    an optional, non-capturing group [refs\/[^/]+\/] followed by a
    capturing group of [.] repeated.

    The expression matches at index 0 of every string.  The optional group
    is tried first: "refs/", then the longest non-empty run without a slash,
    then a slash (a shorter run is followed by a character that is not a
    slash, so backtracking into [[^/]+] never succeeds).  When the group
    fails it is skipped.  The capturing group succeeds on whatever follows,
    so the optional group is never given up once it has matched. *)
Definition bare_name (s : string) : string :=
  match Js.after_prefix "refs/" s with
  | Some r =>
      match Js.take_while (λ c, negb (Js.is_slash c)) r,
            Js.drop_while (λ c, negb (Js.is_slash c)) r with
      | String _ _, String _ t => dot_star t
      | _, _ => dot_star s
      end
  | None => dot_star s
  end.

(** [\d+\.\d+\.\d+$] tried at the start of [s].  Each [\d+] takes the
    longest run of digits; a shorter run is followed by a digit where the
    expression wants a dot or the end, so there is nothing to backtrack
    to. *)
Definition digits_then (s : string) (k : string → bool) : bool :=
  match Js.take_while Js.is_digit s with
  | String _ _ => k (Js.drop_while Js.is_digit s)
  | "" => false
  end.

Definition dot_then (s : string) (k : string → bool) : bool :=
  match s with
  | String c s' => if Js.is_dot c then k s' else false
  | "" => false
  end.

Definition at_end (s : string) : bool :=
  match s with "" => true | _ => false end.

Definition major_minor_patch_end (s : string) : bool :=
  digits_then s (λ s1, dot_then s1 (λ s2,
  digits_then s2 (λ s3, dot_then s3 (λ s4,
  digits_then s4 at_end)))).

(** [v?(\d+\.\d+\.\d+)$] tried at the start of [s]; the result is the
    capture.  [v?] is greedy: with the "v" first, then without. *)
Definition version_here (s : string) : option string :=
  let without_v := if major_minor_patch_end s then Some s else None in
  match s with
  | String c s' =>
      if decide (c = "v"%char)
      then if major_minor_patch_end s' then Some s' else without_v
      else without_v
  | "" => without_v
  end.

(** [s.match(/v?(\d+\.\d+\.\d+)$/)], reduced to its capture [match[1]]:
    the expression is tried at index 0, 1, ... and the first index at
    which it matches wins; [None] is the [null] of no match. *)
Fixpoint version_match (s : string) : option string :=
  match version_here s with
  | Some c => Some c
  | None =>
      match s with
      | "" => None
      | String _ s' => version_match s'
      end
  end.

(** ** Errors and results

    A promise that settles is either fulfilled with a value or rejected
    with an error; a callback that throws rejects the promise of its
    [then]. *)

Inductive Error :=
  | TypeError                    (* thrown by the runtime *)
  | ENOGIT                       (* 'No git binary found in $PATH' *)
  | ExitError (args : list string) (stderr : string)
                                 (* a run of the binary that failed *)
  | SpawnError (code : string).  (* thrown by [child_process.spawn] *)

Inductive Result (A : Type) :=
  | Ok (a : A)
  | Rejected (e : Error).
Arguments Ok {A} a.
Arguments Rejected {A} e.

Global Instance Result_bind : MBind Result := λ A B f m,
  match m with
  | Ok a => f a
  | Rejected e => Rejected e
  end.

Global Instance Result_ret : MRet Result := λ A a, Ok a.

(** [Array.prototype.reduce] with a callback that may throw: the first
    exception ends the loop. *)
Fixpoint reduce {A B} (f : A → B → Result A) (l : list B) (acc : A) : Result A :=
  match l with
  | [] => Ok acc
  | x :: l' => acc' ← f acc x; reduce f l' acc'
  end.

(** ** Plain objects used as maps

    [refs], [shas] and ['dist-tags'] are only read and written by key, so
    their own properties are a [gmap].  [Object.keys] is taken of
    [versions]: its own properties are kept in insertion order, which is
    the order of [Object.keys] when no key is an array index (the keys of
    [versions] contain dots). *)

(** The properties of [Object.prototype], inherited by every object
    literal.  Their values are functions, and for "__proto__" the prototype
    itself: all truthy, none with a method [push]. *)
Definition Object_prototype : list string :=
  [ "constructor"; "__defineGetter__"; "__defineSetter__"; "hasOwnProperty";
    "__lookupGetter__"; "__lookupSetter__"; "isPrototypeOf";
    "propertyIsEnumerable"; "toString"; "valueOf"; "__proto__";
    "toLocaleString" ].

Inductive Property (A : Type) :=
  | Own (a : A)
  | Inherited
  | Missing.
Arguments Own {A} a.
Arguments Inherited {A}.
Arguments Missing {A}.

(** [o[k]] on an object literal whose own properties are [o]. *)
Definition get_property {A} (o : gmap string A) (k : string) : Property A :=
  match o !! k with
  | Some a => Own a
  | None => if decide (k ∈ Object_prototype) then Inherited else Missing
  end.

Fixpoint assoc_get {A} (k : string) (l : list (string * A)) : option A :=
  match l with
  | [] => None
  | (k', a) :: l' => if decide (k = k') then Some a else assoc_get k l'
  end.

(** [o[k] = a]: an own property keeps its place, a new one goes last. *)
Fixpoint assoc_set {A} (k : string) (a : A) (l : list (string * A)) : list (string * A) :=
  match l with
  | [] => [(k, a)]
  | (k', a') :: l' =>
      if decide (k = k') then (k, a) :: l' else (k', a') :: assoc_set k a l'
  end.

(** [Object.keys(o)] *)
Definition Object_keys {A} (l : list (string * A)) : list string := l.*1.

(** ** The result of [revs] *)

(** A string or a reference: what ['dist-tags'] can hold (line 153 stores
    a key of [versions], line 155 a reference), and what line 152 reads
    the property "sha" of. *)
Inductive DistTag :=
  | DKey (v : string)
  | DRef (d : RemoteReference).

Record Revs := mkRevs {
  versions : list (string * RemoteReference);
  dist_tags : gmap string DistTag;
  refs : gmap string RemoteReference;
  (* the prototype of [refs], when an assignment to "__proto__" replaced
     [Object.prototype] *)
  refs_proto : option RemoteReference;
  shas : gmap string (list string)
}.

(** [{versions: {}, 'dist-tags': {}, refs: {}, shas: {}}] *)
Definition revs_init : Revs := mkRevs [] ∅ ∅ None ∅.

(** [revs.refs[ref] = doc].  "__proto__" is the accessor of
    [Object.prototype]: the assignment makes [doc] the prototype of [refs]
    and adds no own property.  The references have the properties "sha",
    "ref" and "type" only, all writable, so that the prototype changes no
    later assignment and no lookup of another name. *)
Definition set_ref (name : string) (doc : RemoteReference) (r : Revs) : Revs :=
  if decide (name = "__proto__")
  then mkRevs (versions r) (dist_tags r) (refs r) (Some doc) (shas r)
  else mkRevs (versions r) (dist_tags r) (<[name := doc]> (refs r)) (refs_proto r) (shas r).

Definition set_sha (s : string) (names : list string) (r : Revs) : Revs :=
  mkRevs (versions r) (dist_tags r) (refs r) (refs_proto r) (<[s := names]> (shas r)).

Definition set_version (v : string) (doc : RemoteReference) (r : Revs) : Revs :=
  mkRevs (assoc_set v doc (versions r)) (dist_tags r) (refs r) (refs_proto r) (shas r).

Definition set_dist_tag (t : string) (d : DistTag) (r : Revs) : Revs :=
  mkRevs (versions r) (<[t := d]> (dist_tags r)) (refs r) (refs_proto r) (shas r).

(** Lines 133-137.  A sha that names a property of [Object.prototype]
    finds a value without [push]: the call throws. *)
Definition index_sha (s name : string) (r : Revs) : Result Revs :=
  match get_property (shas r) s with
  | Own names => Ok (set_sha s (names ++ [name]) r)
  | Inherited => Rejected TypeError
  | Missing => Ok (set_sha s [name] r)
  end.

(** Lines 139-144. *)
Definition index_version (doc : RemoteReference) (r : Revs) : Revs :=
  match type doc with
  | Tag =>
      match version_match (ref doc) with
      | Some v => set_version v doc r
      | None => r
      end
  | _ => r
  end.

(** The callback of [reduce], lines 121-147. *)
Definition revs_line (revs : Revs) (line : string) : Result Revs :=
  let split := Js.split_ws line 2 in
  if decide (length split < 2) then Ok revs else
  let sha := Js.trim (nth 0 split "") in
  let ref := bare_name (Js.trim (nth 1 split "")) in
  if decide (ref = "") then Ok revs else
  if Js.endsWith ref CARET_BRACES then Ok revs else
  let type := refType line in
  let doc := Doc sha ref type in
  revs ← index_sha sha ref (set_ref ref doc revs);
  Ok (index_version doc revs).

(** Values that line 152 compares. *)
Inductive Value :=
  | Undefined
  | Str (s : string).

(** [x.sha], for [x] a string or a reference.  A string is a primitive:
    its properties are those of [String.prototype], its indices and
    "length"; the read of "sha" gives [undefined]. *)
Definition sha_of (x : DistTag) : Value :=
  match x with
  | DKey _ => Undefined
  | DRef d => Str (sha d)
  end.

(** [a === b] *)
Definition strict_equal (a b : Value) : bool :=
  match a, b with
  | Undefined, Undefined => true
  | Str x, Str y => bool_decide (x = y)
  | _, _ => false
  end.

(** The callback of [forEach], lines 151-158, called with each element
    [v] of [Object.keys(revs.versions)], a string.  [HEAD] is the constant
    of line 150, the object that [revs.refs.HEAD] still is on line 155.  The
    names "HEAD" and "latest" are neither properties of [Object.prototype]
    nor of a reference, so that [revs.refs.HEAD] and [revs.refs.latest]
    read own properties of [refs] or [undefined]. *)
Definition dist_tags_of_version (HEAD : RemoteReference) (revs : Revs) (v : string) : Revs :=
  if strict_equal (sha_of (DKey v)) (sha_of (DRef HEAD)) then
    let revs := set_dist_tag "HEAD" (DKey v) revs in
    match refs revs !! "latest" with
    | Some _ => revs
    | None => set_dist_tag "latest" (DRef HEAD) revs
    end
  else revs.

(** Lines 148-159, without the cache. *)
Definition revs_dist_tags (revs : Revs) : Revs :=
  match refs revs !! "HEAD" with
  | Some HEAD => foldl (dist_tags_of_version HEAD) revs (Object_keys (versions revs))
  | None => revs
  end.

(** Lines 121-159 on the lines of the listing. *)
Definition revs_of_lines (lines : list string) : Result Revs :=
  revs ← reduce revs_line lines revs_init;
  Ok (revs_dist_tags revs).

(** What the promise of one [ls-remote] that exited with status 0 is
    fulfilled with, as a function of its standard output: the lines are
    those of [stdout.split] at the line feeds. *)
Definition revs_parse (stdout : string) : Result Revs :=
  revs_of_lines (Js.split_lines stdout).

(** ** The bounded cache [REVS] *)

Module LRU.

(** Modelled from the spec: the class of the package [lru-cache] is not
    part of the sources.  The spec asks for "a fixed-capacity map with
    access-order tracking and expiry timestamps checked on lookup;
    eviction on both capacity overflow and age": the entries are kept
    most recently used first, each with the time it was stored at. *)
Record entry (V : Type) := Entry {
  key : string;
  value : V;
  stored : Z
}.
Arguments Entry {V} key value stored.
Arguments key {V} _.
Arguments value {V} _.
Arguments stored {V} _.

(** Modelled from the spec: the cache, with its capacity [max] and the
    lifetime [maxAge] of its entries, in milliseconds. *)
Record t (V : Type) := Cache {
  max : nat;
  maxAge : Z;
  items : list (entry V)
}.
Arguments Cache {V} max maxAge items.
Arguments max {V} _.
Arguments maxAge {V} _.
Arguments items {V} _.

Section Operations.

Context {V : Type}.

(** Modelled from the spec: [new LRU({max, maxAge})], an empty cache. *)
Definition create (max : nat) (maxAge : Z) : t V := Cache max maxAge [].

Fixpoint find (k : string) (l : list (entry V)) : option (entry V) :=
  match l with
  | [] => None
  | e :: l' => if decide (key e = k) then Some e else find k l'
  end.

Definition remove (k : string) (l : list (entry V)) : list (entry V) :=
  filter (λ e, key e ≠ k) l.

(** Modelled from the spec: "expiry timestamps checked on lookup".  An
    entry is stale once it is older than [maxAge]. *)
Definition isStale (c : t V) (clock : Z) (e : entry V) : bool :=
  bool_decide (maxAge c < clock - stored e)%Z.

(** Modelled from the spec: [cache.get(k)] at time [clock].  A stale entry
    is dropped and [undefined] is returned; a live one becomes the most
    recently used and its value is returned. *)
Definition get (clock : Z) (k : string) (c : t V) : option V * t V :=
  match find k (items c) with
  | None => (None, c)
  | Some e =>
      if isStale c clock e
      then (None, Cache (max c) (maxAge c) (remove k (items c)))
      else (Some (value e), Cache (max c) (maxAge c) (e :: remove k (items c)))
  end.

(** Modelled from the spec: [cache.set(k, v)] at time [clock].  The entry
    becomes the most recently used, and the least recently used ones are
    evicted while there are more than [max]. *)
Definition set (clock : Z) (k : string) (v : V) (c : t V) : t V :=
  Cache (max c) (maxAge c) (take (max c) (Entry k v clock :: remove k (items c))).

(** The entry of [k] is in the cache and not stale at [clock]. *)
Definition live (clock : Z) (k : string) (v : V) (c : t V) : Prop :=
  ∃ e, find k (items c) = Some e ∧ value e = v ∧ isStale c clock e = false.

End Operations.

End LRU.

(** ** The registry of queries in flight *)

Module Inflight.

(** Modelled from the spec: the package [promise-inflight] is not part of
    the sources.  The spec asks for "a registry mapping key → shared
    pending-result handle; concurrent requests for the same key attach to
    the same pending handle; registry entry is removed exactly once, on
    settlement (success or failure), regardless of how many attached
    waiters there are".  A handle has an identity, and carries what the
    query that it stands for has started. *)
Record handle (A : Type) := Handle {
  id : nat;
  query : A
}.
Arguments Handle {A} id query.
Arguments id {A} _.
Arguments query {A} _.

(** Modelled from the spec: the registry, and the number of handles that
    it has issued. *)
Record t (A : Type) := Registry {
  active : gmap string (handle A);
  issued : nat
}.
Arguments Registry {A} active issued.
Arguments active {A} _.
Arguments issued {A} _.

Section Operations.

Context {A : Type}.

Definition create : t A := Registry ∅ 0.

(** Modelled from the spec: the handle in flight for a key, if any. *)
Definition find (unique : string) (r : t A) : option (handle A) :=
  active r !! unique.

(** Modelled from the spec: a new handle, for the query [q], is put in the
    registry under the key. *)
Definition register (unique : string) (q : A) (r : t A) : handle A * t A :=
  let h := Handle (issued r) q in
  (h, Registry (<[unique := h]> (active r)) (S (issued r))).

(** Modelled from the spec: the entry is removed on settlement. *)
Definition settle (unique : string) (r : t A) : t A :=
  Registry (delete unique (active r)) (issued r).

End Operations.

End Inflight.

(** ** Environment of the spawned processes *)

Definition GOOD_ENV_VARS : list string :=
  [ "GIT_ASKPASS"; "GIT_EXEC_PATH"; "GIT_PROXY_COMMAND"; "GIT_SSH";
    "GIT_SSH_COMMAND"; "GIT_SSL_CAINFO"; "GIT_SSL_NO_VERIFY" ].

Definition GIT_ : string := "GIT_".

(** Lines 39-41, the callback of the loop over
    [Object.keys(process.env)]; [process_env] holds the variables of the
    process.  A variable named "__proto__" is given to the accessor of
    [Object.prototype], which ignores a string. *)
Definition gitEnv_step (process_env : list (string * string))
    (GITENV : gmap string string) (k : string) : gmap string string :=
  if bool_decide (k ∈ GOOD_ENV_VARS) || negb (Js.startsWith k GIT_)
  then match assoc_get k process_env with
       | Some v => if decide (k = "__proto__") then GITENV else <[k := v]> GITENV
       | None => GITENV
       end
  else GITENV.

(** Lines 34-42: the object literal, then the loop; [tmpName] is the
    result of [uniqueFilename]. *)
Definition gitEnv_build (tmpName : string) (process_env : list (string * string))
    : gmap string string :=
  foldl (gitEnv_step process_env)
        (<["GIT_TEMPLATE_DIR" := tmpName]> (<["GIT_ASKPASS" := "echo"]> ∅))
        (Object_keys process_env).

(** ** Numbers and the coercion of option values *)

(** The values of the Number type, up to what this module can tell apart:
    [NaN], the infinities and the finite values, each of them a rational
    (the sign of zero is not kept). *)
Inductive Number :=
  | NaN
  | Infinite (negative : bool)
  | Finite (q : Q).

(** [isNaN] of a number. *)
Definition Number_isNaN (n : Number) : bool :=
  match n with NaN => true | _ => false end.

(** ToBoolean of a number: [NaN] and zero are falsy. *)
Definition Number_truthy (n : Number) : bool :=
  match n with
  | NaN => false
  | Infinite _ => true
  | Finite q => negb (Qnum q =? 0)%Z
  end.

(** A domain of JavaScript values that options may hold, with [undefined]
    and the coercion ToNumber of unary [+] and of [isNaN].  The coercion is
    a function: the domain has no value on which it throws (symbols, big
    integers, objects whose conversion throws). *)
Class JsValue (V : Type) := {
  undefined : V;
  ToNumber : V → Number;
  ToNumber_undefined : ToNumber undefined = NaN
}.

(** The primitive values whose coercion is a table: ToNumber gives [NaN]
    for [undefined], [+0] for [null], 1 and [+0] for the booleans. *)
Inductive Primitive :=
  | PUndefined
  | PNull
  | PBoolean (b : bool)
  | PNumber (n : Number).

Definition Primitive_ToNumber (v : Primitive) : Number :=
  match v with
  | PUndefined => NaN
  | PNull => Finite 0
  | PBoolean true => Finite 1
  | PBoolean false => Finite 0
  | PNumber n => n
  end.

Global Instance Primitive_JsValue : JsValue Primitive := {|
  undefined := PUndefined;
  ToNumber := Primitive_ToNumber;
  ToNumber_undefined := eq_refl
|}.

(** [typeof v === 'number'] with a value that is a number: the "numeric"
    of the specification. *)
Definition Primitive_numeric (v : Primitive) : bool :=
  match v with
  | PNumber n => negb (Number_isNaN n)
  | _ => false
  end.

(** ** Options *)

(** The fields of the options object that this module reads. *)
Record Options (V : Type) := mkOptions {
  opts_uid : V;
  opts_gid : V
}.
Arguments mkOptions {V} opts_uid opts_gid.
Arguments opts_uid {V} _.
Arguments opts_gid {V} _.

(** Modelled from the spec: [./opt-check] is not part of the sources.  The
    option normalizer, "given an arbitrary configuration value, returns a
    well-formed options object, defaulting absent/invalid fields; never
    fails".  [None] is the missing argument; the fields of an options
    object are kept, a missing object has [undefined] fields. *)
Definition optCheck_spec {V} `{JsValue V} (opts : option (Options V)) : Options V :=
  match opts with
  | Some o => o
  | None => mkOptions undefined undefined
  end.

(** The second argument of [mkOpts]: the call sites of this module give it
    a [cwd] or an [env], nothing else. *)
Record GitOpts := mkGitOpts {
  git_cwd : option string;
  git_env : option (gmap string string)
}.

(** The options of [child_process.execFile] and [child_process.spawn]. *)
Record SpawnOptions := mkSpawnOptions {
  env : gmap string string;
  uid : option Number;
  gid : option Number;
  cwd : option string
}.

(** One run of the git binary. *)
Record Invocation := mkInvocation {
  inv_path : string;
  inv_args : list string;
  inv_opts : SpawnOptions
}.

(** ** The module state and the host *)

(** The variables of the module that change: the memoized [GITENV], the
    cache [REVS].  [spawned] records the runs of the git binary, oldest
    first. *)
Record World := mkWorld {
  GITENV : option (gmap string string);
  REVS : LRU.t Revs;
  spawned : list Invocation
}.

(** [new LRU({max: 100, maxAge: 5 * 60 * 1000})] *)
Definition REVS_init : LRU.t Revs := LRU.create 100 (5 * 60 * 1000).

Definition World_init : World := mkWorld None REVS_init [].

(** A computation that reads and writes the module state and ends with a
    value or with an error: synchronous code and promise chains alike, a
    chain being a sequence of steps each of which runs after the one before
    has been fulfilled. *)
Definition M (A : Type) : Type := World → World * Result A.

Global Instance M_ret : MRet M := λ A a w, (w, Ok a).

Global Instance M_bind : MBind M := λ A B f m w,
  match m w with
  | (w', Ok a) => f a w'
  | (w', Rejected e) => (w', Rejected e)
  end.

Definition reject {A} (e : Error) : M A := λ w, (w, Rejected e).

(** What [revs] returns: the promise of [BB.resolve(cached)], or the
    promise of [pinflight] for a key. *)
Inductive Answer :=
  | Resolved (r : Revs)
  | InFlight (unique : string).

Section Host.

(** The values of options, and what the module takes from its host: the
    result of [which.sync('git')] ([None] when it threw),
    [process.platform], [process.env], the name that [uniqueFilename]
    gives, [path.dirname], the option normalizer, and the outcome of a run
    of the binary through [execFile] (standard output and standard error),
    which may depend on the runs before it. *)
Context {V : Type} `{JsValue V}.
Variable GITPATH : option string.
Variable platform : string.
Variable process_env : list (string * string).
Variable tmpName : string.
Variable dirname : string → string.
Variable optCheck : option (Options V) → Options V.
Variable execFile : list Invocation → Invocation → Result (string * string).

(** What [child_process.spawn] throws for a run, given the runs before it:
    a TypeError for options that it does not accept (a uid or a gid that is
    not an integer), the error of a child that cannot be created; [None]
    when the child is created. *)
Variable cp_spawn : list Invocation → Invocation → option Error.

(** [gitEnv], lines 30-44. *)
Definition gitEnv : M (gmap string string) := λ w,
  match GITENV w with
  | Some e => (w, Ok e)
  | None =>
      let e := gitEnv_build tmpName process_env in
      (mkWorld (Some e) (REVS w) (spawned w), Ok e)
  end.

(** [+v && !isNaN(v)], the test of lines 187 and 190. *)
Definition usable_id (v : V) : bool :=
  Number_truthy (ToNumber v) && negb (Number_isNaN (ToNumber v)).

(** [Object.assign(gitOpts, _gitOpts)]: the properties of [_gitOpts]
    replace those of [gitOpts]. *)
Definition assign (gitOpts : SpawnOptions) (_gitOpts : GitOpts) : SpawnOptions :=
  mkSpawnOptions
    (default (env gitOpts) (git_env _gitOpts))
    (uid gitOpts)
    (gid gitOpts)
    (match git_cwd _gitOpts with Some d => Some d | None => cwd gitOpts end).

(** [mkOpts], lines 183-195. *)
Definition mkOpts (_gitOpts : GitOpts) (opts : Options V) : M SpawnOptions :=
  e ← gitEnv;
  let gitOpts := mkSpawnOptions e None None None in
  let gitOpts :=
    if usable_id (opts_uid opts)
    then mkSpawnOptions (env gitOpts) (Some (ToNumber (opts_uid opts))) (gid gitOpts) (cwd gitOpts)
    else gitOpts in
  let gitOpts :=
    if usable_id (opts_gid opts)
    then mkSpawnOptions (env gitOpts) (uid gitOpts) (Some (ToNumber (opts_gid opts))) (cwd gitOpts)
    else gitOpts in
  mret (assign gitOpts _gitOpts).

(** [checkGit], lines 197-205. *)
Definition checkGit : M string :=
  match GITPATH with
  | None => reject ENOGIT
  | Some p => mret p
  end.

(** [execFileAsync(gitPath, gitArgs, options)]: the run is recorded and
    its outcome is the host's. *)
Definition execFileAsync (gitPath : string) (gitArgs : list string)
    (options : SpawnOptions) : M (string * string) := λ w,
  let i := mkInvocation gitPath gitArgs options in
  (mkWorld (GITENV w) (REVS w) (spawned w ++ [i]), execFile (spawned w) i).

(** [cp.spawn(gitPath, gitArgs, options)]: either [spawn] throws, inside
    the callback of [then], and there is no child; or the run is recorded
    and the child is returned, still running. *)
Definition spawn (gitPath : string) (gitArgs : list string)
    (options : SpawnOptions) : M Invocation := λ w,
  let i := mkInvocation gitPath gitArgs options in
  match cp_spawn (spawned w) i with
  | Some e => (w, Rejected e)
  | None => (mkWorld (GITENV w) (REVS w) (spawned w ++ [i]), Ok i)
  end.

(** [execGit], lines 168-173. *)
Definition execGit (gitArgs : list string) (gitOpts : GitOpts)
    (opts : option (Options V)) : M (string * string) :=
  let opts := optCheck opts in
  gitPath ← checkGit;
  options ← mkOpts gitOpts opts;
  execFileAsync gitPath gitArgs options.

(** [spawnGit], lines 176-181. *)
Definition spawnGit (gitArgs : list string) (gitOpts : GitOpts)
    (opts : option (Options V)) : M Invocation :=
  let opts := optCheck opts in
  gitPath ← checkGit;
  options ← mkOpts gitOpts opts;
  spawn gitPath gitArgs options.

(** [updateSubmodules], lines 83-88. *)
Definition updateSubmodules (localRepo : string) (opts : option (Options V))
    : M (string * string) :=
  let gitArgs := ["submodule"; "update"; "-q"; "--init"; "--recursive"] in
  execGit gitArgs (mkGitOpts (Some localRepo) None) opts.

(** [headSha], lines 90-95. *)
Definition headSha (repo : string) (opts : option (Options V)) : M string :=
  let opts := optCheck opts in
  out ← execGit ["rev-parse"; "--revs-only"; "HEAD"] (mkGitOpts (Some repo) None) (Some opts);
  mret (Js.trim out.1).

(** [fullClone], lines 52-67.  The second step is called with two
    arguments: its [opts] is [undefined]. *)
Definition fullClone (repo committish target : string) (opts : option (Options V))
    : M string :=
  let opts := optCheck opts in
  let gitArgs := ["clone"; "-q"; repo; target] in
  let gitArgs :=
    if decide (platform = "win32")
    then gitArgs ++ ["--config"; "core.longpaths=true"]
    else gitArgs in
  _ ← execGit gitArgs (mkGitOpts (Some (dirname target)) None) (Some opts);
  _ ← execGit ["checkout"; committish] (mkGitOpts (Some target) None) None;
  _ ← updateSubmodules target (Some opts);
  headSha target (Some opts).

(** [shallowClone], lines 70-81. *)
Definition shallowClone (repo branch target : string) (opts : option (Options V))
    : M string :=
  let opts := optCheck opts in
  let gitArgs := ["clone"; "--depth=1"; "-q"; "-b"; branch; repo; target] in
  let gitArgs :=
    if decide (platform = "win32")
    then gitArgs ++ ["--config"; "core.longpaths=true"]
    else gitArgs in
  _ ← execGit gitArgs (mkGitOpts (Some target) None) (Some opts);
  _ ← updateSubmodules target (Some opts);
  headSha target (Some opts).

(** [revs], lines 103-109, at time [clock]: the lookup in the cache and
    what is returned.  Past line 109 the work belongs to [pinflight] and to
    the callbacks below. *)
Definition revs (clock : Z) (repo : string) (opts : option (Options V))
    : World → World * Answer := λ w,
  let opts := optCheck opts in
  let '(cached, REVS') := LRU.get clock repo (REVS w) in
  let w' := mkWorld (GITENV w) REVS' (spawned w) in
  match cached with
  | Some r => (w', Resolved r)
  | None => (w', InFlight ("ls-remote:" +:+ repo))
  end.

(** The callback given to [pinflight], up to the spawned child, lines
    110-112. *)
Definition ls_remote (repo : string) (opts : option (Options V)) : M Invocation :=
  e ← gitEnv;
  spawnGit ["ls-remote"; "-h"; "-t"; repo] (mkGitOpts None (Some e)) opts.

(** Lines 120-162, once [finished(child)] is fulfilled, at time [clock]:
    the listing is parsed, the result is stored in the cache and
    returned. *)
Definition revs_finished (clock : Z) (repo stdout : string) : M Revs := λ w,
  match revs_parse stdout with
  | Ok r => (mkWorld (GITENV w) (LRU.set clock repo r (REVS w)) (spawned w), Ok r)
  | Rejected e => (w, Rejected e)
  end.

(** *** The runs of the binary, for the statements *)

(** What lines 187-192 store for the option value [v]. *)
Definition carried (v : V) : option Number :=
  if usable_id v then Some (ToNumber v) else None.

(** The environment that [gitEnv] returns in the state [w], and the state
    it leaves. *)
Definition gitEnv_value (w : World) : gmap string string :=
  default (gitEnv_build tmpName process_env) (GITENV w).

Definition gitEnv_world (w : World) : World :=
  mkWorld (Some (gitEnv_value w)) (REVS w) (spawned w).

(** The options that [mkOpts] returns in the state [w]. *)
Definition spawn_options (_gitOpts : GitOpts) (opts : Options V) (w : World) : SpawnOptions :=
  mkSpawnOptions (default (gitEnv_value w) (git_env _gitOpts))
    (carried (opts_uid opts)) (carried (opts_gid opts)) (git_cwd _gitOpts).

(** One run of the binary by [execGit] in the state [w]. *)
Definition run_of (p : string) (gitArgs : list string) (gitOpts : GitOpts)
    (opts : option (Options V)) (w : World) : Invocation :=
  mkInvocation p gitArgs (spawn_options gitOpts (optCheck opts) w).

(** The child that the callback of [revs] asks [spawn] for, for [repo] in
    the state [w], when the binary is [p]. *)
Definition ls_remote_child (p repo : string) (opts : option (Options V)) (w : World)
    : Invocation :=
  mkInvocation p ["ls-remote"; "-h"; "-t"; repo]
    (mkSpawnOptions (gitEnv_value w)
       (carried (opts_uid (optCheck opts))) (carried (opts_gid (optCheck opts))) None).

(** How that callback ends in the state [w]: with the child, with the
    error of [checkGit], or with what [spawn] throws. *)
Definition ls_remote_query (repo : string) (opts : option (Options V)) (w : World)
    : Result Invocation :=
  match GITPATH with
  | None => Rejected ENOGIT
  | Some p =>
      match cp_spawn (spawned w) (ls_remote_child p repo opts w) with
      | Some e => Rejected e
      | None => Ok (ls_remote_child p repo opts w)
      end
  end.

(** The runs that a query leaves in the record: its child, if it has
    one. *)
Definition query_runs (query : Result Invocation) : list Invocation :=
  match query with
  | Ok child => [child]
  | Rejected _ => []
  end.

End Host.

(** What happens between two calls for a repository: calls of [revs], and
    listings that come back, for other repositories. *)
Inductive Event (V : Type) :=
  | Call (clock : Z) (repo : string) (opts : option (Options V))
  | Finished (clock : Z) (repo stdout : string).
Arguments Call {V} clock repo opts.
Arguments Finished {V} clock repo stdout.

Definition event_repo {V} (ev : Event V) : string :=
  match ev with
  | Call _ repo _ => repo
  | Finished _ repo _ => repo
  end.

Definition run_event {V} (optCheck : option (Options V) → Options V)
    (w : World) (ev : Event V) : World :=
  match ev with
  | Call clock repo opts => (revs optCheck clock repo opts w).1
  | Finished clock repo stdout => (revs_finished clock repo stdout w).1
  end.

(** The entry [e] of [k] is in the cache, behind at most [n] entries, all
    of other keys. *)
Definition cached_behind {A} (n : nat) (k : string) (e : LRU.entry A) (c : LRU.t A) : Prop :=
  ∃ pre post, LRU.items c = pre ++ e :: post ∧
    length pre ≤ n ∧ Forall (λ e', LRU.key e' ≠ k) pre ∧ LRU.key e = k.

(** ** Calls in flight *)

(** What a caller of [revs] holds: a promise that is fulfilled already
    (line 107), or the pending promise of a query in flight. *)
Inductive Promise :=
  | Fulfilled (r : Revs)
  | Pending (h : Inflight.handle (Result Invocation)).

(** The module state, the registry of [pinflight], and the outcomes of the
    queries that have settled, by the identity of their handle. *)
Record Session := mkSession {
  world : World;
  registry : Inflight.t (Result Invocation);
  settled : gmap nat (Result Revs)
}.

Definition Session_init : Session := mkSession World_init Inflight.create ∅.

(** What happens in a session: a call of [revs], or the settlement of the
    query for a repository, the child having ended with its standard
    output or with an error. *)
Inductive Turn (V : Type) :=
  | Asks (clock : Z) (repo : string) (opts : option (Options V))
  | Settles (clock : Z) (repo : string) (outcome : Result string).
Arguments Asks {V} clock repo opts.
Arguments Settles {V} clock repo outcome.

Section Resolver.

Context {V : Type} `{JsValue V}.
Variable GITPATH : option string.
Variable process_env : list (string * string).
Variable tmpName : string.
Variable optCheck : option (Options V) → Options V.
Variable cp_spawn : list Invocation → Invocation → option Error.

(** Modelled from the spec: [pinflight(unique, doFly)].  "If a resolution
    for the same identifier is already in flight, attach to it and return
    its eventual result rather than starting a second remote query";
    otherwise the query is started and registered. *)
Definition pinflight (unique : string) (doFly : M Invocation)
    : Session → Session * Inflight.handle (Result Invocation) := λ s,
  match Inflight.find unique (registry s) with
  | Some h => (s, h)
  | None =>
      let '(w, started) := doFly (world s) in
      let '(h, reg) := Inflight.register unique started (registry s) in
      (mkSession w reg (settled s), h)
  end.

(** [revs], lines 103-112, at time [clock]: the lookup in the cache, then
    [pinflight] with the callback that spawns the listing.  The callback
    gets the options that line 104 normalized. *)
Definition revs_promise (clock : Z) (repo : string) (opts : option (Options V))
    : Session → Session * Promise := λ s,
  match revs optCheck clock repo opts (world s) with
  | (w, Resolved r) => (mkSession w (registry s) (settled s), Fulfilled r)
  | (w, InFlight unique) =>
      let '(s', h) :=
        pinflight unique
          (ls_remote GITPATH process_env tmpName optCheck cp_spawn
             repo (Some (optCheck opts)))
          (mkSession w (registry s) (settled s)) in
      (s', Pending h)
  end.

(** The query for [repo] settles at time [clock], lines 117-162 and the
    removal of the spec.  A query that has no child failed when it
    started, and settles with that error; one whose child failed settles
    with the error of the child; otherwise the listing is parsed and
    stored by [revs_finished].  The entry leaves the registry, and every
    holder of the handle finds the outcome. *)
Definition revs_settle (clock : Z) (repo : string) (outcome : Result string)
    : Session → Session := λ s,
  let unique := "ls-remote:" +:+ repo in
  match Inflight.find unique (registry s) with
  | None => s
  | Some h =>
      let '(w, result) :=
        match Inflight.query h, outcome with
        | Ok _, Ok stdout => revs_finished clock repo stdout (world s)
        | Ok _, Rejected e => (world s, Rejected e)
        | Rejected e, _ => (world s, Rejected e)
        end in
      mkSession w (Inflight.settle unique (registry s))
        (<[Inflight.id h := result]> (settled s))
  end.

(** The turns of a session in order, with what each caller of [revs] was
    given, by repository. *)
Fixpoint run_session (turns : list (Turn V)) (s : Session)
    : Session * list (string * Promise) :=
  match turns with
  | [] => (s, [])
  | Asks clock repo opts :: turns' =>
      let '(s1, a) := revs_promise clock repo opts s in
      let '(s2, answers) := run_session turns' s1 in
      (s2, (repo, a) :: answers)
  | Settles clock repo outcome :: turns' =>
      run_session turns' (revs_settle clock repo outcome s)
  end.

End Resolver.

(** What the holder of a promise observes in the session [s]: nothing as
    long as the query has not settled. *)
Definition observed (a : Promise) (s : Session) : option (Result Revs) :=
  match a with
  | Fulfilled r => Some (Ok r)
  | Pending h => settled s !! Inflight.id h
  end.

(** The turn is not the settlement of the query for [repo]. *)
Definition keeps_in_flight {V} (repo : string) (turn : Turn V) : Prop :=
  match turn with
  | Asks _ _ _ => True
  | Settles _ repo' _ => repo' ≠ repo
  end.

(** The runs among [runs] that list the references of [repo]. *)
Definition listings_of (repo : string) (runs : list Invocation) : list Invocation :=
  filter (λ i, inv_args i = ["ls-remote"; "-h"; "-t"; repo]) runs.

(** What the holders of the handle of a query find when it settles. *)
Definition settlement (started : Result Invocation) (outcome : Result string)
    : Result Revs :=
  match started, outcome with
  | Ok _, Ok stdout => revs_parse stdout
  | Ok _, Rejected e => Rejected e
  | Rejected e, _ => Rejected e
  end.

(** ** Vocabulary of the statements *)

(** Every character of [s] satisfies [p]. *)
Fixpoint all_chars (p : ascii → bool) (s : string) : bool :=
  match s with
  | "" => true
  | String c s' => p c && all_chars p s'
  end.

(** [s] has no character of the class [\s]: it is one field of a line. *)
Definition no_whitespace (s : string) : Prop :=
  all_chars (λ c, negb (Js.is_whitespace c)) s = true.

(** [c] ends [s]. *)
Definition is_suffix (c s : string) : Prop := ∃ p, s = p +:+ c.

(** One or more decimal digits. *)
Definition digits (s : string) : Prop :=
  s ≠ "" ∧ all_chars Js.is_digit s = true.

(** MAJOR.MINOR.PATCH *)
Definition is_major_minor_patch (c : string) : Prop :=
  ∃ a b d, digits a ∧ digits b ∧ digits d ∧
    c = a +:+ "." +:+ b +:+ "." +:+ d.

(** An optional "v", then MAJOR.MINOR.PATCH, and nothing else. *)
Definition is_v_major_minor_patch (s : string) : Prop :=
  is_major_minor_patch s ∨ ∃ c, s = "v" +:+ c ∧ is_major_minor_patch c.

(** [c] is the longest MAJOR.MINOR.PATCH that ends [s]. *)
Definition ends_with_version (s c : string) : Prop :=
  is_suffix c s ∧ is_major_minor_patch c ∧
  ∀ c', is_suffix c' s → is_major_minor_patch c' → String.length c' ≤ String.length c.

(** The reference that a line yields, if any: what [revs_line] builds
    before it touches the result. *)
Definition line_doc (line : string) : option RemoteReference :=
  match Js.split_ws line 2 with
  | [s; path] =>
      let name := bare_name (Js.trim path) in
      if decide (name = "") then None
      else if Js.endsWith name CARET_BRACES then None
      else Some (Doc (Js.trim s) name (refType line))
  | _ => None
  end.

(** Lines 131-144 for the reference [doc]. *)
Definition add_doc (doc : RemoteReference) (revs : Revs) : Result Revs :=
  revs ← index_sha (sha doc) (ref doc) (set_ref (ref doc) doc revs);
  Ok (index_version doc revs).

(** The references that the lines of a listing yield, in order. *)
Definition listing_docs (stdout : string) : list RemoteReference :=
  omap line_doc (Js.split_lines stdout).

(** Every reference of [versions] and of ['dist-tags'] is a value of
    [refs]. *)
Definition references_in_refs (r : Revs) : Prop :=
  (∀ v d, assoc_get v (versions r) = Some d → ∃ name, refs r !! name = Some d) ∧
  (∀ t d, dist_tags r !! t = Some (DRef d) → ∃ name, refs r !! name = Some d).

(** [shas] is the index of [refs] by commit: a name is listed under a sha
    exactly when its entry of [refs] points at that sha; no list is empty,
    none lists a name twice. *)
Definition shas_index_of_refs (r : Revs) : Prop :=
  (∀ s name, name ∈ default [] (shas r !! s) ↔
             ∃ d, refs r !! name = Some d ∧ sha d = s) ∧
  (∀ s names, shas r !! s = Some names → names ≠ [] ∧ NoDup names).

Definition refs_invariant (r : Revs) : Prop :=
  references_in_refs r ∧ shas_index_of_refs r.

(** [shas] after the references [seen]: the names of those at [s], in
    order; no property when there is none. *)
Definition shas_of (seen : list RemoteReference) (s : string) : option (list string) :=
  match filter (λ d, sha d = s) seen with
  | [] => None
  | l => Some (ref <$> l)
  end.

(** [refs] after the references [seen]: the last one of the name. *)
Definition refs_of (seen : list RemoteReference) (name : string) : option RemoteReference :=
  if decide (name = "__proto__") then None
  else last (filter (λ d, ref d = name) seen).

(** [versions] after the references [seen]: the last tag whose name gives
    the version [v]. *)
Definition versions_of (seen : list RemoteReference) (v : string) : option RemoteReference :=
  last (filter (λ d, type d = Tag ∧ version_match (ref d) = Some v) seen).

(** The result after the references [seen]. *)
Definition result_of (seen : list RemoteReference) (r : Revs) : Prop :=
  (∀ name, refs r !! name = refs_of seen name) ∧
  (∀ s, shas r !! s = shas_of seen s) ∧
  (∀ v d, assoc_get v (versions r) = Some d → d ∈ seen).

(** Two listings: one without a repeated name, one with the name "x" on
    two lines. *)
Definition listing_two_branches : string :=
  "1111" +:+ Js.TAB +:+ "refs/heads/main" +:+ Js.LF +:+
  "2222" +:+ Js.TAB +:+ "refs/tags/v1.0.0" +:+ Js.LF.

Definition listing_repeated_name : string :=
  "aaaa" +:+ Js.TAB +:+ "refs/heads/x" +:+ Js.LF +:+
  "bbbb" +:+ Js.TAB +:+ "refs/tags/x" +:+ Js.LF.

(** Zero, of either sign. *)
Definition Number_is_zero (n : Number) : Prop :=
  match n with
  | Finite q => Qnum q = 0%Z
  | _ => False
  end.

(** A host for examples: git is installed, every run of it succeeds and
    prints a commit. *)
Definition example_execFile : list Invocation → Invocation → Result (string * string) :=
  λ _ _, Ok ("4f2a9c1" +:+ Js.LF, "").

Definition example_clone : World * Result string :=
  fullClone (Some "/usr/bin/git") "linux" [("HOME", "/root")] "/tmp/git-clone-1"
    (λ _, "/srv") optCheck_spec example_execFile
    "https://example.org/a.git" "v1.0.0" "/srv/a"
    (Some (mkOptions (PNumber (Finite 1000)) (PNumber (Finite 100))))
    World_init.

(** The test of line 39 on the name of a variable: it is on the allow-list
    or it does not start with "GIT_". *)
Definition env_allowed (k : string) : Prop :=
  k ∈ GOOD_ENV_VARS ∨ Js.startsWith k GIT_ = false.

(** [s] does not start with whitespace; [s] neither starts nor ends with
    whitespace. *)
Definition starts_clean (s : string) : Prop :=
  match s with
  | "" => True
  | String c _ => Js.is_whitespace c = false
  end.

Definition trimmed (s : string) : Prop :=
  starts_clean s ∧ starts_clean (String.rev s).


(** The runs that a computation adds to the record of the state [w]. *)
Definition new_runs {A} (m : M A) (w : World) : list Invocation :=
  drop (length (spawned w)) (spawned (m w).1).

(** A shallow clone on the example host. *)
Definition example_shallow : World * Result string :=
  shallowClone (Some "/usr/bin/git") "linux" [("HOME", "/root")] "/tmp/git-clone-1"
    optCheck_spec example_execFile
    "https://example.org/a.git" "main" "/srv/a"
    (Some (mkOptions (PNumber (Finite 1000)) (PNumber (Finite 100))))
    World_init.

(** In the session [s] the query for [repo] is in flight under the handle
    [h], and the cache holds nothing for [repo]. *)
Definition in_flight (repo : string) (h : Inflight.handle (Result Invocation))
    (s : Session) : Prop :=
  Inflight.find ("ls-remote:" +:+ repo) (registry s) = Some h ∧
  LRU.find repo (LRU.items (REVS (world s))) = None.

(** The repositories that the calls among [turns] ask for, in order. *)
Fixpoint asked {V} (turns : list (Turn V)) : list string :=
  match turns with
  | [] => []
  | Asks _ repo _ :: turns' => repo :: asked turns'
  | Settles _ _ _ :: turns' => asked turns'
  end.

(** Two sessions for examples, with the options of a caller: one on a host
    without git, one on a host where git is installed and every child can
    be created. *)
Definition example_opts : option (Options Primitive) :=
  Some (mkOptions (PNumber (Finite 1000)) (PNumber (Finite 100))).

Definition example_session_no_git : Session * list (string * Promise) :=
  run_session None [("HOME", "/root")] "/tmp/git-clone-1" optCheck_spec (λ _ _, None)
    [Asks 0 "https://example.org/a.git" example_opts;
     Asks 1 "https://example.org/a.git" None]
    Session_init.

Definition example_session : Session * list (string * Promise) :=
  run_session (Some "/usr/bin/git") [("HOME", "/root")] "/tmp/git-clone-1"
    optCheck_spec (λ _ _, None)
    [Asks 0 "https://example.org/a.git" example_opts;
     Asks 1 "https://example.org/b.git" None;
     Asks 2 "https://example.org/a.git" None;
     Settles 3 "https://example.org/b.git"
       (Ok ("2222" +:+ Js.TAB +:+ "refs/tags/v1.0.0" +:+ Js.LF));
     Asks 4 "https://example.org/a.git" None]
    Session_init.

(** * Properties *)

(** The runs made so far: they extend the record, they are at most four,
    and the workflow has not succeeded yet. *)
Ltac runs_so_far := split; [done|]; split; [simpl; lia|]; split; [done|].

(** ** Strings *)

Lemma app_String c s t : String c s +:+ t = String c (s +:+ t).
Proof. reflexivity. Qed.

Lemma app_empty_l t : "" +:+ t = t.
Proof. reflexivity. Qed.

Lemma app_empty_r s : s +:+ "" = s.
Proof. induction s as [|c s IH]; [done|]. by rewrite app_String, IH. Qed.

Lemma app_assoc_string s t u : (s +:+ t) +:+ u = s +:+ t +:+ u.
Proof. induction s as [|c s IH]; [done|]. by rewrite !app_String, IH. Qed.

Lemma length_app_string s t :
  String.length (s +:+ t) = String.length s + String.length t.
Proof. induction s as [|c s IH]; [done|]. rewrite app_String. simpl. by rewrite IH. Qed.

Lemma all_chars_app p s t :
  all_chars p (s +:+ t) = all_chars p s && all_chars p t.
Proof.
  induction s as [|c s IH]; [done|].
  rewrite app_String. simpl. rewrite IH. by rewrite andb_assoc.
Qed.

Lemma all_chars_impl (p q : ascii → bool) s :
  (∀ c, p c = true → q c = true) → all_chars p s = true → all_chars q s = true.
Proof.
  intros Hpq. induction s as [|c s IH]; [done|]. simpl.
  intros [Hc Hs]%andb_prop. rewrite (Hpq _ Hc). simpl. auto.
Qed.

Lemma take_drop_while p s : Js.take_while p s +:+ Js.drop_while p s = s.
Proof.
  induction s as [|c s IH]; [done|]. simpl.
  destruct (p c); [|done]. by rewrite app_String, IH.
Qed.

Lemma take_while_all p s : all_chars p (Js.take_while p s) = true.
Proof.
  induction s as [|c s IH]; [done|]. simpl.
  destruct (p c) eqn:Hc; [|done]. simpl. by rewrite Hc.
Qed.

Lemma take_while_id p s : all_chars p s = true → Js.take_while p s = s.
Proof.
  induction s as [|c s IH]; [done|]. simpl.
  intros [-> Hs]%andb_prop. by rewrite IH.
Qed.

Lemma drop_while_id p c s : p c = false → Js.drop_while p (String c s) = String c s.
Proof. intros Hc. simpl. by rewrite Hc. Qed.

(** A run of [p] followed by a character outside [p]: the greedy match
    takes exactly the run. *)
Lemma take_while_app p a c r :
  all_chars p a = true → p c = false →
  Js.take_while p (a +:+ String c r) = a.
Proof.
  intros Ha Hc. induction a as [|x a IH].
  - rewrite app_empty_l. simpl. by rewrite Hc.
  - rewrite app_String. simpl in *. apply andb_prop in Ha as [-> Ha].
    by rewrite IH.
Qed.

Lemma drop_while_app p a c r :
  all_chars p a = true → p c = false →
  Js.drop_while p (a +:+ String c r) = String c r.
Proof.
  intros Ha Hc. induction a as [|x a IH].
  - rewrite app_empty_l. simpl. by rewrite Hc.
  - rewrite app_String. simpl in *. apply andb_prop in Ha as [-> Ha].
    by rewrite IH.
Qed.

Lemma take_while_all_r p a :
  all_chars p a = true → Js.take_while p a = a ∧ Js.drop_while p a = "".
Proof.
  induction a as [|x a IH]; [done|]. simpl.
  intros [-> Ha]%andb_prop. destruct (IH Ha) as [-> ->]. done.
Qed.

Lemma startsWith_app t u : Js.startsWith (t +:+ u) t = true.
Proof.
  induction t as [|c t IH]; [by destruct u|].
  rewrite app_String. simpl. by rewrite decide_True.
Qed.

Lemma after_prefix_Some t s r : Js.after_prefix t s = Some r → s = t +:+ r.
Proof.
  revert s. induction t as [|c t IH]; intros s.
  - simpl. destruct s; naive_solver.
  - destruct s as [|a s]; [done|]. simpl.
    case_decide; [|done]. subst. intros ->%IH. done.
Qed.

Lemma includes_app_r s t u : Js.includes t u = true → Js.includes (s +:+ t) u = true.
Proof.
  intros Ht. induction s as [|c s IH]; [done|].
  rewrite app_String. simpl. rewrite IH. by case_match.
Qed.

Lemma endsWith_unfold s t :
  Js.endsWith s t =
    if decide (s = t) then true
    else match s with
         | "" => false
         | String _ s' => Js.endsWith s' t
         end.
Proof. by destruct s. Qed.

Lemma endsWith_suffix s t : Js.endsWith s t = true ↔ is_suffix t s.
Proof.
  split.
  - induction s as [|c s IH]; rewrite endsWith_unfold; case_decide.
    + intros _. exists "". by subst.
    + done.
    + intros _. exists "". by subst.
    + intros [p ->]%IH. by exists (String c p).
  - intros [p ->]. induction p as [|c p IH].
    + rewrite app_empty_l, endsWith_unfold. by rewrite decide_True.
    + rewrite app_String, endsWith_unfold. case_decide; [done|]. apply IH.
Qed.

Lemma is_suffix_cons c a s :
  is_suffix c (String a s) → c = String a s ∨ is_suffix c s.
Proof.
  intros [[|x p] Hp].
  - left. by rewrite app_empty_l in Hp.
  - right. rewrite app_String in Hp. injection Hp as -> ->. by exists p.
Qed.

Lemma is_suffix_length c s : is_suffix c s → String.length c ≤ String.length s.
Proof. intros [p ->]. rewrite length_app_string. lia. Qed.

Lemma is_suffix_app p c s : is_suffix c s → is_suffix c (p +:+ s).
Proof. intros [q ->]. exists (p +:+ q). by rewrite app_assoc_string. Qed.

(** *** Reversal and trimming *)

Lemma all_chars_rev_app p s t :
  all_chars p (String.rev_app s t) = all_chars p s && all_chars p t.
Proof.
  revert t. induction s as [|c s IH]; intros t; [done|].
  simpl. rewrite IH. simpl. destruct (p c), (all_chars p s); done.
Qed.

Lemma rev_app_rev_app s t u :
  String.rev_app (String.rev_app s t) u = String.rev_app t (s +:+ u).
Proof.
  revert t u. induction s as [|c s IH]; intros t u; [done|].
  simpl. rewrite IH. done.
Qed.

Lemma rev_rev s : String.rev (String.rev s) = s.
Proof. unfold String.rev. rewrite rev_app_rev_app. simpl. apply app_empty_r. Qed.

Lemma drop_while_none p s :
  all_chars (λ c, negb (p c)) s = true → Js.drop_while p s = s.
Proof.
  destruct s as [|c s]; [done|]. simpl.
  intros [Hc _]%andb_prop. by apply negb_true_iff in Hc as ->.
Qed.

(** A field of a line is not changed by [trim]. *)
Lemma trim_no_whitespace s : no_whitespace s → Js.trim s = s.
Proof.
  intros Hs. unfold Js.trim. rewrite (drop_while_none _ s Hs).
  rewrite drop_while_none; [apply rev_rev|].
  unfold String.rev. rewrite all_chars_rev_app. by rewrite Hs.
Qed.

Lemma dot_star_no_whitespace s : no_whitespace s → dot_star s = s.
Proof.
  intros Hs. apply take_while_id. revert Hs. apply all_chars_impl.
  intros c. by destruct c as [[] [] [] [] [] [] [] []].
Qed.

(** *** Splitting at whitespace *)

Lemma split_ws_from_nonempty b s : Js.split_ws_from b s ≠ [].
Proof.
  revert b. induction s as [|c s IH]; intros b; [done|]. simpl.
  destruct (Js.is_whitespace c).
  - destruct b; [apply IH | done].
  - specialize (IH false). by destruct (Js.split_ws_from false s).
Qed.

Lemma split_ws_from_fields b s : Forall no_whitespace (Js.split_ws_from b s).
Proof.
  revert b. induction s as [|c s IH]; intros b; simpl.
  - by constructor.
  - destruct (Js.is_whitespace c) eqn:Hc.
    + destruct b; [apply IH|]. constructor; [done | apply IH].
    + specialize (IH false). destruct (Js.split_ws_from false s) as [|l ls].
      * constructor; [|done]. unfold no_whitespace. simpl. by rewrite Hc.
      * inversion IH as [|?? Hl Hls]; subst. constructor; [|done].
        unfold no_whitespace in *. simpl. by rewrite Hc.
Qed.

Lemma split_ws_fields line lim : Forall no_whitespace (Js.split_ws line lim).
Proof. unfold Js.split_ws. apply Forall_take, split_ws_from_fields. Qed.

Lemma split_ws_two_fields line s path :
  Js.split_ws line 2 = [s; path] → no_whitespace s ∧ no_whitespace path.
Proof.
  intros Hl. pose proof (split_ws_fields line 2) as Hf. rewrite Hl in Hf.
  inversion Hf as [|?? H1 Hf']; subst. inversion Hf'; subst. done.
Qed.

Lemma split_ws_from_no_whitespace s :
  no_whitespace s → Js.split_ws_from false s = [s].
Proof.
  unfold no_whitespace. induction s as [|c s IH]; [done|]. simpl.
  intros [Hc Hs]%andb_prop. apply negb_true_iff in Hc. rewrite Hc.
  by rewrite (IH Hs).
Qed.

Lemma split_ws_from_sep_no_whitespace s :
  no_whitespace s → Js.split_ws_from true s = [s].
Proof.
  intros Hs. destruct s as [|c s]; [done|].
  unfold no_whitespace in Hs. simpl in *.
  apply andb_prop in Hs as [Hc Hs]. apply negb_true_iff in Hc. rewrite Hc.
  by rewrite (split_ws_from_no_whitespace s Hs).
Qed.

Lemma split_ws_from_whitespace s :
  no_whitespace s ∨ 2 ≤ length (Js.split_ws_from false s).
Proof.
  unfold no_whitespace. induction s as [|c s IH]; [by left|]. simpl.
  destruct (Js.is_whitespace c) eqn:Hc.
  - right. simpl. pose proof (split_ws_from_nonempty true s).
    destruct (Js.split_ws_from true s); [done | simpl; lia].
  - destruct IH as [Hs|IH]; [left; by rewrite Hs|right].
    destruct (Js.split_ws_from false s); simpl in *; lia.
Qed.

(** A line has fewer than two fields exactly when it has no whitespace. *)
Lemma split_ws_short line :
  length (Js.split_ws line 2) < 2 ↔ no_whitespace line.
Proof.
  unfold Js.split_ws. split.
  - intros Hlen. destruct (split_ws_from_whitespace line) as [|Hl]; [done|].
    rewrite length_take in Hlen. lia.
  - intros Hs. rewrite (split_ws_from_no_whitespace line Hs). simpl. lia.
Qed.

(** A sha, whitespace, a path: the two fields of the line. *)
Lemma split_ws_sha_path s c path :
  no_whitespace s → Js.is_whitespace c = true → no_whitespace path →
  Js.split_ws (s +:+ String c path) 2 = [s; path].
Proof.
  intros Hs Hc Hp. unfold Js.split_ws.
  assert (Js.split_ws_from false (s +:+ String c path) = [s; path]) as ->; [|done].
  unfold no_whitespace in Hs. induction s as [|x s IH].
  - rewrite app_empty_l. simpl. rewrite Hc.
    by rewrite (split_ws_from_sep_no_whitespace path Hp).
  - rewrite app_String. simpl in *. apply andb_prop in Hs as [Hx Hs].
    apply negb_true_iff in Hx. rewrite Hx. by rewrite (IH Hs).
Qed.

(** *** The bare name *)

Lemma bare_name_cases path :
  no_whitespace path →
  bare_name path = path ∨
  ∃ seg t, path = "refs/" +:+ seg +:+ "/" +:+ t ∧ bare_name path = t.
Proof.
  intros Hp. unfold bare_name.
  destruct (Js.after_prefix "refs/" path) as [r|] eqn:Hr;
    [|left; by apply dot_star_no_whitespace].
  apply after_prefix_Some in Hr.
  pose proof (take_drop_while (λ c, negb (Js.is_slash c)) r) as Hsplit.
  destruct (Js.take_while _ r) as [|x seg] eqn:Hseg;
    [left; by apply dot_star_no_whitespace|].
  destruct (Js.drop_while _ r) as [|y t] eqn:Ht;
    [left; by apply dot_star_no_whitespace|].
  right. exists (String x seg), t.
  assert (y = "/"%char) as ->.
  { assert (negb (Js.is_slash y) = false) as Hy.
    { destruct r as [|z r]; [done|]. revert Ht. clear.
      induction (String z r) as [|a u IH]; [done|]. simpl.
      destruct (negb (Js.is_slash a)) eqn:Ha; [done|]. by intros [= -> _]. }
    apply negb_false_iff in Hy.
    by destruct y as [[] [] [] [] [] [] [] []]. }
  assert (path = "refs/" +:+ String x seg +:+ "/" +:+ t) as Hpath.
  { by rewrite Hr, <- Hsplit. }
  split; [done|]. apply dot_star_no_whitespace.
  unfold no_whitespace in *. rewrite Hpath in Hp.
  rewrite !all_chars_app in Hp. by repeat apply andb_prop in Hp as [_ Hp].
Qed.

Lemma bare_name_suffix path : no_whitespace path → is_suffix (bare_name path) path.
Proof.
  intros Hp. destruct (bare_name_cases path Hp) as [->|(seg & t & Hpath & ->)].
  - by exists "".
  - exists ("refs/" +:+ seg +:+ "/"). by rewrite !app_assoc_string.
Qed.




(** *** The version at the end of a tag name *)

Lemma digits_then_inv s k :
  digits_then s k = true → ∃ a r, digits a ∧ s = a +:+ r ∧ k r = true.
Proof.
  unfold digits_then. intros Hk.
  exists (Js.take_while Js.is_digit s), (Js.drop_while Js.is_digit s).
  pose proof (take_while_all Js.is_digit s).
  destruct (Js.take_while Js.is_digit s) eqn:Ha; [done|].
  rewrite <- Ha at 2. by rewrite take_drop_while.
Qed.

Lemma dot_then_inv s k : dot_then s k = true → ∃ r, s = "." +:+ r ∧ k r = true.
Proof.
  destruct s as [|c r]; [done|]. simpl. unfold Js.is_dot.
  case_bool_decide; [|done]. subst. by exists r.
Qed.

Lemma at_end_inv s : at_end s = true → s = "".
Proof. by destruct s. Qed.

Lemma digits_then_dot a r k :
  digits a → digits_then (a +:+ String "."%char r) k = k (String "."%char r).
Proof.
  intros [Hne Ha]. unfold digits_then.
  rewrite take_while_app, drop_while_app by done.
  by destruct a.
Qed.

Lemma digits_then_end a : digits a → digits_then a at_end = true.
Proof.
  intros [Hne Ha]. unfold digits_then.
  destruct (take_while_all_r _ _ Ha) as [-> ->]. by destruct a.
Qed.

(** The matcher accepts exactly the strings MAJOR.MINOR.PATCH. *)
Lemma major_minor_patch_end_spec s :
  major_minor_patch_end s = true ↔ is_major_minor_patch s.
Proof.
  unfold major_minor_patch_end. split.
  - intros (a & r1 & Ha & -> & H1)%digits_then_inv.
    apply dot_then_inv in H1 as (r2 & -> & H2).
    apply digits_then_inv in H2 as (b & r3 & Hb & -> & H3).
    apply dot_then_inv in H3 as (r4 & -> & H4).
    apply digits_then_inv in H4 as (d & r5 & Hd & -> & ->%at_end_inv).
    exists a, b, d. by rewrite app_empty_r.
  - intros (a & b & d & Ha & Hb & Hd & ->).
    change ("." +:+ b +:+ "." +:+ d) with (String "."%char (b +:+ "." +:+ d)).
    rewrite digits_then_dot by done. simpl.
    change ("." +:+ d) with (String "."%char d).
    rewrite digits_then_dot by done. simpl.
    by apply digits_then_end.
Qed.

Lemma is_major_minor_patch_head c :
  is_major_minor_patch c → ∃ x r, c = String x r ∧ Js.is_digit x = true.
Proof.
  intros (a & b & d & [Hne Ha] & _ & _ & ->).
  destruct a as [|x a]; [done|]. simpl in Ha. apply andb_prop in Ha as [Hx _].
  by exists x, (a +:+ "." +:+ b +:+ "." +:+ d).
Qed.

Lemma version_here_Some s c :
  version_here s = Some c →
  is_major_minor_patch c ∧ (c = s ∨ s = "v" +:+ c).
Proof.
  unfold version_here.
  assert ((if major_minor_patch_end s then Some s else None) = Some c →
          is_major_minor_patch c ∧ (c = s ∨ s = "v" +:+ c)) as Hwithout.
  { destruct (major_minor_patch_end s) eqn:Hs; [|done].
    intros [= <-]. split; [by apply major_minor_patch_end_spec | by left]. }
  destruct s as [|x s']; [done|]. case_decide as Hx; [|done]. subst x.
  destruct (major_minor_patch_end s') eqn:Hs'; [|done].
  intros [= <-]. split; [by apply major_minor_patch_end_spec | by right].
Qed.

Lemma version_here_None s : version_here s = None → ¬ is_major_minor_patch s.
Proof.
  unfold version_here. intros Hnone Hs%major_minor_patch_end_spec.
  rewrite Hs in Hnone. destruct s as [|x s']; [done|].
  case_decide; [|done]. by destruct (major_minor_patch_end s').
Qed.

(** What [match] captures: the longest MAJOR.MINOR.PATCH that ends the
    string; no match when no end of the string has that shape. *)
Lemma version_match_spec s :
  match version_match s with
  | Some c => ends_with_version s c
  | None => ∀ c, is_suffix c s → ¬ is_major_minor_patch c
  end.
Proof.
  induction s as [|x s IH].
  - simpl. intros c [p Hp]. destruct p, c; try done.
    by intros (? & ? & ? & ?)%is_major_minor_patch_head.
  - cbn [version_match].
    destruct (version_here (String x s)) as [c|] eqn:Hhere.
    + apply version_here_Some in Hhere as [Hc [->|Hv]].
      * split; [by exists ""|]. split; [done|].
        intros c' Hc' _. by apply is_suffix_length.
      * injection Hv as -> ->. split; [by exists "v"|]. split; [done|].
        intros c' [->|Hc']%is_suffix_cons Hmmp.
        -- by apply is_major_minor_patch_head in Hmmp as (? & ? & [= <- _] & ?).
        -- by apply is_suffix_length.
    + apply version_here_None in Hhere.
      destruct (version_match s) as [c|].
      * destruct IH as (Hsuf & Hc & Hmax). split; [|split; [done|]].
        { destruct Hsuf as [p ->]. by exists (String x p). }
        intros c' [->|Hc']%is_suffix_cons Hmmp; [done | by apply Hmax].
      * intros c' [->|Hc']%is_suffix_cons; [done | by apply IH].
Qed.

(** ** Parsing a line *)

Lemma split_ws_length line lim : length (Js.split_ws line lim) ≤ lim.
Proof. unfold Js.split_ws. rewrite length_take. lia. Qed.

Lemma revs_line_line_doc revs line :
  revs_line revs line =
    match line_doc line with
    | Some doc => add_doc doc revs
    | None => Ok revs
    end.
Proof.
  unfold revs_line, line_doc. pose proof (split_ws_length line 2) as Hlen.
  destruct (Js.split_ws line 2) as [|s [|path [|? ?]]]; simpl in *;
    repeat case_decide; try done; try lia.
  by destruct (Js.endsWith _ _).
Qed.

Lemma line_doc_fields line s path :
  Js.split_ws line 2 = [s; path] →
  line_doc line =
    if decide (bare_name path = "") then None
    else if Js.endsWith (bare_name path) CARET_BRACES then None
    else Some (Doc s (bare_name path) (refType line)).
Proof.
  intros Hl. destruct (split_ws_two_fields _ _ _ Hl) as [Hs Hp].
  unfold line_doc. rewrite Hl. by rewrite !trim_no_whitespace.
Qed.

Lemma line_doc_short line : length (Js.split_ws line 2) < 2 → line_doc line = None.
Proof.
  unfold line_doc. destruct (Js.split_ws line 2) as [|s [|path [|? ?]]]; simpl; try done; lia.
Qed.

Lemma reduce_app {A B} (f : A → B → Result A) l1 l2 acc :
  reduce f (l1 ++ l2) acc = acc' ← reduce f l1 acc; reduce f l2 acc'.
Proof.
  revert acc. induction l1 as [|x l1 IH]; intros acc; [done|].
  simpl. destruct (f acc x); simpl; [apply IH | done].
Qed.

Lemma assoc_get_set_eq {A} k (a : A) l : assoc_get k (assoc_set k a l) = Some a.
Proof.
  induction l as [|[k' a'] l IH]; simpl.
  - by rewrite decide_True.
  - case_decide; simpl; [by rewrite decide_True | by rewrite decide_False].
Qed.

Lemma assoc_get_set_ne {A} k k' (a : A) l :
  k' ≠ k → assoc_get k' (assoc_set k a l) = assoc_get k' l.
Proof.
  intros Hne. induction l as [|[k0 a0] l IH]; simpl.
  - by rewrite decide_False.
  - case_decide; simpl; [subst; by rewrite !decide_False|].
    case_decide; [done | apply IH].
Qed.

Lemma get_property_not_inherited {A} (o : gmap string A) k :
  k ∉ Object_prototype →
  get_property o k = match o !! k with Some a => Own a | None => Missing end.
Proof. intros Hk. unfold get_property. destruct (o !! k); [done|]. by rewrite decide_False. Qed.

Lemma add_doc_Ok doc revs :
  sha doc ∉ Object_prototype →
  ∃ revs', add_doc doc revs = Ok revs' ∧
    versions revs' = versions (index_version doc revs) ∧
    dist_tags revs' = dist_tags revs.
Proof.
  intros Hsha. unfold add_doc, index_sha.
  rewrite get_property_not_inherited by done.
  assert (∀ r, versions (index_version doc r) =
    match type doc, version_match (ref doc) with
    | Tag, Some v => assoc_set v doc (versions r)
    | _, _ => versions r
    end) as Hv.
  { intros r. unfold index_version. destruct (type doc); try done.
    by destruct (version_match (ref doc)). }
  assert (∀ r, dist_tags (index_version doc r) = dist_tags r) as Hd.
  { intros r. unfold index_version. destruct (type doc); try done.
    by destruct (version_match (ref doc)). }
  assert (versions (set_ref (ref doc) doc revs) = versions revs) as Hvs.
  { unfold set_ref. by case_decide. }
  assert (dist_tags (set_ref (ref doc) doc revs) = dist_tags revs) as Hds.
  { unfold set_ref. by case_decide. }
  destruct (shas (set_ref (ref doc) doc revs) !! sha doc); simpl;
    eexists; (split; [reflexivity|]); rewrite !Hv, Hd; simpl; by rewrite Hvs, Hds.
Qed.

(** The dist-tags are never written: the test of line 152 reads the
    property "sha" of a string. *)
Lemma dist_tags_of_version_id HEAD revs v : dist_tags_of_version HEAD revs v = revs.
Proof. reflexivity. Qed.

Lemma revs_dist_tags_id revs : revs_dist_tags revs = revs.
Proof.
  unfold revs_dist_tags. destruct (refs revs !! "HEAD"); [|done].
  induction (Object_keys (versions revs)) as [|v vs IH]; [done|].
  simpl. by rewrite dist_tags_of_version_id.
Qed.

Lemma revs_of_lines_reduce lines : revs_of_lines lines = reduce revs_line lines revs_init.
Proof.
  unfold revs_of_lines. destruct (reduce revs_line lines revs_init); simpl; [|done].
  by rewrite revs_dist_tags_id.
Qed.

Lemma add_doc_dist_tags doc revs revs' :
  add_doc doc revs = Ok revs' → dist_tags revs' = dist_tags revs.
Proof.
  unfold add_doc, index_sha, index_version, set_ref.
  destruct (get_property _ _); simpl; [|done|]; intros [= <-];
    case_decide; destruct (type doc); try done;
    by destruct (version_match (ref doc)).
Qed.

Lemma revs_line_dist_tags revs line revs' :
  revs_line revs line = Ok revs' → dist_tags revs' = dist_tags revs.
Proof.
  rewrite revs_line_line_doc. destruct (line_doc line); [|by intros [= <-]].
  apply add_doc_dist_tags.
Qed.

Lemma reduce_dist_tags lines revs revs' :
  reduce revs_line lines revs = Ok revs' → dist_tags revs' = dist_tags revs.
Proof.
  revert revs. induction lines as [|line lines IH]; intros revs; [by intros [= <-]|].
  simpl. destruct (revs_line revs line) as [r|] eqn:Hr; [|done]. simpl.
  intros ->%IH. by apply revs_line_dist_tags in Hr.
Qed.

(** Whatever the listing, the result has no dist-tags. *)
Lemma revs_parse_dist_tags stdout r : revs_parse stdout = Ok r → dist_tags r = ∅.
Proof.
  unfold revs_parse. rewrite revs_of_lines_reduce. by intros ->%reduce_dist_tags.
Qed.

(** ** The result as a function of the references *)

Lemma reduce_line_docs lines r :
  reduce revs_line lines r = reduce (λ r d, add_doc d r) (omap line_doc lines) r.
Proof.
  revert r. induction lines as [|line lines IH]; intros r; [done|].
  simpl. rewrite revs_line_line_doc. destruct (line_doc line) as [d|]; simpl.
  - destruct (add_doc d r); simpl; [apply IH | done].
  - apply IH.
Qed.

Lemma result_of_init : result_of [] revs_init.
Proof.
  split; [|split].
  - intros name. unfold refs_of. simpl. rewrite lookup_empty. by case_decide.
  - intros s. apply lookup_empty.
  - done.
Qed.

Lemma filter_snoc_True {A} (P : A → Prop) `{∀ x, Decision (P x)} l x :
  P x → filter P (l ++ [x]) = filter P l ++ [x].
Proof. intros Hx. by rewrite filter_app, filter_cons_True. Qed.

Lemma filter_snoc_False {A} (P : A → Prop) `{∀ x, Decision (P x)} l x :
  ¬ P x → filter P (l ++ [x]) = filter P l.
Proof. intros Hx. by rewrite filter_app, filter_cons_False, app_nil_r. Qed.

Lemma shas_of_snoc_eq seen d :
  shas_of (seen ++ [d]) (sha d) =
    Some (default [] (shas_of seen (sha d)) ++ [ref d]).
Proof.
  unfold shas_of. rewrite filter_snoc_True by done.
  destruct (filter _ seen) as [|x l]; simpl; [done|].
  by rewrite fmap_app.
Qed.

Lemma shas_of_snoc_ne seen d s :
  sha d ≠ s → shas_of (seen ++ [d]) s = shas_of seen s.
Proof.
  intros Hs. unfold shas_of.
  by rewrite filter_snoc_False.
Qed.

Lemma refs_of_snoc_eq seen d :
  ref d ≠ "__proto__" → refs_of (seen ++ [d]) (ref d) = Some d.
Proof.
  intros Hp. unfold refs_of. rewrite decide_False by done.
  rewrite filter_snoc_True by done. apply last_snoc.
Qed.

Lemma refs_of_snoc_ne seen d name :
  ref d ≠ name → refs_of (seen ++ [d]) name = refs_of seen name.
Proof.
  intros Hp. unfold refs_of. case_decide; [done|].
  by rewrite filter_snoc_False.
Qed.

Lemma refs_of_proto seen : refs_of seen "__proto__" = None.
Proof. unfold refs_of. by rewrite decide_True. Qed.

Lemma result_of_add_doc seen d r r' :
  result_of seen r → add_doc d r = Ok r' → result_of (seen ++ [d]) r'.
Proof.
  intros (Hrefs & Hshas & Hvers). unfold add_doc, index_sha.
  set (r1 := set_ref (ref d) d r).
  assert (shas r1 = shas r ∧ versions r1 = versions r) as [Hs1 Hv1].
  { unfold r1, set_ref. by case_decide. }
  assert (∀ name, refs r1 !! name = refs_of (seen ++ [d]) name) as Hrefs1.
  { intros name. unfold r1, set_ref. case_decide as Hp; simpl.
    - destruct (decide (name = "__proto__")) as [->|Hne];
        [by rewrite refs_of_proto, Hrefs, refs_of_proto|].
      rewrite refs_of_snoc_ne by congruence. apply Hrefs.
    - destruct (decide (ref d = name)) as [<-|Hne].
      + by rewrite lookup_insert_eq, refs_of_snoc_eq.
      + by rewrite lookup_insert_ne, refs_of_snoc_ne. }
  assert (∀ r2 names,
    refs r2 = refs r1 → versions r2 = versions r1 →
    shas r2 = <[sha d := names]> (shas r) →
    names = default [] (shas_of seen (sha d)) ++ [ref d] →
    result_of (seen ++ [d]) (index_version d r2)) as Hstep.
  { intros r2 names Hr2 Hv2 Hs2 ->.
    assert (refs (index_version d r2) = refs r2 ∧
            shas (index_version d r2) = shas r2) as [Hri Hsi].
    { unfold index_version. destruct (type d); try done.
      by destruct (version_match (ref d)). }
    split; [|split].
    - intros name. rewrite Hri, Hr2. apply Hrefs1.
    - intros s. rewrite Hsi, Hs2. destruct (decide (sha d = s)) as [<-|Hne].
      + by rewrite lookup_insert_eq, shas_of_snoc_eq.
      + by rewrite lookup_insert_ne, shas_of_snoc_ne.
    - intros v d'. rewrite elem_of_app, list_elem_of_singleton.
      unfold index_version.
      assert (assoc_get v (versions r2) = Some d' → d' ∈ seen ∨ d' = d) as Hold.
      { rewrite Hv2, Hv1. intros ?%Hvers. by left. }
      destruct (type d); try done.
      destruct (version_match (ref d)) as [v0|]; [|done]. simpl.
      destruct (decide (v = v0)) as [->|Hne].
      + rewrite assoc_get_set_eq. intros [= <-]. by right.
      + by rewrite assoc_get_set_ne. }
  unfold get_property. rewrite Hs1, Hshas.
  destruct (shas_of seen (sha d)) as [names|] eqn:Hnames; simpl.
  - intros [= <-]. apply (Hstep _ (names ++ [ref d])); try done.
    simpl. by rewrite Hs1.
  - case_decide; [done|]. intros [= <-]. apply (Hstep _ [ref d]); try done.
    simpl. by rewrite Hs1.
Qed.

Lemma result_of_reduce docs seen r r' :
  result_of seen r →
  reduce (λ r d, add_doc d r) docs r = Ok r' →
  result_of (seen ++ docs) r'.
Proof.
  revert seen r. induction docs as [|d docs IH]; intros seen r Hr.
  - simpl. intros [= <-]. by rewrite app_nil_r.
  - simpl. destruct (add_doc d r) as [r1|] eqn:Hadd; [|done]. simpl.
    intros Hred. replace (seen ++ d :: docs) with ((seen ++ [d]) ++ docs)
      by by rewrite <- app_assoc.
    eapply IH; [|done]. by eapply result_of_add_doc.
Qed.

Lemma revs_parse_result_of stdout r :
  revs_parse stdout = Ok r → result_of (listing_docs stdout) r.
Proof.
  unfold revs_parse. rewrite revs_of_lines_reduce, reduce_line_docs.
  apply (result_of_reduce _ [] revs_init), result_of_init.
Qed.

Lemma filter_unique_name seen d :
  NoDup (ref <$> seen) → d ∈ seen →
  filter (λ d', ref d' = ref d) seen = [d].
Proof.
  induction seen as [|x l IH]; [by intros _ ?%elem_of_nil|].
  rewrite fmap_cons, NoDup_cons. intros [Hx Hl] Hd.
  destruct (decide (ref x = ref d)) as [Heq|Hne].
  - rewrite filter_cons_True by done.
    assert (d = x) as ->.
    { apply elem_of_cons in Hd as [->|Hd]; [done|].
      destruct Hx. rewrite Heq. by apply list_elem_of_fmap_2. }
    f_equal. destruct (filter _ l) as [|y ?] eqn:Hf; [done|].
    assert (y ∈ filter (λ d', ref d' = ref x) l) as Hy by (rewrite Hf; left).
    apply list_elem_of_filter in Hy as [Hy1 Hy2].
    destruct Hx. rewrite <- Hy1. by apply list_elem_of_fmap_2.
  - rewrite filter_cons_False by done. apply IH; [done|].
    apply elem_of_cons in Hd as [->|Hd]; done.
Qed.

Lemma NoDup_fmap_filter {A B} (f : A → B) (P : A → Prop) `{∀ x, Decision (P x)} l :
  NoDup (f <$> l) → NoDup (f <$> filter P l).
Proof.
  intros Hl. apply (sublist_NoDup _ (f <$> l)); [exact Hl|].
  apply fmap_sublist, sublist_filter.
Qed.

Lemma refs_of_Some seen name d :
  refs_of seen name = Some d → name ≠ "__proto__" ∧ d ∈ seen ∧ ref d = name.
Proof.
  unfold refs_of. case_decide; [done|].
  intros Hd. apply last_Some_elem_of in Hd.
  apply list_elem_of_filter in Hd as [Hname Hd]. done.
Qed.

Lemma default_shas_of seen s :
  default [] (shas_of seen s) = ref <$> filter (λ d, sha d = s) seen.
Proof. unfold shas_of. by destruct (filter _ seen). Qed.

(** When no name repeats, the result is determined by [refs]. *)
Lemma result_of_unique seen r :
  result_of seen r → dist_tags r = ∅ →
  NoDup (ref <$> seen) → "__proto__" ∉ ref <$> seen →
  refs_invariant r.
Proof.
  intros (Hrefs & Hshas & Hvers) Hdist Hnodup Hproto.
  assert (∀ d, d ∈ seen → refs r !! ref d = Some d) as Hlast.
  { intros d Hd. rewrite Hrefs. unfold refs_of.
    assert (ref d ≠ "__proto__") as Hne.
    { intros Heq. apply Hproto. rewrite <- Heq. by apply list_elem_of_fmap_2. }
    rewrite decide_False by done. by rewrite filter_unique_name. }
  split; [split|split].
  - intros v d Hd%Hvers. exists (ref d). by apply Hlast.
  - intros t d. by rewrite Hdist, lookup_empty.
  - intros s name. rewrite Hshas, default_shas_of, list_elem_of_fmap. split.
    + intros (d & -> & [Hs Hd]%list_elem_of_filter). exists d. split; [by apply Hlast|done].
    + intros (d & Hd & Hs). rewrite Hrefs in Hd.
      apply refs_of_Some in Hd as (_ & Hd & Hname).
      exists d. split; [done|]. by apply list_elem_of_filter.
  - intros s names. rewrite Hshas. unfold shas_of.
    pose proof (NoDup_fmap_filter ref (λ d, sha d = s) seen Hnodup) as Hnd.
    destruct (filter (λ d, sha d = s) seen) as [|x l]; [done|].
    intros [= <-]. split; [done | exact Hnd].
Qed.

(** [versions] holds, under a version, the last tag that gives it. *)
Lemma add_doc_versions_of seen d r r' :
  (∀ v, assoc_get v (versions r) = versions_of seen v) →
  add_doc d r = Ok r' →
  ∀ v, assoc_get v (versions r') = versions_of (seen ++ [d]) v.
Proof.
  intros Hvers Hadd v.
  assert (versions r' = versions (index_version d r)) as ->.
  { unfold add_doc, index_sha in Hadd.
    assert (∀ r1 r2, versions r1 = versions r2 →
              versions (index_version d r1) = versions (index_version d r2)) as Hiv.
    { intros r1 r2 H12. unfold index_version. destruct (type d); try done.
      destruct (version_match (ref d)); [|done]. simpl. by rewrite H12. }
    assert (versions (set_ref (ref d) d r) = versions r) as Hset.
    { unfold set_ref. by case_decide. }
    destruct (get_property _ _); simpl in Hadd; [| done |];
      injection Hadd as <-; by apply Hiv. }
  unfold versions_of, index_version.
  destruct (decide (type d = Tag ∧ version_match (ref d) = Some v)) as [[Ht Hv]|Hno].
  - rewrite filter_snoc_True by done. rewrite last_snoc, Ht, Hv. simpl.
    by rewrite assoc_get_set_eq.
  - rewrite filter_snoc_False by done.
    destruct (type d) eqn:Ht; try apply Hvers.
    destruct (version_match (ref d)) as [v0|] eqn:Hv0; [|apply Hvers]. simpl.
    rewrite assoc_get_set_ne by (intros ->; by apply Hno). apply Hvers.
Qed.

Lemma reduce_versions_of docs seen r r' :
  (∀ v, assoc_get v (versions r) = versions_of seen v) →
  reduce (λ r d, add_doc d r) docs r = Ok r' →
  ∀ v, assoc_get v (versions r') = versions_of (seen ++ docs) v.
Proof.
  revert seen r. induction docs as [|d docs IH]; intros seen r Hr.
  - simpl. intros [= <-]. by rewrite app_nil_r.
  - simpl. destruct (add_doc d r) as [r1|] eqn:Hadd; [|done]. simpl.
    intros Hred. replace (seen ++ d :: docs) with ((seen ++ [d]) ++ docs)
      by by rewrite <- app_assoc.
    eapply IH; [|done]. by eapply add_doc_versions_of.
Qed.

Lemma revs_parse_versions_of stdout r :
  revs_parse stdout = Ok r →
  ∀ v, assoc_get v (versions r) = versions_of (listing_docs stdout) v.
Proof.
  unfold revs_parse. rewrite revs_of_lines_reduce, reduce_line_docs.
  by apply (reduce_versions_of _ [] revs_init).
Qed.

(** C2, as amended.  For every listing that [revs] parses: an entry of
    [refs] is the last reference of its name in the listing, and it is
    listed in [shas] under its commit; [shas] lists, under a commit, the
    names of all the references of the listing at that commit, in order,
    those that a later line has replaced in [refs] included; [versions]
    holds, under a version, the last tag of the listing that gives it,
    whether or not [refs] still holds that tag under its name.  When no
    name occurs on more than one line that yields a reference, and none is
    "__proto__", every reference of [versions] and ['dist-tags'] is a value
    of [refs] and [shas] is exactly the index of [refs] by commit. *)
Theorem revs_parse_refs_invariant stdout r :
  revs_parse stdout = Ok r →
  (∀ name, name ≠ "__proto__" →
     refs r !! name = last (filter (λ d, ref d = name) (listing_docs stdout))) ∧
  (∀ name d, refs r !! name = Some d →
     ref d = name ∧ name ∈ default [] (shas r !! sha d)) ∧
  (∀ s, default [] (shas r !! s) =
        ref <$> filter (λ d, sha d = s) (listing_docs stdout)) ∧
  (∀ v, assoc_get v (versions r) =
        last (filter (λ d, type d = Tag ∧ version_match (ref d) = Some v)
                (listing_docs stdout))) ∧
  (NoDup (ref <$> listing_docs stdout) →
   "__proto__" ∉ ref <$> listing_docs stdout →
   refs_invariant r).
Proof.
  intros Hparse. pose proof (revs_parse_result_of _ _ Hparse) as Hres.
  pose proof Hres as (Hrefs & Hshas & Hvers).
  split; [|split; [|split; [|split]]].
  - intros name Hname. rewrite Hrefs. unfold refs_of. by rewrite decide_False.
  - intros name d. rewrite Hrefs. intros (_ & Hd & Hname)%refs_of_Some.
    split; [done|]. rewrite Hshas, default_shas_of, list_elem_of_fmap.
    exists d. split; [done|]. by apply list_elem_of_filter.
  - intros s. by rewrite Hshas, default_shas_of.
  - apply (revs_parse_versions_of _ _ Hparse).
  - apply result_of_unique; [done|]. by eapply revs_parse_dist_tags.
Qed.

Lemma revs_parse_refs_invariant_witness :
  ∃ r, revs_parse listing_two_branches = Ok r ∧ refs_invariant r.
Proof.
  eexists. split; [vm_compute; reflexivity|].
  apply (revs_parse_refs_invariant listing_two_branches).
  - vm_compute; reflexivity.
  - apply (bool_decide_unpack _); vm_compute; exact I.
  - apply (bool_decide_unpack _); vm_compute; exact I.
Defined.

(** C2, as stated, fails when a name repeats: "x" stays listed under the
    commit of the first line, which no entry of [refs] points at. *)
Lemma revs_parse_repeated_name_counterexample :
  ¬ (∀ r, revs_parse listing_repeated_name = Ok r → refs_invariant r).
Proof.
  intros Hclaim.
  assert (∃ r, revs_parse listing_repeated_name = Ok r ∧
               shas r !! "aaaa" = Some ["x"] ∧
               refs r !! "x" = Some (Doc "bbbb" "x" Tag)) as (r & Hr & Hs & Hx).
  { eexists. split; [vm_compute; reflexivity|]. split; vm_compute; reflexivity. }
  destruct (Hclaim r Hr) as (_ & Hindex & _).
  destruct (proj1 (Hindex "aaaa" "x")) as (d & Hd & Hsha).
  { rewrite Hs. simpl. left. }
  rewrite Hx in Hd. by injection Hd as <-.
Qed.

(** ** Single lines *)




(** C8.  A line with fewer than two fields leaves the result as it is, and
    the listing is parsed, to a result or to an error, as the listing
    without that line is. *)
Theorem revs_parse_skips_short_line stdout before line after :
  Js.split_lines stdout = before ++ line :: after →
  length (Js.split_ws line 2) < 2 →
  (∀ revs, revs_line revs line = Ok revs) ∧
  revs_parse stdout = revs_of_lines (before ++ after).
Proof.
  intros Hlines Hshort.
  assert (∀ revs, revs_line revs line = Ok revs) as Hline.
  { intros revs. by rewrite revs_line_line_doc, line_doc_short. }
  split; [done|]. unfold revs_parse, revs_of_lines. rewrite Hlines.
  rewrite !reduce_app.
  destruct (reduce revs_line before revs_init) as [r|]; simpl; [|done].
  by rewrite Hline.
Qed.

Lemma revs_parse_skips_short_line_witness :
  (∀ revs, revs_line revs "garbage" = Ok revs) ∧
  revs_parse ("1111" +:+ Js.TAB +:+ "refs/heads/main" +:+ Js.LF +:+ "garbage" +:+ Js.LF +:+
              "2222" +:+ Js.TAB +:+ "refs/tags/v1.0.0")
  = revs_of_lines ["1111" +:+ Js.TAB +:+ "refs/heads/main";
                   "2222" +:+ Js.TAB +:+ "refs/tags/v1.0.0"].
Proof.
  apply (revs_parse_skips_short_line _ ["1111" +:+ Js.TAB +:+ "refs/heads/main"] "garbage"
           ["2222" +:+ Js.TAB +:+ "refs/tags/v1.0.0"]).
  - vm_compute; reflexivity.
  - vm_compute; lia.
Defined.

(** C5, as amended.  A well-formed line classified as a tag adds an entry
    to [versions] exactly when its bare name ends with MAJOR.MINOR.PATCH,
    whatever comes before; the key is the longest such ending and the value
    is the reference of the line. *)
Theorem revs_line_tag_version revs line s path :
  Js.split_ws line 2 = [s; path] →
  bare_name path ≠ "" →
  Js.endsWith (bare_name path) CARET_BRACES = false →
  s ∉ Object_prototype →
  refType line = Tag →
  ∃ revs', revs_line revs line = Ok revs' ∧
    ((∃ c, ends_with_version (bare_name path) c ∧
           versions revs' = assoc_set c (Doc s (bare_name path) Tag) (versions revs))
     ∨ ((∀ c, is_suffix c (bare_name path) → ¬ is_major_minor_patch c) ∧
        versions revs' = versions revs)).
Proof.
  intros Hl Hname Hcaret Hs Htag.
  rewrite revs_line_line_doc, (line_doc_fields _ _ _ Hl).
  rewrite decide_False, Hcaret, Htag by done.
  destruct (add_doc_Ok (Doc s (bare_name path) Tag) revs Hs) as (revs' & -> & Hv & _).
  exists revs'. split; [done|]. rewrite Hv. unfold index_version. simpl.
  pose proof (version_match_spec (bare_name path)) as Hspec.
  destruct (version_match (bare_name path)) as [c|]; [left; by exists c | by right].
Qed.

Lemma revs_line_tag_version_witness :
  ∃ revs', revs_line revs_init ("abcd" +:+ Js.TAB +:+ "refs/tags/v1.2.3") = Ok revs' ∧
    ((∃ c, ends_with_version "v1.2.3" c ∧
           versions revs' = assoc_set c (Doc "abcd" "v1.2.3" Tag) [])
     ∨ ((∀ c, is_suffix c "v1.2.3" → ¬ is_major_minor_patch c) ∧
        versions revs' = [])).
Proof.
  apply (revs_line_tag_version revs_init _ "abcd" "refs/tags/v1.2.3").
  - vm_compute; reflexivity.
  - vm_compute; discriminate.
  - vm_compute; reflexivity.
  - apply (bool_decide_unpack _); vm_compute; exact I.
  - vm_compute; reflexivity.
Defined.

(** The line of the specification: a sha, a tab, "refs/tags/v1.2.3". *)
Lemma revs_line_tag_v1_2_3 revs s :
  no_whitespace s → s ∉ Object_prototype →
  ∃ revs', revs_line revs (s +:+ Js.TAB +:+ "refs/tags/v1.2.3") = Ok revs' ∧
    assoc_get "1.2.3" (versions revs') = Some (Doc s "v1.2.3" Tag).
Proof.
  intros Hs Hproto.
  assert (Js.split_ws (s +:+ Js.TAB +:+ "refs/tags/v1.2.3") 2 = [s; "refs/tags/v1.2.3"]) as Hl.
  { by apply split_ws_sha_path. }
  assert (refType (s +:+ Js.TAB +:+ "refs/tags/v1.2.3") = Tag) as Htag.
  { unfold refType. by rewrite includes_app_r. }
  rewrite revs_line_line_doc, (line_doc_fields _ _ _ Hl), Htag.
  change (bare_name "refs/tags/v1.2.3") with "v1.2.3". simpl.
  destruct (add_doc_Ok (Doc s "v1.2.3" Tag) revs Hproto) as (revs' & -> & Hv & _).
  exists revs'. split; [done|]. rewrite Hv.
  change (index_version (Doc s "v1.2.3" Tag) revs)
    with (set_version "1.2.3" (Doc s "v1.2.3" Tag) revs).
  apply assoc_get_set_eq.
Qed.

(** C5, as stated, fails: the tag "release-1.2.3" is no optional "v"
    followed by MAJOR.MINOR.PATCH, and its line adds an entry. *)
Lemma revs_line_tag_version_counterexample :
  ¬ is_v_major_minor_patch "release-1.2.3" ∧
  refType ("abcd" +:+ Js.TAB +:+ "refs/tags/release-1.2.3") = Tag ∧
  ∃ revs', revs_line revs_init ("abcd" +:+ Js.TAB +:+ "refs/tags/release-1.2.3") = Ok revs' ∧
           versions revs' = [("1.2.3", Doc "abcd" "release-1.2.3" Tag)].
Proof.
  split; [|split; [done|]].
  - intros [Hm|(c & Hc & _)]; [|done].
    by apply major_minor_patch_end_spec in Hm.
  - eexists. split; vm_compute; reflexivity.
Qed.

(** C1.  The listing of the specification: "HEAD" and the tag "v2.0.0" at
    the same commit.  The result has the reference "HEAD" and the version
    "2.0.0", both at that commit, and no dist-tag. *)
Theorem revs_parse_head_and_tag_no_dist_tags :
  ∃ r, revs_parse ("abc" +:+ Js.TAB +:+ "HEAD" +:+ Js.LF +:+
                   "abc" +:+ Js.TAB +:+ "refs/tags/v2.0.0" +:+ Js.LF) = Ok r ∧
       refs r !! "HEAD" = Some (Doc "abc" "HEAD" Head) ∧
       refs r !! "latest" = None ∧
       assoc_get "2.0.0" (versions r) = Some (Doc "abc" "v2.0.0" Tag) ∧
       dist_tags r !! "HEAD" = None ∧
       dist_tags r !! "latest" = None.
Proof.
  eexists. split; [vm_compute; reflexivity|].
  repeat split; vm_compute; reflexivity.
Qed.

(** ** The environment *)

Lemma assoc_get_None {A} k (l : list (string * A)) :
  assoc_get k l = None ↔ k ∉ Object_keys l.
Proof.
  unfold Object_keys. induction l as [|[k' a] l IH]; simpl.
  - split; [intros _; apply not_elem_of_nil | done].
  - rewrite not_elem_of_cons. case_decide.
    + split; [done | by intros [? _]].
    + rewrite IH. split; [done | by intros [_ ?]].
Qed.

Lemma gitEnv_step_other process_env G k k' :
  k ≠ k' → gitEnv_step process_env G k !! k' = G !! k'.
Proof.
  intros Hne. unfold gitEnv_step. destruct (_ || _); [|done].
  destruct (assoc_get k process_env); [|done]. case_decide; [done|].
  by rewrite lookup_insert_ne.
Qed.

Lemma gitEnv_fold_absent process_env ks G k :
  k ∉ ks → foldl (gitEnv_step process_env) G ks !! k = G !! k.
Proof.
  revert G. induction ks as [|k0 ks IH]; intros G; [done|].
  rewrite not_elem_of_cons. intros [Hne Hks]. simpl.
  rewrite IH by done. by apply gitEnv_step_other.
Qed.

Lemma gitEnv_fold_askpass process_env ks G v :
  assoc_get "GIT_ASKPASS" process_env = Some v →
  "GIT_ASKPASS" ∈ ks →
  foldl (gitEnv_step process_env) G ks !! "GIT_ASKPASS" = Some v.
Proof.
  intros Hv. revert G. induction ks as [|k ks IH]; intros G; [by intros ?%elem_of_nil|].
  intros Hk. simpl. destruct (decide ("GIT_ASKPASS" ∈ ks)) as [Hin|Hout]; [by apply IH|].
  apply elem_of_cons in Hk as [<-|Hk]; [|done].
  rewrite gitEnv_fold_absent by done.
  unfold gitEnv_step. simpl. rewrite Hv. apply lookup_insert_eq.
Qed.

(** The variable of the credential prompt: the value of the process when
    it has one, "echo" otherwise. *)
Lemma gitEnv_build_askpass tmpName process_env :
  gitEnv_build tmpName process_env !! "GIT_ASKPASS" =
    Some (default "echo" (assoc_get "GIT_ASKPASS" process_env)).
Proof.
  unfold gitEnv_build.
  destruct (assoc_get "GIT_ASKPASS" process_env) as [v|] eqn:Hv; simpl.
  - apply gitEnv_fold_askpass; [done|].
    apply dec_stable. intros Hk%assoc_get_None. congruence.
  - apply assoc_get_None in Hv. by rewrite gitEnv_fold_absent.
Qed.

(** C6, as amended.  The environment that [gitEnv] builds gives
    GIT_ASKPASS the value that the variable has in the environment of the
    process, and "echo" when the process has no such variable. *)
Theorem gitEnv_askpass tmpName process_env w :
  GITENV w = None →
  ∃ w' e, gitEnv process_env tmpName w = (w', Ok e) ∧
    GITENV w' = Some e ∧
    e !! "GIT_ASKPASS" = Some (default "echo" (assoc_get "GIT_ASKPASS" process_env)).
Proof.
  intros Hw. unfold gitEnv. rewrite Hw. eexists _, _.
  split; [done|]. split; [done|]. apply gitEnv_build_askpass.
Qed.

Lemma gitEnv_askpass_witness :
  ∃ w' e, gitEnv [("HOME", "/root"); ("GIT_DIR", "/x")] "/tmp/git-clone-1" World_init = (w', Ok e) ∧
    GITENV w' = Some e ∧
    e !! "GIT_ASKPASS" = Some "echo".
Proof.
  apply (gitEnv_askpass "/tmp/git-clone-1" [("HOME", "/root"); ("GIT_DIR", "/x")] World_init).
  reflexivity.
Defined.

(** C6, as stated, fails: a GIT_ASKPASS of the process replaces "echo". *)
Lemma gitEnv_askpass_counterexample :
  ∃ w' e, gitEnv [("GIT_ASKPASS", "/usr/bin/ssh-askpass")] "/tmp/git-clone-1" World_init = (w', Ok e) ∧
    e !! "GIT_ASKPASS" = Some "/usr/bin/ssh-askpass" ∧
    e !! "GIT_ASKPASS" ≠ Some "echo".
Proof.
  eexists _, _. split; [vm_compute; reflexivity|].
  split; [vm_compute; reflexivity | vm_compute; discriminate].
Qed.

(** ** Options of the spawned processes *)

Section HostProperties.

Context {V : Type} `{JsValue V}.
Variable GITPATH : option string.
Variable platform : string.
Variable process_env : list (string * string).
Variable tmpName : string.
Variable dirname : string → string.
Variable optCheck : option (Options V) → Options V.
Variable execFile : list Invocation → Invocation → Result (string * string).
Variable cp_spawn : list Invocation → Invocation → option Error.

Lemma usable_id_spec (v : V) :
  usable_id v = true ↔ ToNumber v ≠ NaN ∧ ¬ Number_is_zero (ToNumber v).
Proof.
  unfold usable_id. destruct (ToNumber v) as [| |q]; simpl.
  - split; [done | by intros [? _]].
  - split; [intros _; split; [done | by intros []] | done].
  - rewrite andb_true_r, negb_true_iff, Z.eqb_neq. split; [done | by intros [_ ?]].
Qed.

Lemma carried_spec (v : V) n :
  carried v = Some n ↔ ToNumber v = n ∧ n ≠ NaN ∧ ¬ Number_is_zero n.
Proof.
  unfold carried. destruct (usable_id v) eqn:Hv.
  - apply usable_id_spec in Hv. split; [by intros [= <-] | by intros [-> _]].
  - split; [done|]. intros (<- & Hn). apply usable_id_spec in Hn. congruence.
Qed.

Lemma gitEnv_run w :
  gitEnv process_env tmpName w = (gitEnv_world process_env tmpName w, Ok (gitEnv_value process_env tmpName w)).
Proof. destruct w as [[e|] ? ?]; done. Qed.

Lemma mkOpts_run _gitOpts opts w :
  mkOpts process_env tmpName _gitOpts opts w =
    (gitEnv_world process_env tmpName w, Ok (spawn_options process_env tmpName _gitOpts opts w)).
Proof.
  unfold mkOpts, mbind, M_bind. rewrite gitEnv_run.
  unfold spawn_options, carried, assign, mret, M_ret.
  destruct (usable_id (opts_uid opts)), (usable_id (opts_gid opts)); simpl;
    by destruct (git_cwd _gitOpts).
Qed.

(** C9, as amended.  The options of a spawned process carry a uid (a gid)
    exactly when the field of the options object coerces, by unary plus, to
    a number that is neither NaN nor zero, and then it is that number. *)
Theorem mkOpts_uid_gid _gitOpts opts w :
  ∃ w' options,
    mkOpts process_env tmpName _gitOpts opts w = (w', Ok options) ∧
    (∀ n, uid options = Some n ↔
          ToNumber (opts_uid opts) = n ∧ n ≠ NaN ∧ ¬ Number_is_zero n) ∧
    (∀ n, gid options = Some n ↔
          ToNumber (opts_gid opts) = n ∧ n ≠ NaN ∧ ¬ Number_is_zero n).
Proof.
  eexists _, _. split; [apply mkOpts_run|].
  split; intros n; apply carried_spec.
Qed.

Lemma execGit_run p gitArgs gitOpts opts w :
  GITPATH = Some p →
  execGit GITPATH process_env tmpName optCheck execFile gitArgs gitOpts opts w =
    (mkWorld (Some (gitEnv_value process_env tmpName w)) (REVS w)
       (spawned w ++ [run_of process_env tmpName optCheck p gitArgs gitOpts opts w]),
     execFile (spawned w) (run_of process_env tmpName optCheck p gitArgs gitOpts opts w)).
Proof.
  intros ->. unfold execGit, mbind, M_bind. simpl.
  by rewrite mkOpts_run.
Qed.

Lemma execGit_ENOGIT gitArgs gitOpts opts w :
  GITPATH = None →
  execGit GITPATH process_env tmpName optCheck execFile gitArgs gitOpts opts w =
    (w, Rejected ENOGIT).
Proof. by intros ->. Qed.

(** [spawnGit] and the callback that [revs] gives to [pinflight]: the
    environment is built first, and nothing is recorded unless [spawn]
    returns a child. *)
Lemma spawnGit_run p gitArgs gitOpts opts w :
  GITPATH = Some p →
  spawnGit GITPATH process_env tmpName optCheck cp_spawn gitArgs gitOpts opts w =
    let i := run_of process_env tmpName optCheck p gitArgs gitOpts opts w in
    match cp_spawn (spawned w) i with
    | Some e => (gitEnv_world process_env tmpName w, Rejected e)
    | None =>
        (mkWorld (Some (gitEnv_value process_env tmpName w)) (REVS w) (spawned w ++ [i]),
         Ok i)
    end.
Proof.
  intros ->. unfold spawnGit, checkGit, mbind, M_bind, mret, M_ret.
  rewrite mkOpts_run. unfold spawn, run_of. simpl.
  by destruct (cp_spawn _ _).
Qed.

Lemma ls_remote_eq repo opts w :
  ls_remote GITPATH process_env tmpName optCheck cp_spawn repo opts w =
    let query := ls_remote_query GITPATH process_env tmpName optCheck cp_spawn
                   repo opts w in
    (mkWorld (Some (gitEnv_value process_env tmpName w)) (REVS w)
       (spawned w ++ query_runs query),
     query).
Proof.
  unfold ls_remote, ls_remote_query, spawnGit, checkGit, mbind, M_bind, mret, M_ret.
  rewrite gitEnv_run. destruct GITPATH as [p|].
  - rewrite mkOpts_run. unfold spawn, spawn_options, ls_remote_child. simpl.
    destruct (cp_spawn _ _); simpl; [|reflexivity].
    by rewrite app_nil_r.
  - simpl. by rewrite app_nil_r.
Qed.

End HostProperties.

(** C9, as stated, fails: the uid 0 is a number, and it is not carried. *)
Lemma mkOpts_uid_zero_counterexample :
  Primitive_numeric (PNumber (Finite 0)) = true ∧
  ∃ w' options,
    mkOpts [] "/tmp/git-clone-1" (mkGitOpts (Some "/srv") None)
      (mkOptions (PNumber (Finite 0)) PUndefined) World_init = (w', Ok options) ∧
    uid options = None.
Proof. split; [done|]. eexists _, _. split; vm_compute; reflexivity. Qed.

(** ** The full clone *)

(** The normalizer of the specification gives a missing options object no
    usable uid or gid, and leaves a normalized object as it is. *)
Lemma optCheck_spec_default {V} `{JsValue V} :
  usable_id (opts_uid (optCheck_spec (V := V) None)) = false ∧
  usable_id (opts_gid (optCheck_spec (V := V) None)) = false.
Proof. unfold usable_id. simpl. by rewrite ToNumber_undefined. Qed.

Lemma optCheck_spec_idempotent {V} `{JsValue V} (opts : option (Options V)) :
  optCheck_spec (Some (optCheck_spec opts)) = optCheck_spec opts.
Proof. done. Qed.

Section FullClone.

Context {V : Type} `{JsValue V}.
Variable GITPATH : option string.
Variable platform : string.
Variable process_env : list (string * string).
Variable tmpName : string.
Variable dirname : string → string.
Variable optCheck : option (Options V) → Options V.
Variable execFile : list Invocation → Invocation → Result (string * string).

(** The normalizer gives a missing options object no usable uid or gid,
    and leaves a normalized object as it is. *)
Hypothesis optCheck_default :
  usable_id (opts_uid (optCheck None)) = false ∧
  usable_id (opts_gid (optCheck None)) = false.
Hypothesis optCheck_idempotent :
  ∀ opts, optCheck (Some (optCheck opts)) = optCheck opts.

Lemma run_of_caller p gitArgs gitOpts opts w :
  let i := run_of process_env tmpName optCheck p gitArgs gitOpts (Some (optCheck opts)) w in
  inv_args i = gitArgs ∧
  uid (inv_opts i) = carried (opts_uid (optCheck opts)) ∧
  gid (inv_opts i) = carried (opts_gid (optCheck opts)).
Proof. simpl. by rewrite optCheck_idempotent. Qed.

Lemma run_of_default p gitArgs gitOpts w :
  let i := run_of process_env tmpName optCheck p gitArgs gitOpts None w in
  inv_args i = gitArgs ∧ uid (inv_opts i) = None ∧ gid (inv_opts i) = None.
Proof.
  destruct optCheck_default as [Huid Hgid].
  simpl. unfold carried. by rewrite Huid, Hgid.
Qed.

(** C10.  The runs of the binary that a full clone makes are, in order, at
    most four: the clone, the checkout, the update of the submodules and
    the reading of HEAD; all four when the clone succeeds.  The clone, the
    update and the reading carry the uid and gid of the caller's options;
    the checkout carries neither. *)
Theorem fullClone_checkout_without_opts repo committish target opts w w' res :
  fullClone GITPATH platform process_env tmpName dirname optCheck execFile
    repo committish target opts w = (w', res) →
  ∃ new, spawned w' = spawned w ++ new ∧
    length new ≤ 4 ∧
    (∀ out, res = Ok out → length new = 4) ∧
    ∀ k i, new !! k = Some i →
      match k with
      | 0 => take 2 (inv_args i) = ["clone"; "-q"] ∧
             uid (inv_opts i) = carried (opts_uid (optCheck opts)) ∧
             gid (inv_opts i) = carried (opts_gid (optCheck opts))
      | 1 => inv_args i = ["checkout"; committish] ∧
             uid (inv_opts i) = None ∧
             gid (inv_opts i) = None
      | 2 => inv_args i = ["submodule"; "update"; "-q"; "--init"; "--recursive"] ∧
             uid (inv_opts i) = carried (opts_uid (optCheck opts)) ∧
             gid (inv_opts i) = carried (opts_gid (optCheck opts))
      | _ => inv_args i = ["rev-parse"; "--revs-only"; "HEAD"] ∧
             uid (inv_opts i) = carried (opts_uid (optCheck opts)) ∧
             gid (inv_opts i) = carried (opts_gid (optCheck opts))
      end.
Proof.
  unfold fullClone, updateSubmodules, headSha.
  destruct GITPATH as [p|] eqn:Hpath.
  2:{ unfold mbind, M_bind. rewrite execGit_ENOGIT by done.
      intros [= <- <-]. exists []. rewrite app_nil_r.
      runs_so_far. by intros k i. }
  set (args0 := if decide (platform = "win32") then _ else _).
  assert (take 2 args0 = ["clone"; "-q"]) as Hargs0.
  { unfold args0. by case_decide. }
  clearbody args0.
  unfold mbind, M_bind. rewrite !optCheck_idempotent.
  rewrite (execGit_run _ _ _ _ _ p) by done.
  pose proof (run_of_caller p args0 (mkGitOpts (Some (dirname target)) None) opts w)
    as (Ha0 & Hu0 & Hg0).
  rewrite <- Ha0 in Hargs0.
  set (i0 := run_of _ _ _ _ _ _ _ w) in *. clearbody i0.
  destruct (execFile (spawned w) i0) as [out0|e0].
  2:{ intros [= <- <-]. exists [i0].
      runs_so_far.
      intros [|k] i; [|done]. by intros [= <-]. }
  rewrite (execGit_run _ _ _ _ _ p) by done. simpl spawned.
  match goal with |- context [run_of _ _ _ _ _ _ None ?w1] =>
    pose proof (run_of_default p ["checkout"; committish] (mkGitOpts (Some target) None) w1)
      as Hi1
  end.
  set (i1 := run_of _ _ _ _ _ _ None _) in *. clearbody i1.
  destruct (execFile (spawned w ++ [i0]) i1) as [out1|e1].
  2:{ intros [= <- <-]. exists [i0; i1]. rewrite <- !app_assoc.
      runs_so_far.
      intros [|[|k]] i; [| |done]; by intros [= <-]. }
  rewrite (execGit_run _ _ _ _ _ p) by done. simpl spawned.
  match goal with |- context [run_of _ _ _ _ ?a ?g (Some (optCheck opts)) ?w2] =>
    pose proof (run_of_caller p a g opts w2) as Hi2
  end.
  set (i2 := run_of _ _ _ _ _ _ _ _) in *. clearbody i2.
  destruct (execFile ((spawned w ++ [i0]) ++ [i1]) i2) as [out2|e2].
  2:{ intros [= <- <-]. exists [i0; i1; i2]. rewrite <- !app_assoc.
      runs_so_far.
      intros [|[|[|k]]] i; [| | |done]; by intros [= <-]. }
  rewrite (execGit_run _ _ _ _ _ p) by done. simpl spawned.
  match goal with |- context [run_of _ _ _ _ ?a ?g (Some (optCheck opts)) ?w3] =>
    pose proof (run_of_caller p a g opts w3) as Hi3
  end.
  set (i3 := run_of _ _ _ _ _ _ _ _) in *. clearbody i3.
  intros Hres. exists [i0; i1; i2; i3].
  assert (spawned w' = spawned w ++ [i0; i1; i2; i3]) as Hsp.
  { unfold mret, M_ret in Hres.
    destruct (execFile (((spawned w ++ [i0]) ++ [i1]) ++ [i2]) i3);
      simplify_eq/=; by rewrite <- ?app_assoc. }
  runs_so_far.
  intros [|[|[|[|k]]]] i; [| | | |done]; by intros [= <-].
Qed.

End FullClone.

Lemma fullClone_checkout_without_opts_witness :
  ∃ new i0 i1,
    spawned example_clone.1 = new ∧ length new = 4 ∧
    new !! 0 = Some i0 ∧ uid (inv_opts i0) = Some (Finite 1000) ∧
    new !! 1 = Some i1 ∧ inv_args i1 = ["checkout"; "v1.0.0"] ∧
    uid (inv_opts i1) = None ∧ gid (inv_opts i1) = None.
Proof.
  assert (usable_id (opts_uid (optCheck_spec (V := Primitive) None)) = false ∧
          usable_id (opts_gid (optCheck_spec (V := Primitive) None)) = false)
    as Hdefault by (split; reflexivity).
  assert (∀ opts : option (Options Primitive),
            optCheck_spec (Some (optCheck_spec opts)) = optCheck_spec opts)
    as Hidempotent by (intros opts; reflexivity).
  destruct (fullClone_checkout_without_opts (V := Primitive)
              (Some "/usr/bin/git") "linux" [("HOME", "/root")] "/tmp/git-clone-1"
              (λ _, "/srv") optCheck_spec example_execFile
              Hdefault Hidempotent
              "https://example.org/a.git" "v1.0.0" "/srv/a"
              (Some (mkOptions (PNumber (Finite 1000)) (PNumber (Finite 100))))
              World_init example_clone.1 example_clone.2)
    as (new & Hnew & _ & Hlen & Hruns).
  - apply surjective_pairing.
  - simpl in Hnew. exists new.
    assert (length new = 4) as Hfour by (eapply Hlen; vm_compute; reflexivity).
    destruct new as [|i0 [|i1 new]]; [discriminate Hfour..|].
    exists i0, i1.
    destruct (Hruns 0 i0 eq_refl) as (_ & Hu0 & _).
    destruct (Hruns 1 i1 eq_refl) as (Ha1 & Hu1 & Hg1).
    repeat split; [done | done | exact Hu0 | exact Ha1 | exact Hu1 | exact Hg1].
Defined.

(** ** The cache *)

Section LRUProperties.

Context {A : Type}.
Implicit Types (c : LRU.t A) (e : LRU.entry A) (l : list (LRU.entry A)).

Lemma find_cached_behind n k e c :
  cached_behind n k e c → LRU.find k (LRU.items c) = Some e.
Proof.
  intros (pre & post & -> & _ & Hpre & Hk).
  induction Hpre as [|e' pre He' _ IH]; simpl.
  - by rewrite decide_True.
  - by rewrite decide_False.
Qed.

Lemma find_key k l e : LRU.find k l = Some e → LRU.key e = k.
Proof.
  induction l as [|e' l IH]; [done|]. simpl.
  case_decide; [by intros [= <-] | done].
Qed.

Lemma remove_behind k k' pre e post :
  LRU.key e = k → k' ≠ k →
  LRU.remove k' (pre ++ e :: post) = LRU.remove k' pre ++ e :: LRU.remove k' post.
Proof.
  intros Hk Hne. unfold LRU.remove.
  rewrite filter_app, filter_cons_True; [done|]. congruence.
Qed.

Lemma remove_other_keys k k' pre :
  Forall (λ e', LRU.key e' ≠ k) pre →
  Forall (λ e', LRU.key e' ≠ k) (LRU.remove k' pre) ∧
  length (LRU.remove k' pre) ≤ length pre.
Proof.
  intros Hpre. split; [|apply length_filter].
  apply Forall_forall. intros x [_ Hx]%list_elem_of_filter.
  by eapply Forall_forall in Hpre.
Qed.

Lemma get_cached_behind clock n k k' e c :
  k' ≠ k → cached_behind n k e c →
  cached_behind (S n) k e (LRU.get clock k' c).2 ∧
  LRU.max (LRU.get clock k' c).2 = LRU.max c ∧
  LRU.maxAge (LRU.get clock k' c).2 = LRU.maxAge c.
Proof.
  intros Hne (pre & post & Hitems & Hlen & Hpre & Hk). unfold LRU.get.
  destruct (remove_other_keys k k' pre Hpre) as [Hpre' Hlen'].
  destruct (LRU.find k' (LRU.items c)) as [e'|] eqn:Hfind.
  - apply find_key in Hfind.
    destruct (LRU.isStale c clock e'); simpl; (split; [|done]);
      rewrite Hitems, (remove_behind k) by done.
    + exists (LRU.remove k' pre), (LRU.remove k' post).
      split; [done|]. split; [lia|done].
    + exists (e' :: LRU.remove k' pre), (LRU.remove k' post).
      split; [done|]. split; [simpl; lia|]. split; [|done].
      constructor; [congruence | done].
  - simpl. split; [|done]. exists pre, post. split; [done|]. split; [lia|done].
Qed.

Lemma set_cached_behind clock n k k' e (a : A) c :
  k' ≠ k → S n < LRU.max c → cached_behind n k e c →
  cached_behind (S n) k e (LRU.set clock k' a c) ∧
  LRU.max (LRU.set clock k' a c) = LRU.max c ∧
  LRU.maxAge (LRU.set clock k' a c) = LRU.maxAge c.
Proof.
  intros Hne Hmax (pre & post & Hitems & Hlen & Hpre & Hk). unfold LRU.set. simpl.
  destruct (remove_other_keys k k' pre Hpre) as [Hpre' Hlen'].
  split; [|done]. rewrite Hitems, (remove_behind k) by done.
  set (pre' := LRU.Entry k' a clock :: LRU.remove k' pre).
  assert (length pre' ≤ S n) as Hlen'' by (simpl; lia).
  exists pre', (take (LRU.max c - length pre' - 1) (LRU.remove k' post)).
  split; [|split; [done|split; [by constructor | done]]].
  change (LRU.Entry k' a clock :: LRU.remove k' pre ++ e :: LRU.remove k' post)
    with (pre' ++ e :: LRU.remove k' post).
  rewrite take_app, (take_ge pre') by lia. f_equal.
  destruct (LRU.max c - length pre') as [|m] eqn:Hm; [lia|].
  simpl. by rewrite Nat.sub_0_r.
Qed.

Lemma set_cached_front clock k (a : A) c :
  0 < LRU.max c →
  cached_behind 0 k (LRU.Entry k a clock) (LRU.set clock k a c).
Proof.
  intros Hmax. unfold LRU.set. simpl.
  destruct (LRU.max c) as [|m]; [lia|]. simpl.
  exists [], (take m (LRU.remove k (LRU.items c))). by repeat split.
Qed.

(** A live entry is what [get] returns. *)
Lemma get_live clock k (a : A) c :
  LRU.live clock k a c → (LRU.get clock k c).1 = Some a.
Proof.
  intros (e & Hfind & <- & Hstale). unfold LRU.get. by rewrite Hfind, Hstale.
Qed.

End LRUProperties.

(** ** Cached results *)

Section CacheProperties.

Context {V : Type}.
Variable optCheck : option (Options V) → Options V.

Lemma revs_REVS clock repo opts w :
  REVS (revs optCheck clock repo opts w).1 = (LRU.get clock repo (REVS w)).2 ∧
  spawned (revs optCheck clock repo opts w).1 = spawned w ∧
  GITENV (revs optCheck clock repo opts w).1 = GITENV w.
Proof.
  unfold revs. destruct (LRU.get clock repo (REVS w)) as [[r|] R']; done.
Qed.

(** A call for a repository whose entry is live is answered from the
    cache. *)
Lemma revs_live clock repo opts w r :
  LRU.live clock repo r (REVS w) →
  ∃ w', revs optCheck clock repo opts w = (w', Resolved r) ∧
        spawned w' = spawned w.
Proof.
  intros Hlive%get_live. unfold revs.
  destruct (LRU.get clock repo (REVS w)) as [cached R']. simpl in Hlive. subst.
  by eexists.
Qed.

Lemma cached_behind_mono {A} n m k (e : LRU.entry A) c :
  n ≤ m → cached_behind n k e c → cached_behind m k e c.
Proof.
  intros Hnm (pre & post & ? & ? & ? & ?). exists pre, post.
  split; [done|]. split; [lia|done].
Qed.

Lemma run_event_cached_behind n repo e w ev :
  event_repo ev ≠ repo → S n < LRU.max (REVS w) →
  cached_behind n repo e (REVS w) →
  cached_behind (S n) repo e (REVS (run_event optCheck w ev)) ∧
  LRU.max (REVS (run_event optCheck w ev)) = LRU.max (REVS w) ∧
  LRU.maxAge (REVS (run_event optCheck w ev)) = LRU.maxAge (REVS w).
Proof.
  intros Hne Hmax Hc. destruct ev as [clock k opts|clock k stdout]; simpl in *.
  - destruct (revs_REVS clock k opts w) as (-> & _ & _).
    by apply get_cached_behind.
  - unfold revs_finished. destruct (revs_parse stdout) as [r'|]; simpl.
    + by apply set_cached_behind.
    + split; [|done]. eapply cached_behind_mono; [|done]. lia.
Qed.

Lemma run_events_cached_behind evs n repo e w :
  Forall (λ ev, event_repo ev ≠ repo) evs →
  n + length evs < LRU.max (REVS w) →
  cached_behind n repo e (REVS w) →
  cached_behind (n + length evs) repo e (REVS (foldl (run_event optCheck) w evs)) ∧
  LRU.maxAge (REVS (foldl (run_event optCheck) w evs)) = LRU.maxAge (REVS w).
Proof.
  revert n w. induction evs as [|ev evs IH]; intros n w Hevs Hlen Hc; simpl in *.
  - by rewrite Nat.add_0_r.
  - apply Forall_cons in Hevs as [Hev Hevs].
    destruct (run_event_cached_behind n repo e w ev) as (Hc' & Hmax & Hage);
      [done | lia | done |].
    destruct (IH (S n) (run_event optCheck w ev)) as [Hc'' Hage''];
      [done | rewrite Hmax; lia | done |].
    replace (n + S (length evs)) with (S n + length evs) by lia.
    split; [done | congruence].
Qed.

(** C4.  The cache holds 100 entries for 5 minutes each.  Once a listing
    for [repo] has been parsed and stored at time [t0], and whatever fewer
    than 100 calls and listings for other repositories came in between, a
    call for [repo] at a time [t1] no more than 5 minutes after [t0]
    returns the stored result itself, on line 107, and runs nothing. *)
Theorem revs_cached_again w0 t0 repo stdout r w1 evs t1 opts :
  LRU.max (REVS w0) = 100 →
  LRU.maxAge (REVS w0) = (5 * 60 * 1000)%Z →
  revs_finished t0 repo stdout w0 = (w1, Ok r) →
  Forall (λ ev, event_repo ev ≠ repo) evs →
  length evs < 100 →
  (t1 - t0 ≤ 5 * 60 * 1000)%Z →
  ∃ w3, revs optCheck t1 repo opts (foldl (run_event optCheck) w1 evs) = (w3, Resolved r) ∧
        spawned w3 = spawned (foldl (run_event optCheck) w1 evs).
Proof.
  intros Hmax Hage Hfin Hevs Hlen Ht. unfold revs_finished in Hfin.
  destruct (revs_parse stdout) as [r'|]; [|done]. injection Hfin as <- <-.
  set (w1 := mkWorld _ _ _).
  assert (cached_behind 0 repo (LRU.Entry repo r' t0) (REVS w1)) as Hc.
  { apply set_cached_front. lia. }
  destruct (run_events_cached_behind evs 0 repo (LRU.Entry repo r' t0) w1 Hevs)
    as [Hc' Hage']; [simpl; lia | done |].
  apply revs_live. exists (LRU.Entry repo r' t0).
  split; [by eapply find_cached_behind|]. split; [done|].
  unfold LRU.isStale. rewrite Hage'. simpl. rewrite Hage.
  apply bool_decide_eq_false. lia.
Qed.

End CacheProperties.

Lemma revs_cached_again_witness :
  ∃ w3, revs (optCheck_spec (V := Primitive)) 240000 "https://example.org/a.git" None
          (foldl (run_event optCheck_spec)
             (revs_finished 0 "https://example.org/a.git"
                ("1111" +:+ Js.TAB +:+ "refs/heads/main" +:+ Js.LF) World_init).1
             [Call 1000 "https://example.org/b.git" None;
              Finished 2000 "https://example.org/b.git"
                ("2222" +:+ Js.TAB +:+ "refs/tags/v1.0.0" +:+ Js.LF)])
        = (w3, Resolved (mkRevs [] ∅ {["main" := Doc "1111" "main" Branch]} None
                           {["1111" := ["main"]]})) ∧
        spawned w3 = [].
Proof.
  apply (revs_cached_again optCheck_spec World_init 0 "https://example.org/a.git"
           ("1111" +:+ Js.TAB +:+ "refs/heads/main" +:+ Js.LF)).
  - reflexivity.
  - reflexivity.
  - vm_compute; reflexivity.
  - repeat constructor; vm_compute; discriminate.
  - simpl; lia.
  - lia.
Defined.

(** ** Calls in flight, lines 103-112 *)

Lemma app_inv_head_string t a b : t +:+ a = t +:+ b → a = b.
Proof.
  induction t as [|c t IH]; [by rewrite !app_empty_l|].
  rewrite !app_String. intros [= Ht]. by apply IH.
Qed.

Lemma find_remove {A} k (l : list (LRU.entry A)) : LRU.find k (LRU.remove k l) = None.
Proof.
  unfold LRU.remove. induction l as [|e l IH]; [done|].
  destruct (decide (LRU.key e = k)) as [He|He].
  - by rewrite filter_cons_False by (by intros ?).
  - rewrite filter_cons_True by done. simpl. by rewrite decide_False.
Qed.

Section LRUAbsent.

Context {A : Type}.
Implicit Types c : LRU.t A.

Lemma find_None k (l : list (LRU.entry A)) :
  LRU.find k l = None ↔ Forall (λ e, LRU.key e ≠ k) l.
Proof.
  induction l as [|e l IH]; simpl; [by split|].
  case_decide as He.
  - split; [done|]. by intros [? _]%Forall_cons.
  - rewrite IH. split; [by constructor | by intros [_ ?]%Forall_cons].
Qed.

Lemma remove_keeps_absent k k' (l : list (LRU.entry A)) :
  LRU.find k l = None → LRU.find k (LRU.remove k' l) = None.
Proof.
  rewrite !find_None, !Forall_forall. intros Hl e He.
  apply Hl. unfold LRU.remove in He. by apply list_elem_of_filter in He as [_ ?].
Qed.

Lemma get_absent clock k c :
  LRU.find k (LRU.items c) = None → LRU.get clock k c = (None, c).
Proof. intros Hk. unfold LRU.get. by rewrite Hk. Qed.

Lemma get_miss clock k c :
  (LRU.get clock k c).1 = None →
  LRU.find k (LRU.items (LRU.get clock k c).2) = None.
Proof.
  unfold LRU.get. destruct (LRU.find k (LRU.items c)) as [e|] eqn:Hfind; [|done].
  destruct (LRU.isStale c clock e); [|done]. intros _. simpl. apply find_remove.
Qed.

Lemma get_keeps_absent clock k k' c :
  k' ≠ k → LRU.find k (LRU.items c) = None →
  LRU.find k (LRU.items (LRU.get clock k' c).2) = None.
Proof.
  intros Hne Hk. unfold LRU.get.
  destruct (LRU.find k' (LRU.items c)) as [e|] eqn:Hfind; [|done].
  apply find_key in Hfind.
  destruct (LRU.isStale c clock e); simpl.
  - by apply remove_keeps_absent.
  - rewrite decide_False by congruence. by apply remove_keeps_absent.
Qed.

Lemma set_keeps_absent clock k k' (a : A) c :
  k' ≠ k → LRU.find k (LRU.items c) = None →
  LRU.find k (LRU.items (LRU.set clock k' a c)) = None.
Proof.
  intros Hne Hk. unfold LRU.set. simpl.
  apply (remove_keeps_absent k k') in Hk.
  rewrite find_None in Hk. rewrite find_None.
  apply Forall_take. by constructor.
Qed.

End LRUAbsent.

Lemma listings_of_app repo l1 l2 :
  listings_of repo (l1 ++ l2) = listings_of repo l1 ++ listings_of repo l2.
Proof. apply filter_app. Qed.

Lemma listings_of_query_same repo query :
  (∀ i, query = Ok i → inv_args i = ["ls-remote"; "-h"; "-t"; repo]) →
  listings_of repo (query_runs query) = query_runs query.
Proof.
  intros Hq. destruct query as [i|e]; [|done]. unfold listings_of. simpl.
  by rewrite filter_cons_True by by apply Hq.
Qed.

Lemma listings_of_query_other repo query repo' :
  repo' ≠ repo →
  (∀ i, query = Ok i → inv_args i = ["ls-remote"; "-h"; "-t"; repo']) →
  listings_of repo (query_runs query) = [].
Proof.
  intros Hne Hq. destruct query as [i|e]; [|done]. unfold listings_of. simpl.
  rewrite filter_cons_False; [done|]. rewrite (Hq i eq_refl). by intros [= ->].
Qed.

Lemma revs_finished_result clock repo stdout w :
  (revs_finished clock repo stdout w).2 = revs_parse stdout.
Proof. unfold revs_finished. by destruct (revs_parse stdout). Qed.

Lemma revs_finished_keeps_absent clock repo repo' stdout w :
  repo' ≠ repo →
  LRU.find repo (LRU.items (REVS w)) = None →
  LRU.find repo (LRU.items (REVS (revs_finished clock repo' stdout w).1)) = None ∧
  spawned (revs_finished clock repo' stdout w).1 = spawned w.
Proof.
  intros Hne Hk. unfold revs_finished. destruct (revs_parse stdout); simpl; [|done].
  split; [by apply set_keeps_absent | done].
Qed.

Section Deduplication.

Context {V : Type} `{JsValue V}.
Variable GITPATH : option string.
Variable process_env : list (string * string).
Variable tmpName : string.
Variable optCheck : option (Options V) → Options V.
Variable cp_spawn : list Invocation → Invocation → option Error.

Lemma ls_remote_query_args repo opts w i :
  ls_remote_query GITPATH process_env tmpName optCheck cp_spawn repo opts w = Ok i →
  inv_args i = ["ls-remote"; "-h"; "-t"; repo].
Proof.
  unfold ls_remote_query. destruct GITPATH; [|done].
  destruct (cp_spawn _ _); [done|]. by intros [= <-].
Qed.


Lemma run_session_asked turns s :
  (run_session GITPATH process_env tmpName optCheck cp_spawn turns s).2.*1 = asked turns.
Proof.
  revert s. induction turns as [|[clock repo opts|clock repo outcome] turns IH];
    intros s; simpl; [done| |apply IH].
  destruct (revs_promise _ _ _ _ _ _ _ _ _) as [s1 a].
  specialize (IH s1). destruct (run_session _ _ _ _ _ _ _) as [s2 answers].
  simpl in *. f_equal. exact IH.
Qed.

(** A call for a repository whose query is in flight attaches to it. *)
Lemma revs_promise_attached clock repo opts s h :
  in_flight repo h s →
  revs_promise GITPATH process_env tmpName optCheck cp_spawn clock repo opts s
    = (s, Pending h).
Proof.
  intros [Hreg Hcache]. destruct s as [[e R S] reg st]. simpl in *.
  unfold revs_promise, revs. simpl. rewrite (get_absent _ _ _ Hcache). simpl.
  unfold pinflight. simpl. by rewrite Hreg.
Qed.

(** The first call for a repository starts the query. *)
Lemma revs_promise_first clock repo opts s :
  Inflight.find ("ls-remote:" +:+ repo) (registry s) = None →
  (LRU.get clock repo (REVS (world s))).1 = None →
  let query := ls_remote_query GITPATH process_env tmpName optCheck cp_spawn
                 repo (Some (optCheck opts)) (world s) in
  let h := Inflight.Handle (Inflight.issued (registry s)) query in
  let result := revs_promise GITPATH process_env tmpName optCheck cp_spawn
                  clock repo opts s in
  result.2 = Pending h ∧ in_flight repo h result.1 ∧
  spawned (world result.1) = spawned (world s) ++ query_runs query.
Proof.
  intros Hreg Hmiss. pose proof (get_miss _ _ _ Hmiss) as Hcache.
  destruct s as [[e R S] reg st]. simpl in *.
  unfold revs_promise, revs. simpl.
  destruct (LRU.get clock repo R) as [[r|] R']; [done|]. simpl in *.
  unfold pinflight. simpl. rewrite Hreg, ls_remote_eq. simpl.
  split; [done|]. split; [|done].
  split; simpl; [apply lookup_insert_eq | done].
Qed.

(** Calls and settlements for other repositories leave the query in
    flight, and list nothing of [repo]. *)
Lemma revs_promise_other clock repo repo' opts s h :
  repo' ≠ repo → in_flight repo h s →
  let result := revs_promise GITPATH process_env tmpName optCheck cp_spawn
                  clock repo' opts s in
  in_flight repo h result.1 ∧
  ∃ new, spawned (world result.1) = spawned (world s) ++ new ∧
         listings_of repo new = [].
Proof.
  intros Hne [Hreg Hcache].
  pose proof (get_keeps_absent clock repo repo' _ Hne Hcache) as Hcache'.
  destruct s as [[e R S] reg st]. simpl in *.
  unfold revs_promise, revs. simpl.
  destruct (LRU.get clock repo' R) as [[r|] R']; simpl in *.
  - split; [done|]. exists []. by rewrite app_nil_r.
  - unfold pinflight. simpl.
    destruct (Inflight.find ("ls-remote:" +:+ repo') reg) as [h'|] eqn:Hreg'; simpl.
    + split; [done|]. exists []. by rewrite app_nil_r.
    + rewrite ls_remote_eq. simpl. split.
      * split; simpl; [|done]. unfold Inflight.find in *. simpl.
        rewrite lookup_insert_ne; [done|]. by intros ?%app_inv_head_string.
      * eexists. split; [done|].
        eapply listings_of_query_other; [done|]. apply ls_remote_query_args.
Qed.

Lemma revs_settle_other clock repo repo' outcome s h :
  repo' ≠ repo → in_flight repo h s →
  in_flight repo h (revs_settle clock repo' outcome s) ∧
  spawned (world (revs_settle clock repo' outcome s)) = spawned (world s).
Proof.
  intros Hne [Hreg Hcache]. unfold revs_settle.
  destruct (Inflight.find ("ls-remote:" +:+ repo') (registry s)) as [h'|]; [|done].
  assert (Inflight.find ("ls-remote:" +:+ repo)
            (Inflight.settle ("ls-remote:" +:+ repo') (registry s)) = Some h) as Hreg'.
  { unfold Inflight.find, Inflight.settle in *. simpl.
    rewrite lookup_delete_ne; [done|]. by intros ?%app_inv_head_string. }
  destruct (Inflight.query h') as [child|e]; [destruct outcome as [stdout|e]|]; try done.
  destruct (revs_finished_keeps_absent clock repo repo' stdout (world s) Hne Hcache)
    as [Hcache' Hspawned].
  by destruct (revs_finished clock repo' stdout (world s)).
Qed.

(** As long as the query does not settle, every caller for [repo] gets its
    handle and no other listing of [repo] is run. *)
Lemma run_session_attached turns repo s h :
  in_flight repo h s → Forall (keeps_in_flight repo) turns →
  let result := run_session GITPATH process_env tmpName optCheck cp_spawn turns s in
  in_flight repo h result.1 ∧
  (∀ a, (repo, a) ∈ result.2 → a = Pending h) ∧
  ∃ new, spawned (world result.1) = spawned (world s) ++ new ∧
         listings_of repo new = [].
Proof.
  revert s. induction turns as [|[clock repo' opts|clock repo' outcome] turns IH];
    intros s Hs Hturns; simpl.
  - split; [done|]. split; [by intros a ?%elem_of_nil|].
    exists []. by rewrite app_nil_r.
  - apply Forall_cons in Hturns as [_ Hturns].
    destruct (decide (repo' = repo)) as [->|Hne].
    + rewrite (revs_promise_attached _ _ _ _ _ Hs).
      specialize (IH s Hs Hturns). simpl in IH.
      destruct (run_session _ _ _ _ _ _ _) as [s2 answers]. simpl in *.
      destruct IH as (Hs2 & Hanswers & Hnew). split; [done|]. split; [|done].
      intros a [[= <-]|Ha]%elem_of_cons; [done | by apply Hanswers].
    + destruct (revs_promise_other clock repo repo' opts s h Hne Hs)
        as (Hs1 & new1 & Hnew1 & Hl1).
      destruct (revs_promise _ _ _ _ _ _ _ _ _) as [s1 a1]. simpl in *.
      specialize (IH s1 Hs1 Hturns). simpl in IH.
      destruct (run_session _ _ _ _ _ _ _) as [s2 answers]. simpl in *.
      destruct IH as (Hs2 & Hanswers & new2 & Hnew2 & Hl2). split; [done|]. split.
      * intros a [[= ? _]|Ha]%elem_of_cons; [done | by apply Hanswers].
      * exists (new1 ++ new2). rewrite Hnew2, Hnew1, app_assoc. split; [done|].
        by rewrite listings_of_app, Hl1, Hl2.
  - apply Forall_cons in Hturns as [Hne Hturns]. simpl in Hne.
    destruct (revs_settle_other clock repo repo' outcome s h Hne Hs) as [Hs1 Hsp].
    specialize (IH _ Hs1 Hturns). simpl in IH. by rewrite Hsp in IH.
Qed.

(** C3, as amended.  Calls of [revs] for one repository, the first when
    nothing is cached nor in flight for it, the others before its query
    settles, with calls and settlements for other repositories in between:
    every call is answered, and all callers hold the one pending promise of
    the query that the first call started; the listing of the repository is
    run once if the binary was found and [spawn] gave a child, and not at
    all otherwise; and when the query settles, its entry leaves the
    registry and every caller finds the same outcome, the parsed listing or
    the same failure. *)
Theorem revs_deduplicated s0 t0 opts0 repo turns :
  Inflight.find ("ls-remote:" +:+ repo) (registry s0) = None →
  (LRU.get t0 repo (REVS (world s0))).1 = None →
  Forall (keeps_in_flight repo) turns →
  let result := run_session GITPATH process_env tmpName optCheck cp_spawn
                  (Asks t0 repo opts0 :: turns) s0 in
  let query := ls_remote_query GITPATH process_env tmpName optCheck cp_spawn
                 repo (Some (optCheck opts0)) (world s0) in
  ∃ h new,
    result.2.*1 = repo :: asked turns ∧
    (∀ a, (repo, a) ∈ result.2 → a = Pending h) ∧
    Inflight.query h = query ∧
    Inflight.find ("ls-remote:" +:+ repo) (registry result.1) = Some h ∧
    spawned (world result.1) = spawned (world s0) ++ new ∧
    listings_of repo new = query_runs query ∧
    ∀ clock outcome,
      let s2 := revs_settle clock repo outcome result.1 in
      Inflight.find ("ls-remote:" +:+ repo) (registry s2) = None ∧
      ∀ a, (repo, a) ∈ result.2 → observed a s2 = Some (settlement query outcome).
Proof.
  intros Hreg Hmiss Hturns result query.
  pose proof (run_session_asked (Asks t0 repo opts0 :: turns) s0) as Hasked.
  fold result in Hasked.
  destruct (revs_promise_first t0 repo opts0 s0 Hreg Hmiss) as (Hanswer & Hs1 & Hsp1).
  fold query in Hanswer, Hs1, Hsp1.
  set (h := Inflight.Handle (Inflight.issued (registry s0)) query) in *.
  unfold result in *. simpl in *.
  destruct (revs_promise _ _ _ _ _ _ _ _ _) as [s1 a1]. simpl in *. subst a1.
  destruct (run_session_attached turns repo s1 h Hs1 Hturns)
    as ([Hreg2 Hcache2] & Hanswers & new2 & Hsp2 & Hl2).
  destruct (run_session _ _ _ _ _ _ _) as [s2 answers]. simpl in *.
  assert (∀ a, (repo, a) ∈ (repo, Pending h) :: answers → a = Pending h) as Hall.
  { intros a [[= <-]|Ha]%elem_of_cons; [done | by apply Hanswers]. }
  exists h, (query_runs query ++ new2).
  split; [done|]. split; [done|]. split; [done|]. split; [done|].
  split; [by rewrite Hsp2, Hsp1, app_assoc|].
  split.
  { rewrite listings_of_app, Hl2, app_nil_r.
    apply listings_of_query_same. apply ls_remote_query_args. }
  intros clock outcome. unfold revs_settle. rewrite Hreg2.
  assert (∀ w res st,
    observed (Pending h)
      (mkSession w (Inflight.settle ("ls-remote:" +:+ repo) (registry s2))
         (<[Inflight.id h := res]> st)) = Some res) as Hobs.
  { intros w res st. simpl. apply lookup_insert_eq. }
  assert (∀ w st,
    Inflight.find ("ls-remote:" +:+ repo)
      (registry (mkSession w (Inflight.settle ("ls-remote:" +:+ repo) (registry s2)) st))
      = None) as Hgone.
  { intros w st. unfold Inflight.find. simpl. apply lookup_delete_eq. }
  unfold settlement. change (Inflight.query h) with query.
  destruct query as [child|e]; [destruct outcome as [stdout|e]|].
  - pose proof (revs_finished_result clock repo stdout (world s2)) as Hres.
    destruct (revs_finished clock repo stdout (world s2)) as [w res]. simpl in Hres.
    subst res. split; [apply Hgone|]. intros a ->%Hall. apply Hobs.
  - split; [apply Hgone|]. intros a ->%Hall. apply Hobs.
  - split; [apply Hgone|]. intros a ->%Hall. apply Hobs.
Qed.

End Deduplication.

Lemma revs_deduplicated_witness :
  ∃ h child,
    example_session.2.*1 =
      ["https://example.org/a.git"; "https://example.org/b.git";
       "https://example.org/a.git"; "https://example.org/a.git"] ∧
    (∀ a, ("https://example.org/a.git", a) ∈ example_session.2 → a = Pending h) ∧
    Inflight.query h = Ok child ∧
    listings_of "https://example.org/a.git" (spawned (world example_session.1)) = [child] ∧
    uid (inv_opts child) = Some (Finite 1000).
Proof.
  destruct (revs_deduplicated (V := Primitive)
              (Some "/usr/bin/git") [("HOME", "/root")] "/tmp/git-clone-1"
              optCheck_spec (λ _ _, None)
              Session_init 0 example_opts "https://example.org/a.git"
              [Asks 1 "https://example.org/b.git" None;
               Asks 2 "https://example.org/a.git" None;
               Settles 3 "https://example.org/b.git"
                 (Ok ("2222" +:+ Js.TAB +:+ "refs/tags/v1.0.0" +:+ Js.LF));
               Asks 4 "https://example.org/a.git" None])
    as (h & new & Hasked & Hall & Hquery & _ & Hspawned & Hlistings & _).
  - reflexivity.
  - reflexivity.
  - repeat constructor. simpl. discriminate.
  - exists h. eexists. split; [exact Hasked|]. split; [exact Hall|].
    split; [exact Hquery|]. split; [|reflexivity].
    unfold example_session. rewrite Hspawned. exact Hlistings.
Defined.

(** C3, as stated, fails on a host without git: two calls for a repository
    that is not cached hold the pending promise of one query, no process is
    spawned for them, and both find ENOGIT when the query settles. *)
Lemma revs_deduplicated_counterexample :
  ∃ h,
    example_session_no_git.2 =
      [("https://example.org/a.git", Pending h);
       ("https://example.org/a.git", Pending h)] ∧
    Inflight.query h = Rejected ENOGIT ∧
    spawned (world example_session_no_git.1) = [] ∧
    ∀ clock outcome,
      observed (Pending h)
        (revs_settle clock "https://example.org/a.git" outcome example_session_no_git.1)
        = Some (Rejected ENOGIT).
Proof.
  eexists. split; [vm_compute; reflexivity|].
  split; [reflexivity|]. split; [vm_compute; reflexivity|].
  intros clock outcome.
  assert (Inflight.find ("ls-remote:" +:+ "https://example.org/a.git")
            (registry example_session_no_git.1)
          = Some (Inflight.Handle 0 (Rejected ENOGIT))) as Hreg
    by (vm_compute; reflexivity).
  unfold revs_settle. rewrite Hreg. simpl. apply lookup_insert_eq.
Qed.

(** * Further properties *)

(** ** The environment, lines 30-44 *)

Lemma gitEnv_fresh process_env tmpName w :
  GITENV w = None →
  gitEnv process_env tmpName w =
    (mkWorld (Some (gitEnv_build tmpName process_env)) (REVS w) (spawned w),
     Ok (gitEnv_build tmpName process_env)).
Proof. intros Hw. unfold gitEnv. by rewrite Hw. Qed.

(** X1.  The environment is built once: a second call of [gitEnv] returns
    the map of the first call and leaves the state alone, whatever the
    variables of the process and the temporary name have become. *)
Theorem gitEnv_memoized process_env tmpName process_env' tmpName' w :
  ∃ w1 e, gitEnv process_env tmpName w = (w1, Ok e) ∧
          GITENV w1 = Some e ∧
          gitEnv process_env' tmpName' w1 = (w1, Ok e).
Proof.
  unfold gitEnv. destruct (GITENV w) as [e|] eqn:Hw.
  - exists w, e. by rewrite Hw.
  - by eexists _, _.
Qed.

Lemma env_allowed_test k :
  bool_decide (k ∈ GOOD_ENV_VARS) || negb (Js.startsWith k GIT_) = true ↔ env_allowed k.
Proof.
  unfold env_allowed. rewrite orb_true_iff, bool_decide_eq_true, negb_true_iff. done.
Qed.

Lemma gitEnv_step_lookup process_env G k k' :
  gitEnv_step process_env G k !! k' =
    if decide (k = k' ∧ env_allowed k ∧ k ≠ "__proto__" ∧ is_Some (assoc_get k process_env))
    then assoc_get k process_env
    else G !! k'.
Proof.
  unfold gitEnv_step.
  destruct (bool_decide _ || negb _) eqn:Htest.
  - apply env_allowed_test in Htest.
    destruct (assoc_get k process_env) as [v|] eqn:Hv.
    + destruct (decide (k = "__proto__")) as [Hp|Hp].
      * rewrite decide_False; [done|]. by intros (_ & _ & ? & _).
      * destruct (decide (k = k')) as [<-|Hne].
        -- rewrite lookup_insert_eq, decide_True; [done|]. by repeat split; eauto.
        -- rewrite lookup_insert_ne, decide_False; [done| |done]. by intros [? _].
    + rewrite decide_False; [done|]. by intros (_ & _ & _ & [? ?]).
  - rewrite decide_False; [done|]. intros (_ & Ha & _).
    apply env_allowed_test in Ha. congruence.
Qed.

Lemma gitEnv_fold_lookup process_env ks G k v :
  foldl (gitEnv_step process_env) G ks !! k = Some v →
  G !! k = Some v ∨
  (assoc_get k process_env = Some v ∧ env_allowed k ∧ k ≠ "__proto__").
Proof.
  revert G. induction ks as [|k0 ks IH]; intros G; simpl; [by left|].
  intros [Hstep|?]%IH; [|by right].
  rewrite gitEnv_step_lookup in Hstep. case_decide as Hk; [|by left].
  destruct Hk as (<- & ? & ? & _). by right.
Qed.

Lemma gitEnv_fold_forward process_env ks G k v :
  assoc_get k process_env = Some v → env_allowed k → k ≠ "__proto__" →
  k ∈ ks →
  foldl (gitEnv_step process_env) G ks !! k = Some v.
Proof.
  intros Hv Ha Hp. revert G. induction ks as [|k0 ks IH]; intros G; [by intros ?%elem_of_nil|].
  intros Hk. simpl. destruct (decide (k ∈ ks)) as [Hin|Hout]; [by apply IH|].
  apply elem_of_cons in Hk as [<-|Hk]; [|done].
  rewrite gitEnv_fold_absent by done.
  rewrite gitEnv_step_lookup, decide_True; [done|]. by repeat split; eauto.
Qed.

Lemma template_dir_not_allowed : ¬ env_allowed "GIT_TEMPLATE_DIR".
Proof.
  intros [Hgood|Hstarts]; [|done]. revert Hgood.
  apply (bool_decide_unpack _). vm_compute. exact I.
Qed.

(** X2.  The template directory is the fresh temporary name, whatever the
    process has in GIT_TEMPLATE_DIR. *)
Theorem gitEnv_template_dir process_env tmpName w :
  GITENV w = None →
  ∃ w' e, gitEnv process_env tmpName w = (w', Ok e) ∧
          e !! "GIT_TEMPLATE_DIR" = Some tmpName.
Proof.
  intros Hw. rewrite gitEnv_fresh by done. eexists _, _. split; [done|].
  unfold gitEnv_build.
  destruct (foldl _ _ _ !! "GIT_TEMPLATE_DIR") as [v|] eqn:Hv.
  - apply gitEnv_fold_lookup in Hv as [Hinit|(_ & Ha & _)].
    + by rewrite lookup_insert_eq in Hinit.
    + by apply template_dir_not_allowed in Ha.
  - assert (∀ ks G, is_Some (G !! "GIT_TEMPLATE_DIR") →
                    is_Some (foldl (gitEnv_step process_env) G ks !! "GIT_TEMPLATE_DIR")) as Hkeep.
    { induction ks as [|k ks IH]; intros G HG; [done|]. simpl. apply IH.
      rewrite gitEnv_step_lookup. case_decide as Hk; [|done]. by destruct Hk as (_ & _ & _ & ?). }
    destruct (Hkeep (Object_keys process_env)
                (<["GIT_TEMPLATE_DIR" := tmpName]> (<["GIT_ASKPASS" := "echo"]> ∅))) as [v' Hv'].
    { rewrite lookup_insert_eq. by eexists. }
    congruence.
Qed.

Lemma gitEnv_template_dir_witness :
  ∃ w' e, gitEnv [("GIT_TEMPLATE_DIR", "/usr/share/git-core/templates")] "/tmp/git-clone-1"
            World_init = (w', Ok e) ∧
          e !! "GIT_TEMPLATE_DIR" = Some "/tmp/git-clone-1".
Proof.
  apply (gitEnv_template_dir [("GIT_TEMPLATE_DIR", "/usr/share/git-core/templates")]
           "/tmp/git-clone-1" World_init).
  reflexivity.
Defined.

(** X3.  Nothing else gets into the environment: an entry is the template
    directory, the "echo" of the credential prompt, or a variable of the
    process, with its value, that passes the test of line 39.  A variable
    of the process that starts with "GIT_" and is not on the allow-list is
    never handed to git. *)
Theorem gitEnv_only_allowed process_env tmpName w k v :
  GITENV w = None →
  (gitEnv process_env tmpName w).2 = Ok (gitEnv_build tmpName process_env) ∧
  (gitEnv_build tmpName process_env !! k = Some v →
     (k = "GIT_TEMPLATE_DIR" ∧ v = tmpName) ∨
     (k = "GIT_ASKPASS" ∧ v = "echo") ∨
     (assoc_get k process_env = Some v ∧ env_allowed k ∧ k ≠ "__proto__")) ∧
  (Js.startsWith k GIT_ = true → k ∉ GOOD_ENV_VARS → k ≠ "GIT_TEMPLATE_DIR" →
     gitEnv_build tmpName process_env !! k = None).
Proof.
  intros Hw. split; [by rewrite gitEnv_fresh|].
  assert (∀ v, gitEnv_build tmpName process_env !! k = Some v →
     (k = "GIT_TEMPLATE_DIR" ∧ v = tmpName) ∨
     (k = "GIT_ASKPASS" ∧ v = "echo") ∨
     (assoc_get k process_env = Some v ∧ env_allowed k ∧ k ≠ "__proto__")) as Hentry.
  { intros v0 [Hinit|?]%gitEnv_fold_lookup; [|by right; right].
    destruct (decide (k = "GIT_TEMPLATE_DIR")) as [->|Ht].
    - rewrite lookup_insert_eq in Hinit. left. split; congruence.
    - rewrite lookup_insert_ne in Hinit by done.
      destruct (decide (k = "GIT_ASKPASS")) as [->|Ha].
      + rewrite lookup_insert_eq in Hinit. right; left. split; congruence.
      + by rewrite lookup_insert_ne, lookup_empty in Hinit. }
  split; [apply Hentry|].
  intros Hstarts Hgood Ht.
  destruct (gitEnv_build tmpName process_env !! k) as [v0|] eqn:Hk; [|done].
  destruct (Hentry v0 eq_refl) as [[? _]|[[-> _]|(_ & [?|?] & _)]]; try done.
  - destruct Hgood. apply (bool_decide_unpack _). vm_compute. exact I.
  - congruence.
Qed.

Lemma gitEnv_only_allowed_witness :
  (gitEnv [("GIT_DIR", "/elsewhere"); ("HOME", "/root")] "/tmp/git-clone-1" World_init).2
    = Ok (gitEnv_build "/tmp/git-clone-1" [("GIT_DIR", "/elsewhere"); ("HOME", "/root")]) ∧
  gitEnv_build "/tmp/git-clone-1" [("GIT_DIR", "/elsewhere"); ("HOME", "/root")] !! "GIT_DIR" = None.
Proof.
  destruct (gitEnv_only_allowed [("GIT_DIR", "/elsewhere"); ("HOME", "/root")]
              "/tmp/git-clone-1" World_init "GIT_DIR" "/elsewhere" eq_refl)
    as (Hrun & _ & Hdrop).
  split; [exact Hrun|]. apply Hdrop.
  - reflexivity.
  - apply (bool_decide_unpack _); vm_compute; exact I.
  - discriminate.
Defined.

(** X4.  A variable of the process that passes the test of line 39 is
    handed to git with the value it has in the process. *)
Theorem gitEnv_forwards process_env tmpName w k v :
  GITENV w = None →
  assoc_get k process_env = Some v →
  env_allowed k → k ≠ "__proto__" →
  ∃ w' e, gitEnv process_env tmpName w = (w', Ok e) ∧ e !! k = Some v.
Proof.
  intros Hw Hv Ha Hp. rewrite gitEnv_fresh by done. eexists _, _. split; [done|].
  apply gitEnv_fold_forward; try done.
  apply dec_stable. intros Hk%assoc_get_None. congruence.
Qed.

Lemma gitEnv_forwards_witness :
  ∃ w' e, gitEnv [("GIT_SSH", "/usr/bin/ssh"); ("HOME", "/root")] "/tmp/git-clone-1"
            World_init = (w', Ok e) ∧
          e !! "GIT_SSH" = Some "/usr/bin/ssh".
Proof.
  apply (gitEnv_forwards [("GIT_SSH", "/usr/bin/ssh"); ("HOME", "/root")]
           "/tmp/git-clone-1" World_init "GIT_SSH" "/usr/bin/ssh").
  - reflexivity.
  - reflexivity.
  - left. apply (bool_decide_unpack _); vm_compute; exact I.
  - discriminate.
Defined.

(** ** Names and versions, lines 125 and 140 *)

Lemma after_prefix_app t r : Js.after_prefix t (t +:+ r) = Some r.
Proof.
  induction t as [|c t IH]; [by destruct r|].
  rewrite app_String. simpl. by rewrite decide_True.
Qed.

(** X5.  The bare name of "refs/<namespace>/<name>" is <name>: one
    namespace is stripped, whatever it is called, and whatever slashes the
    name has. *)
Theorem bare_name_strips_namespace ns name :
  ns ≠ "" →
  all_chars (λ c, negb (Js.is_slash c)) ns = true →
  all_chars (λ c, negb (Js.is_line_terminator c)) name = true →
  bare_name ("refs/" +:+ ns +:+ "/" +:+ name) = name.
Proof.
  intros Hne Hns Hname. unfold bare_name. rewrite after_prefix_app.
  change ("/" +:+ name) with (String "/"%char name).
  rewrite take_while_app, drop_while_app by done.
  destruct ns; [done|]. by apply take_while_id.
Qed.

Lemma bare_name_strips_namespace_witness :
  bare_name ("refs/" +:+ "pull" +:+ "/" +:+ "12/head") = "12/head".
Proof. apply bare_name_strips_namespace; [discriminate | reflexivity | reflexivity]. Defined.

(** X6.  A tag that is MAJOR.MINOR.PATCH, with or without a "v" in front,
    gives that MAJOR.MINOR.PATCH as its version. *)
Theorem version_match_semver c :
  is_major_minor_patch c →
  version_match c = Some c ∧ version_match ("v" +:+ c) = Some c.
Proof.
  intros Hc. pose proof Hc as (x & r & -> & Hx)%is_major_minor_patch_head.
  apply major_minor_patch_end_spec in Hc.
  split.
  - cbn [version_match]. unfold version_here. rewrite Hc.
    case_decide as Hv; [|done]. by subst x.
  - change ("v" +:+ String x r) with (String "v"%char (String x r)).
    cbn [version_match]. unfold version_here. by rewrite decide_True, Hc.
Qed.

Lemma version_match_semver_witness :
  version_match "10.0.27" = Some "10.0.27" ∧ version_match ("v" +:+ "10.0.27") = Some "10.0.27".
Proof.
  apply version_match_semver. apply major_minor_patch_end_spec. reflexivity.
Defined.






(** ** The result of a listing, lines 121-159 *)

Lemma line_doc_Some line d :
  line_doc line = Some d →
  ∃ s path, Js.split_ws line 2 = [s; path] ∧
    d = Doc s (bare_name path) (refType line) ∧
    bare_name path ≠ "" ∧
    Js.endsWith (bare_name path) CARET_BRACES = false.
Proof.
  intros Hd. pose proof (split_ws_length line 2) as Hlen.
  destruct (Js.split_ws line 2) as [|s [|path [|? ?]]] eqn:Hl.
  - unfold line_doc in Hd. by rewrite Hl in Hd.
  - unfold line_doc in Hd. by rewrite Hl in Hd.
  - rewrite (line_doc_fields _ _ _ Hl) in Hd.
    case_decide as Hname; [done|].
    destruct (Js.endsWith (bare_name path) CARET_BRACES) eqn:Hend; [done|].
    injection Hd as <-. by exists s, path.
  - simpl in Hlen. lia.
Qed.

Lemma index_version_refs_shas d r :
  refs (index_version d r) = refs r ∧ shas (index_version d r) = shas r.
Proof.
  unfold index_version. destruct (type d); try done.
  by destruct (version_match (ref d)).
Qed.

Lemma add_doc_refs_shas d r :
  sha d ∉ Object_prototype → ref d ≠ "__proto__" →
  ∃ r', add_doc d r = Ok r' ∧
    refs r' = <[ref d := d]> (refs r) ∧
    shas r' = <[sha d := default [] (shas r !! sha d) ++ [ref d]]> (shas r).
Proof.
  intros Hs Hp. unfold add_doc, index_sha.
  rewrite get_property_not_inherited by done.
  unfold set_ref. rewrite decide_False by done. simpl.
  destruct (shas r !! sha d) as [names|]; simpl; eexists;
    (split; [reflexivity|]);
    match goal with |- context [index_version d ?r0] =>
      destruct (index_version_refs_shas d r0) as [-> ->] end; done.
Qed.

(** X8.  A line that yields a reference stores it in [refs] under its bare
    name and appends the name to the list of its sha in [shas]; the other
    entries of [refs] and [shas] stay as they are. *)
Theorem revs_line_adds revs line s path :
  Js.split_ws line 2 = [s; path] →
  bare_name path ≠ "" →
  Js.endsWith (bare_name path) CARET_BRACES = false →
  bare_name path ≠ "__proto__" →
  s ∉ Object_prototype →
  ∃ revs', revs_line revs line = Ok revs' ∧
    refs revs' !! bare_name path = Some (Doc s (bare_name path) (refType line)) ∧
    shas revs' !! s = Some (default [] (shas revs !! s) ++ [bare_name path]) ∧
    (∀ name, name ≠ bare_name path → refs revs' !! name = refs revs !! name) ∧
    (∀ s', s' ≠ s → shas revs' !! s' = shas revs !! s').
Proof.
  intros Hl Hname Hcaret Hproto Hs.
  rewrite revs_line_line_doc, (line_doc_fields _ _ _ Hl).
  rewrite decide_False, Hcaret by done.
  destruct (add_doc_refs_shas (Doc s (bare_name path) (refType line)) revs)
    as (revs' & -> & Hrefs & Hshas); [done..|].
  exists revs'. split; [done|]. rewrite Hrefs, Hshas. simpl.
  split; [apply lookup_insert_eq|]. split; [apply lookup_insert_eq|].
  split; [intros name Hn | intros s' Hn]; by apply lookup_insert_ne.
Qed.

Lemma revs_line_adds_witness :
  ∃ revs', revs_line revs_init ("1111" +:+ Js.TAB +:+ "refs/heads/main") = Ok revs' ∧
    refs revs' !! "main" = Some (Doc "1111" "main" Branch) ∧
    shas revs' !! "1111" = Some ["main"] ∧
    (∀ name, name ≠ "main" → refs revs' !! name = None) ∧
    (∀ s', s' ≠ "1111" → shas revs' !! s' = None).
Proof.
  apply (revs_line_adds revs_init ("1111" +:+ Js.TAB +:+ "refs/heads/main")
           "1111" "refs/heads/main").
  - vm_compute; reflexivity.
  - vm_compute; discriminate.
  - vm_compute; reflexivity.
  - vm_compute; discriminate.
  - apply (bool_decide_unpack _); vm_compute; exact I.
Defined.

Lemma add_doc_outcome d r :
  (∀ s, is_Some (shas r !! s) → s ∉ Object_prototype) →
  match add_doc d r with
  | Ok r' => (sha d ∉ Object_prototype) ∧
             (∀ s, is_Some (shas r' !! s) → s ∉ Object_prototype)
  | Rejected e => e = TypeError ∧ (sha d ∈ Object_prototype)
  end.
Proof.
  intros Hinv. unfold add_doc, index_sha, get_property.
  assert (shas (set_ref (ref d) d r) = shas r) as ->.
  { unfold set_ref. by case_decide. }
  assert (∀ r0, shas (index_version d r0) = shas r0) as Hiv.
  { intros r0. unfold index_version. destruct (type d); try done.
    by destruct (version_match (ref d)). }
  assert (∀ names r0, shas r0 = shas r → sha d ∉ Object_prototype →
    ∀ s, is_Some (shas (index_version d (set_sha (sha d) names r0)) !! s) →
         s ∉ Object_prototype) as Hkeep.
  { intros names r0 Hr0 Hd s. rewrite Hiv. simpl. rewrite Hr0.
    destruct (decide (sha d = s)) as [<-|Hne]; [done|].
    rewrite lookup_insert_ne by done. apply Hinv. }
  destruct (shas r !! sha d) as [names|] eqn:Hnames; simpl.
  - assert (sha d ∉ Object_prototype) as Hd by (apply Hinv; by rewrite Hnames).
    split; [done|]. apply Hkeep; [|done]. unfold set_ref. by case_decide.
  - case_decide as Hd; simpl; [done|].
    split; [done|]. apply Hkeep; [|done]. unfold set_ref. by case_decide.
Qed.

Lemma reduce_add_doc_outcome docs r :
  (∀ s, is_Some (shas r !! s) → s ∉ Object_prototype) →
  match reduce (λ r d, add_doc d r) docs r with
  | Ok r' => Forall (λ d, sha d ∉ Object_prototype) docs
  | Rejected e => e = TypeError ∧ Exists (λ d, sha d ∈ Object_prototype) docs
  end.
Proof.
  revert r. induction docs as [|d docs IH]; intros r Hinv; simpl; [done|].
  pose proof (add_doc_outcome d r Hinv) as Hd.
  destruct (add_doc d r) as [r1|e]; simpl.
  - destruct Hd as [Hd Hinv1]. specialize (IH r1 Hinv1).
    destruct (reduce _ docs r1); [by constructor|].
    destruct IH as [-> ?]. split; [done | by apply Exists_cons_tl].
  - destruct Hd as [-> Hd]. split; [done | by apply Exists_cons_hd].
Qed.

(** What the outcome of parsing says of the shas of a listing. *)
Lemma revs_parse_Ok_shas stdout r :
  revs_parse stdout = Ok r →
  Forall (λ d, sha d ∉ Object_prototype) (listing_docs stdout).
Proof.
  unfold revs_parse. rewrite revs_of_lines_reduce, reduce_line_docs.
  intros Hparse.
  pose proof (reduce_add_doc_outcome (listing_docs stdout) revs_init) as Hout.
  unfold listing_docs in Hout. rewrite Hparse in Hout. apply Hout.
  intros s. simpl. rewrite lookup_empty. by intros [? ?].
Qed.

Lemma revs_parse_TypeError stdout e : revs_parse stdout = Rejected e → e = TypeError.
Proof.
  unfold revs_parse. rewrite revs_of_lines_reduce, reduce_line_docs.
  intros Hparse.
  pose proof (reduce_add_doc_outcome (listing_docs stdout) revs_init) as Hout.
  unfold listing_docs in Hout. rewrite Hparse in Hout. apply Hout.
  intros s. simpl. rewrite lookup_empty. by intros [? ?].
Qed.

(** X9.  A listing fails to parse exactly when the sha of one of its
    references names a property of [Object.prototype], and then with a
    TypeError; every other listing parses. *)
Theorem revs_parse_outcome stdout :
  match revs_parse stdout with
  | Ok _ => Forall (λ d, sha d ∉ Object_prototype) (listing_docs stdout)
  | Rejected e =>
      e = TypeError ∧ Exists (λ d, sha d ∈ Object_prototype) (listing_docs stdout)
  end.
Proof.
  unfold revs_parse. rewrite revs_of_lines_reduce, reduce_line_docs.
  apply reduce_add_doc_outcome. intros s. simpl. rewrite lookup_empty.
  by intros [? ?].
Qed.

Lemma add_doc_versions d r r' :
  add_doc d r = Ok r' → versions r' = versions (index_version d r).
Proof.
  unfold add_doc, index_sha.
  assert (∀ r0, versions r0 = versions r →
                versions (index_version d r0) = versions (index_version d r)) as Hv.
  { intros r0 Hr0. unfold index_version. destruct (type d); try done.
    destruct (version_match (ref d)); [simpl; by rewrite Hr0 | done]. }
  destruct (get_property _ _); simpl; [|done|]; intros [= <-]; apply Hv;
    unfold set_ref; by case_decide.
Qed.

Lemma reduce_add_doc_versions docs r r' :
  (∀ v d, assoc_get v (versions r) = Some d →
          type d = Tag ∧ ends_with_version (ref d) v) →
  reduce (λ r d, add_doc d r) docs r = Ok r' →
  ∀ v d, assoc_get v (versions r') = Some d →
         type d = Tag ∧ ends_with_version (ref d) v.
Proof.
  revert r. induction docs as [|d0 docs IH]; intros r Hinv; simpl.
  - by intros [= <-].
  - destruct (add_doc d0 r) as [r1|] eqn:Hadd; [|done]. simpl.
    apply IH. intros v d. rewrite (add_doc_versions _ _ _ Hadd).
    unfold index_version. destruct (type d0) eqn:Htype; try apply Hinv.
    pose proof (version_match_spec (ref d0)) as Hspec.
    destruct (version_match (ref d0)) as [v0|]; [|apply Hinv]. simpl.
    destruct (decide (v = v0)) as [->|Hne].
    + rewrite assoc_get_set_eq. by intros [= <-].
    + rewrite assoc_get_set_ne by done. apply Hinv.
Qed.

(** X10.  Every key of [versions] is a MAJOR.MINOR.PATCH, its reference is
    a tag of the listing, and the key is the longest MAJOR.MINOR.PATCH that
    ends the name of that tag. *)
Theorem revs_parse_versions stdout r v d :
  revs_parse stdout = Ok r →
  assoc_get v (versions r) = Some d →
  is_major_minor_patch v ∧ type d = Tag ∧ ends_with_version (ref d) v ∧
  d ∈ listing_docs stdout.
Proof.
  intros Hparse Hv.
  destruct (revs_parse_result_of _ _ Hparse) as (_ & _ & Hseen).
  unfold revs_parse in Hparse. rewrite revs_of_lines_reduce, reduce_line_docs in Hparse.
  assert (∀ v d, assoc_get v (versions revs_init) = Some d →
                 type d = Tag ∧ ends_with_version (ref d) v) as Hinit by done.
  destruct (reduce_add_doc_versions _ revs_init r Hinit Hparse v d Hv) as [Htag Hends].
  split; [apply Hends|]. split; [done|]. split; [done|]. by apply (Hseen v).
Qed.

Lemma revs_parse_versions_witness :
  is_major_minor_patch "1.0.0" ∧ Tag = Tag ∧
  ends_with_version "v1.0.0" "1.0.0" ∧
  Doc "2222" "v1.0.0" Tag ∈ listing_docs listing_two_branches.
Proof.
  apply (revs_parse_versions listing_two_branches
           (mkRevs [("1.0.0", Doc "2222" "v1.0.0" Tag)] ∅
              {["main" := Doc "1111" "main" Branch; "v1.0.0" := Doc "2222" "v1.0.0" Tag]}
              None
              {["1111" := ["main"]; "2222" := ["v1.0.0"]]})
           "1.0.0" (Doc "2222" "v1.0.0" Tag)).
  - vm_compute; reflexivity.
  - reflexivity.
Defined.

Lemma listing_doc_fields stdout d :
  d ∈ listing_docs stdout →
  ref d ≠ "" ∧ Js.endsWith (ref d) CARET_BRACES = false ∧
  no_whitespace (ref d) ∧ no_whitespace (sha d).
Proof.
  intros (line & _ & Hd)%list_elem_of_omap.
  apply line_doc_Some in Hd as (s & path & Hl & -> & Hname & Hcaret).
  destruct (split_ws_two_fields _ _ _ Hl) as [Hs Hp]. simpl.
  split; [done|]. split; [done|]. split; [|done].
  destruct (bare_name_suffix path Hp) as [p Hpath].
  unfold no_whitespace in *. rewrite Hpath, all_chars_app in Hp.
  by apply andb_prop in Hp as [_ ?].
Qed.

(** X11.  What [refs] holds: an entry is a reference of the listing, kept
    under its own name; the name is not empty, does not end with the
    dereference marker, is not "__proto__" and has no whitespace; the sha
    has no whitespace and names no property of [Object.prototype]. *)
Theorem revs_parse_refs_entries stdout r name d :
  revs_parse stdout = Ok r →
  refs r !! name = Some d →
  d ∈ listing_docs stdout ∧ ref d = name ∧
  name ≠ "" ∧ Js.endsWith name CARET_BRACES = false ∧ name ≠ "__proto__" ∧
  no_whitespace name ∧ no_whitespace (sha d) ∧ sha d ∉ Object_prototype.
Proof.
  intros Hparse Hd.
  destruct (revs_parse_result_of _ _ Hparse) as (Hrefs & _ & _).
  rewrite Hrefs in Hd. apply refs_of_Some in Hd as (Hproto & Hin & <-).
  destruct (listing_doc_fields _ _ Hin) as (? & ? & ? & ?).
  pose proof (revs_parse_Ok_shas _ _ Hparse) as Hout.
  rewrite Forall_forall in Hout. repeat split; try done. by apply Hout.
Qed.

Lemma revs_parse_refs_entries_witness :
  Doc "1111" "main" Branch ∈ listing_docs listing_two_branches ∧ "main" = "main" ∧
  "main" ≠ "" ∧ Js.endsWith "main" CARET_BRACES = false ∧ "main" ≠ "__proto__" ∧
  no_whitespace "main" ∧ no_whitespace "1111" ∧ "1111" ∉ Object_prototype.
Proof.
  apply (revs_parse_refs_entries listing_two_branches
           (mkRevs [("1.0.0", Doc "2222" "v1.0.0" Tag)] ∅
              {["main" := Doc "1111" "main" Branch; "v1.0.0" := Doc "2222" "v1.0.0" Tag]}
              None
              {["1111" := ["main"]; "2222" := ["v1.0.0"]]})
           "main" (Doc "1111" "main" Branch)).
  - vm_compute; reflexivity.
  - vm_compute; reflexivity.
Defined.

(** X12.  What [shas] holds: under a sha, the names of the references of
    the listing at that sha, in the order of the listing, a name as often
    as it occurs; no entry for a sha that no reference has. *)
Theorem revs_parse_shas stdout r s :
  revs_parse stdout = Ok r →
  default [] (shas r !! s) = ref <$> filter (λ d, sha d = s) (listing_docs stdout) ∧
  (shas r !! s = None ↔ ∀ d, d ∈ listing_docs stdout → sha d ≠ s).
Proof.
  intros Hparse.
  destruct (revs_parse_result_of _ _ Hparse) as (_ & Hshas & _).
  rewrite Hshas. split; [apply default_shas_of|].
  unfold shas_of. split.
  - intros Hnone d Hd Hs.
    assert (d ∈ filter (λ d, sha d = s) (listing_docs stdout)) as Hin
      by by apply list_elem_of_filter.
    destruct (filter (λ d, sha d = s) (listing_docs stdout)); [|done].
    by apply elem_of_nil in Hin.
  - intros Hnone.
    destruct (filter (λ d, sha d = s) (listing_docs stdout)) as [|x l] eqn:Hf; [done|].
    assert (x ∈ filter (λ d, sha d = s) (listing_docs stdout)) as Hx by (rewrite Hf; left).
    apply list_elem_of_filter in Hx as [Hs Hx]. by destruct (Hnone x Hx).
Qed.

Lemma revs_parse_shas_witness :
  default [] (Some ["x"]) = ref <$> filter (λ d, sha d = "aaaa") (listing_docs listing_repeated_name) ∧
  (Some ["x"] = None ↔ ∀ d, d ∈ listing_docs listing_repeated_name → sha d ≠ "aaaa").
Proof.
  assert (revs_parse listing_repeated_name =
            Ok (mkRevs [] ∅ {["x" := Doc "bbbb" "x" Tag]} None
                  {["aaaa" := ["x"]; "bbbb" := ["x"]]})) as Hparse
    by (vm_compute; reflexivity).
  exact (revs_parse_shas _ _ "aaaa" Hparse).
Defined.

(** X13.  The result never has a dist-tag: it is the value that the loop
    over the lines built, and that loop does not write ['dist-tags']. *)
Theorem revs_parse_no_dist_tags stdout r :
  revs_parse stdout = Ok r →
  reduce revs_line (Js.split_lines stdout) revs_init = Ok r ∧ dist_tags r = ∅.
Proof.
  unfold revs_parse, revs_of_lines. intros Hparse.
  destruct (reduce revs_line (Js.split_lines stdout) revs_init) as [r0|] eqn:Hred; [|done].
  simpl in Hparse. rewrite revs_dist_tags_id in Hparse. injection Hparse as <-.
  split; [done|]. by apply reduce_dist_tags in Hred.
Qed.

Lemma revs_parse_no_dist_tags_witness :
  ∃ r, reduce revs_line (Js.split_lines listing_two_branches) revs_init = Ok r ∧
       dist_tags r = ∅.
Proof.
  eexists. apply (revs_parse_no_dist_tags listing_two_branches). vm_compute; reflexivity.
Defined.

Lemma split_lines_nonempty s : Js.split_lines s ≠ [].
Proof.
  induction s as [|c s IH]; [done|]. simpl. case_decide; [done|].
  by destruct (Js.split_lines s).
Qed.

Lemma split_lines_app_LF a b :
  Js.split_lines (a +:+ Js.LF +:+ b) = Js.split_lines a ++ Js.split_lines b.
Proof.
  induction a as [|c a IH].
  - rewrite app_empty_l. by change (Js.LF +:+ b) with (String "010"%char b).
  - rewrite app_String. simpl. rewrite IH. case_decide; [done|].
    pose proof (split_lines_nonempty a). by destruct (Js.split_lines a).
Qed.

(** X14.  Listings compose: the output "a", a line feed, "b" is parsed as
    "a" and then the lines of "b" on the result; a line feed at the end of
    the output changes nothing. *)
Theorem revs_parse_app stdout more :
  revs_parse (stdout +:+ Js.LF +:+ more) =
    (r ← revs_parse stdout; reduce revs_line (Js.split_lines more) r) ∧
  revs_parse (stdout +:+ Js.LF) = revs_parse stdout.
Proof.
  assert (∀ b, revs_parse (stdout +:+ Js.LF +:+ b) =
               (r ← revs_parse stdout; reduce revs_line (Js.split_lines b) r)) as Happ.
  { intros b. unfold revs_parse. rewrite !revs_of_lines_reduce.
    by rewrite split_lines_app_LF, reduce_app. }
  split; [apply Happ|].
  replace (stdout +:+ Js.LF) with (stdout +:+ Js.LF +:+ "") by by rewrite app_empty_r.
  rewrite Happ. by destruct (revs_parse stdout).
Qed.

(** ** Trimming, line 93 *)

Lemma rev_app_append s t : String.rev_app s t = String.rev s +:+ t.
Proof.
  revert t. induction s as [|c s IH]; intros t; [done|].
  unfold String.rev. simpl. rewrite (IH (String c "")), (IH (String c t)).
  by rewrite app_assoc_string.
Qed.

Lemma rev_append s t : String.rev (s +:+ t) = String.rev t +:+ String.rev s.
Proof.
  induction s as [|c s IH].
  - by rewrite app_empty_l, app_empty_r.
  - rewrite app_String. unfold String.rev at 1 3. simpl.
    rewrite !rev_app_append, IH. by rewrite app_assoc_string.
Qed.

Lemma drop_while_starts_clean s : starts_clean (Js.drop_while Js.is_whitespace s).
Proof.
  induction s as [|c s IH]; [done|]. simpl.
  destruct (Js.is_whitespace c) eqn:Hc; [done|]. by simpl.
Qed.

Lemma starts_clean_drop_while s :
  starts_clean s → Js.drop_while Js.is_whitespace s = s.
Proof. destruct s as [|c s]; [done|]. simpl. by intros ->. Qed.

(** What [trim] returns neither starts nor ends with whitespace, and
    trimming it again changes nothing. *)
Lemma trim_trimmed s : trimmed (Js.trim s) ∧ Js.trim (Js.trim s) = Js.trim s.
Proof.
  unfold Js.trim.
  set (a := Js.drop_while Js.is_whitespace s).
  set (b := Js.drop_while Js.is_whitespace (String.rev a)).
  assert (starts_clean a) as Ha by apply drop_while_starts_clean.
  assert (starts_clean b) as Hb by apply drop_while_starts_clean.
  assert (starts_clean (String.rev b)) as Hrb.
  { destruct b as [|c b'] eqn:Hbeq; [done|].
    pose proof (take_drop_while Js.is_whitespace (String.rev a)) as Hsplit.
    fold b in Hsplit. rewrite Hbeq in Hsplit.
    apply (f_equal String.rev) in Hsplit. rewrite rev_rev, rev_append in Hsplit.
    rewrite <- Hsplit in Ha.
    destruct (String.rev (String c b')) as [|x r] eqn:Hr; [|done].
    apply (f_equal String.rev) in Hr. by rewrite rev_rev in Hr. }
  split; [split; [done | by rewrite rev_rev]|].
  rewrite (starts_clean_drop_while _ Hrb), rev_rev.
  by rewrite (starts_clean_drop_while _ Hb).
Qed.

(** ** The workflows, lines 52-95 *)

Section Workflows.

Context {V : Type} `{JsValue V}.
Variable platform : string.
Variable process_env : list (string * string).
Variable tmpName : string.
Variable dirname : string → string.
Variable optCheck : option (Options V) → Options V.
Variable execFile : list Invocation → Invocation → Result (string * string).

(** X15.  Without a git binary the workflows fail with ENOGIT before
    anything else happens: no run, no environment built, the state as it
    was. *)
Theorem workflows_ENOGIT repo committish target opts w :
  fullClone None platform process_env tmpName dirname optCheck execFile
    repo committish target opts w = (w, Rejected ENOGIT) ∧
  shallowClone None platform process_env tmpName optCheck execFile
    repo committish target opts w = (w, Rejected ENOGIT) ∧
  updateSubmodules None process_env tmpName optCheck execFile target opts w
    = (w, Rejected ENOGIT) ∧
  headSha None process_env tmpName optCheck execFile target opts w
    = (w, Rejected ENOGIT).
Proof.
  unfold fullClone, shallowClone, updateSubmodules, headSha, mbind, M_bind.
  by rewrite !execGit_ENOGIT.
Qed.

Lemma run_of_env p gitArgs gitOpts opts w R S :
  run_of process_env tmpName optCheck p gitArgs gitOpts opts
    (mkWorld (Some (gitEnv_value process_env tmpName w)) R S) =
  run_of process_env tmpName optCheck p gitArgs gitOpts opts w.
Proof. done. Qed.

Lemma execGit_found p gitArgs gitOpts opts w :
  execGit (Some p) process_env tmpName optCheck execFile gitArgs gitOpts opts w =
    (mkWorld (Some (gitEnv_value process_env tmpName w)) (REVS w)
       (spawned w ++ [run_of process_env tmpName optCheck p gitArgs gitOpts opts w]),
     execFile (spawned w) (run_of process_env tmpName optCheck p gitArgs gitOpts opts w)).
Proof. by apply execGit_run. Qed.

Lemma execGit_next p gitArgs gitOpts opts w R S :
  execGit (Some p) process_env tmpName optCheck execFile gitArgs gitOpts opts
    (mkWorld (Some (gitEnv_value process_env tmpName w)) R S) =
    (mkWorld (Some (gitEnv_value process_env tmpName w)) R
       (S ++ [run_of process_env tmpName optCheck p gitArgs gitOpts opts w]),
     execFile S (run_of process_env tmpName optCheck p gitArgs gitOpts opts w)).
Proof. by rewrite execGit_found. Qed.

(** The runs of [headSha]: one, and the result is its trimmed output. *)
Lemma headSha_trace p repo opts w :
  let i := run_of process_env tmpName optCheck p ["rev-parse"; "--revs-only"; "HEAD"]
             (mkGitOpts (Some repo) None) (Some (optCheck opts)) w in
  headSha (Some p) process_env tmpName optCheck execFile repo opts w =
    (mkWorld (Some (gitEnv_value process_env tmpName w)) (REVS w) (spawned w ++ [i]),
     match execFile (spawned w) i with
     | Ok out => Ok (Js.trim out.1)
     | Rejected e => Rejected e
     end).
Proof.
  simpl. unfold headSha, mbind, M_bind. rewrite execGit_found.
  by destruct (execFile _ _).
Qed.

(** X16.  [headSha] runs "rev-parse --revs-only HEAD" once, in the
    repository, with the caller's uid and gid.  It fails with the error of
    that run, or returns its standard output trimmed: a commit without
    whitespace around it. *)
Theorem headSha_outcome p repo opts w :
  ∃ i, spawned (headSha (Some p) process_env tmpName optCheck execFile repo opts w).1
         = spawned w ++ [i] ∧
    inv_path i = p ∧
    inv_args i = ["rev-parse"; "--revs-only"; "HEAD"] ∧
    cwd (inv_opts i) = Some repo ∧
    uid (inv_opts i) = carried (opts_uid (optCheck (Some (optCheck opts)))) ∧
    gid (inv_opts i) = carried (opts_gid (optCheck (Some (optCheck opts)))) ∧
    match (headSha (Some p) process_env tmpName optCheck execFile repo opts w).2 with
    | Ok h => ∃ out, execFile (spawned w) i = Ok out ∧ h = Js.trim out.1 ∧ trimmed h
    | Rejected e => execFile (spawned w) i = Rejected e
    end.
Proof.
  rewrite headSha_trace. eexists. split; [done|]. simpl.
  repeat (split; [done|]).
  destruct (execFile _ _) as [out|e]; [|done].
  exists out. split; [done|]. split; [done|]. apply trim_trimmed.
Qed.

(** The four runs of a full clone: they are made in order, each after the
    one before has succeeded, and the outcome is that of the last one
    made. *)
Lemma fullClone_trace p repo committish target opts w :
  let args0 := if decide (platform = "win32")
               then ["clone"; "-q"; repo; target] ++ ["--config"; "core.longpaths=true"]
               else ["clone"; "-q"; repo; target] in
  let o := Some (optCheck opts) in
  let run := run_of process_env tmpName optCheck p in
  let i0 := run args0 (mkGitOpts (Some (dirname target)) None) o w in
  let i1 := run ["checkout"; committish] (mkGitOpts (Some target) None) None w in
  let i2 := run ["submodule"; "update"; "-q"; "--init"; "--recursive"]
              (mkGitOpts (Some target) None) o w in
  let i3 := run ["rev-parse"; "--revs-only"; "HEAD"]
              (mkGitOpts (Some target) None) (Some (optCheck o)) w in
  let runs := [i0; i1; i2; i3] in
  let result := fullClone (Some p) platform process_env tmpName dirname optCheck execFile
                  repo committish target opts w in
  ∃ n, n < 4 ∧
    result.1 = mkWorld (Some (gitEnv_value process_env tmpName w)) (REVS w)
                 (spawned w ++ take (S n) runs) ∧
    (∀ k i, k < n → runs !! k = Some i →
       ∃ out, execFile (spawned w ++ take k runs) i = Ok out) ∧
    match result.2 with
    | Ok h => n = 3 ∧
        ∃ out, execFile (spawned w ++ take n runs) i3 = Ok out ∧ h = Js.trim out.1
    | Rejected e =>
        ∃ i, runs !! n = Some i ∧ execFile (spawned w ++ take n runs) i = Rejected e
    end.
Proof.
  simpl.
  destruct (fullClone _ _ _ _ _ _ _ _ _ _ _ _) as [w' res] eqn:Hrun. simpl.
  revert Hrun. unfold fullClone, updateSubmodules, headSha, mbind, M_bind, mret, M_ret.
  rewrite execGit_found. set (i0 := run_of _ _ _ _ _ _ _ w).
  destruct (execFile (spawned w) i0) as [out0|e0] eqn:H0.
  2:{ intros [= <- <-]. exists 0. split; [lia|]. split; [reflexivity|].
      split; [intros k i Hk; lia|].
      exists i0. split; [reflexivity|]. simpl. rewrite app_nil_r. exact H0. }
  rewrite execGit_next. set (i1 := run_of _ _ _ _ _ _ None w).
  destruct (execFile (spawned w ++ [i0]) i1) as [out1|e1] eqn:H1.
  2:{ intros [= <- <-]. exists 1. split; [lia|]. simpl. rewrite <- app_assoc.
      split; [reflexivity|].
      split.
      { intros [|k] i Hk; [|lia]. intros [= <-]. simpl. rewrite app_nil_r. eauto. }
      exists i1. split; [reflexivity | exact H1]. }
  rewrite execGit_next. set (i2 := run_of _ _ _ _ _ _ _ w).
  destruct (execFile ((spawned w ++ [i0]) ++ [i1]) i2) as [out2|e2] eqn:H2.
  2:{ intros [= <- <-]. exists 2. split; [lia|]. simpl. rewrite <- !app_assoc.
      rewrite <- !app_assoc in H2.
      split; [reflexivity|].
      split.
      { intros [|[|k]] i Hk; [| |lia]; intros [= <-]; simpl;
          rewrite ?app_nil_r; eauto. }
      exists i2. split; [reflexivity | exact H2]. }
  rewrite execGit_next. set (i3 := run_of _ _ _ _ _ _ _ w).
  rewrite <- !app_assoc in H2. simpl in H2.
  destruct (execFile (((spawned w ++ [i0]) ++ [i1]) ++ [i2]) i3) as [out3|e3] eqn:H3;
    rewrite <- !app_assoc in H3; simpl in H3;
    intros [= <- <-]; exists 3; (split; [lia|]); simpl; rewrite <- !app_assoc;
    (split; [reflexivity|]);
    (split;
     [intros [|[|[|k]]] i Hk; [| | |lia]; intros [= <-]; simpl;
        rewrite ?app_nil_r; eauto|]).
  - split; [reflexivity|]. exists out3. split; [exact H3 | reflexivity].
  - exists i3. split; [reflexivity | exact H3].
Qed.

(** The three runs of a shallow clone. *)
Lemma shallowClone_trace p repo branch target opts w :
  let args0 := if decide (platform = "win32")
               then ["clone"; "--depth=1"; "-q"; "-b"; branch; repo; target]
                      ++ ["--config"; "core.longpaths=true"]
               else ["clone"; "--depth=1"; "-q"; "-b"; branch; repo; target] in
  let o := Some (optCheck opts) in
  let run := run_of process_env tmpName optCheck p in
  let i0 := run args0 (mkGitOpts (Some target) None) o w in
  let i1 := run ["submodule"; "update"; "-q"; "--init"; "--recursive"]
              (mkGitOpts (Some target) None) o w in
  let i2 := run ["rev-parse"; "--revs-only"; "HEAD"]
              (mkGitOpts (Some target) None) (Some (optCheck o)) w in
  let runs := [i0; i1; i2] in
  let result := shallowClone (Some p) platform process_env tmpName optCheck execFile
                  repo branch target opts w in
  ∃ n, n < 3 ∧
    result.1 = mkWorld (Some (gitEnv_value process_env tmpName w)) (REVS w)
                 (spawned w ++ take (S n) runs) ∧
    (∀ k i, k < n → runs !! k = Some i →
       ∃ out, execFile (spawned w ++ take k runs) i = Ok out) ∧
    match result.2 with
    | Ok h => n = 2 ∧
        ∃ out, execFile (spawned w ++ take n runs) i2 = Ok out ∧ h = Js.trim out.1
    | Rejected e =>
        ∃ i, runs !! n = Some i ∧ execFile (spawned w ++ take n runs) i = Rejected e
    end.
Proof.
  simpl.
  destruct (shallowClone _ _ _ _ _ _ _ _ _ _ _) as [w' res] eqn:Hrun. simpl.
  revert Hrun. unfold shallowClone, updateSubmodules, headSha, mbind, M_bind, mret, M_ret.
  rewrite execGit_found. set (i0 := run_of _ _ _ _ _ _ _ w).
  destruct (execFile (spawned w) i0) as [out0|e0] eqn:H0.
  2:{ intros [= <- <-]. exists 0. split; [lia|]. split; [reflexivity|].
      split; [intros k i Hk; lia|].
      exists i0. split; [reflexivity|]. simpl. rewrite app_nil_r. exact H0. }
  rewrite execGit_next. set (i1 := run_of _ _ _ _ _ _ _ w).
  destruct (execFile (spawned w ++ [i0]) i1) as [out1|e1] eqn:H1.
  2:{ intros [= <- <-]. exists 1. split; [lia|]. simpl. rewrite <- app_assoc.
      split; [reflexivity|].
      split.
      { intros [|k] i Hk; [|lia]. intros [= <-]. simpl. rewrite app_nil_r. eauto. }
      exists i1. split; [reflexivity | exact H1]. }
  rewrite execGit_next. set (i2 := run_of _ _ _ _ _ _ _ w).
  destruct (execFile ((spawned w ++ [i0]) ++ [i1]) i2) as [out2|e2] eqn:H2;
    rewrite <- !app_assoc in H2; simpl in H2;
    intros [= <- <-]; exists 2; (split; [lia|]); simpl; rewrite <- !app_assoc;
    (split; [reflexivity|]);
    (split;
     [intros [|[|k]] i Hk; [| |lia]; intros [= <-]; simpl;
        rewrite ?app_nil_r; eauto|]).
  - split; [reflexivity|]. exists out2. split; [exact H2 | reflexivity].
  - exists i2. split; [reflexivity | exact H2].
Qed.

(** From a trace to the runs made and the outcome. *)
Lemma trace_outcome (m : M string) w (runs : list Invocation) n last_run gitenv :
  n < length runs →
  (m w).1 = mkWorld gitenv (REVS w) (spawned w ++ take (S n) runs) →
  (∀ k i, k < n → runs !! k = Some i →
     ∃ out, execFile (spawned w ++ take k runs) i = Ok out) →
  match (m w).2 with
  | Ok h => n = pred (length runs) ∧
      ∃ out, execFile (spawned w ++ take n runs) last_run = Ok out ∧ h = Js.trim out.1
  | Rejected e =>
      ∃ i, runs !! n = Some i ∧ execFile (spawned w ++ take n runs) i = Rejected e
  end →
  last runs = Some last_run →
  ∃ before i,
    new_runs m w = before ++ [i] ∧ length before < length runs ∧
    (∀ k j, before !! k = Some j →
       ∃ out, execFile (spawned w ++ take k before) j = Ok out) ∧
    match (m w).2 with
    | Ok h => length before = pred (length runs) ∧ trimmed h ∧
        ∃ out, execFile (spawned w ++ before) i = Ok out ∧ h = Js.trim out.1
    | Rejected e => execFile (spawned w ++ before) i = Rejected e
    end.
Proof.
  intros Hn Hw Hprev Hres Hlast.
  destruct (lookup_lt_is_Some_2 runs n Hn) as [i Hi].
  exists (take n runs), i.
  assert (length (take n runs) = n) as Hlen by (rewrite length_take; lia).
  split.
  { unfold new_runs. rewrite Hw. simpl. rewrite drop_app_length.
    by apply take_S_r. }
  split; [lia|].
  split.
  { intros k j Hj. apply lookup_take_Some in Hj as [Hj Hk].
    rewrite take_take, Nat.min_l by lia. by apply Hprev. }
  destruct ((m w).2) as [h|e].
  - destruct Hres as (Hlast_n & out & Hout & ->).
    split; [lia|]. split; [apply trim_trimmed|].
    exists out. split; [|done].
    rewrite last_lookup, <- Hlast_n in Hlast. congruence.
  - destruct Hres as (i' & Hi' & He). congruence.
Qed.

(** X17.  A full clone makes its runs one after the other and stops at the
    first that fails: every run before the last one made succeeded.  It
    fails with the error of the last run made, unchanged, or, after four
    runs, returns the standard output of the fourth, trimmed. *)
Theorem fullClone_outcome p repo committish target opts w :
  let m := fullClone (Some p) platform process_env tmpName dirname optCheck execFile
             repo committish target opts in
  ∃ before i,
    new_runs m w = before ++ [i] ∧ length before < 4 ∧
    (∀ k j, before !! k = Some j →
       ∃ out, execFile (spawned w ++ take k before) j = Ok out) ∧
    match (m w).2 with
    | Ok h => length before = 3 ∧ trimmed h ∧
        ∃ out, execFile (spawned w ++ before) i = Ok out ∧ h = Js.trim out.1
    | Rejected e => execFile (spawned w ++ before) i = Rejected e
    end.
Proof.
  intros m.
  destruct (fullClone_trace p repo committish target opts w)
    as (n & Hn & Hw & Hprev & Hres).
  match type of Hw with _ = mkWorld _ _ (_ ++ take _ ?runs) =>
    exact (trace_outcome m w runs n _ _ Hn Hw Hprev Hres eq_refl)
  end.
Qed.

(** X18.  The runs of a full clone are the first ones of: the clone, in
    the directory that holds the target; the checkout, the update of the
    submodules and the reading of HEAD, in the target.  All are runs of the
    binary that was found, in the memoized environment, which the state
    holds afterwards; the cache is left as it was. *)
Theorem fullClone_runs p repo committish target opts w :
  let m := fullClone (Some p) platform process_env tmpName dirname optCheck execFile
             repo committish target opts in
  let e := gitEnv_value process_env tmpName w in
  let run args dir (o : Options V) :=
    mkInvocation p args
      (mkSpawnOptions e (carried (opts_uid o)) (carried (opts_gid o)) (Some dir)) in
  let o := optCheck (Some (optCheck opts)) in
  new_runs m w `prefix_of`
    [ run (["clone"; "-q"; repo; target] ++
           if decide (platform = "win32") then ["--config"; "core.longpaths=true"] else [])
        (dirname target) o;
      run ["checkout"; committish] target (optCheck None);
      run ["submodule"; "update"; "-q"; "--init"; "--recursive"] target o;
      run ["rev-parse"; "--revs-only"; "HEAD"] target (optCheck (Some o)) ] ∧
  GITENV (m w).1 = Some e ∧
  REVS (m w).1 = REVS w.
Proof.
  intros m e run o.
  destruct (fullClone_trace p repo committish target opts w)
    as (n & Hn & Hw & _ & _).
  unfold new_runs. fold m in Hw. rewrite Hw. cbn [spawned fst]. rewrite drop_app_length.
  split; [|done].
  match goal with |- take _ ?l `prefix_of` ?l' => assert (l = l') as -> end.
  { unfold run_of, spawn_options, run. simpl. by case_decide. }
  apply prefix_take.
Qed.

(** X19.  A shallow clone makes at most three runs, one after the other,
    and stops at the first that fails.  It fails with the error of the last
    run made, unchanged, or, after three runs, returns the standard output
    of the third, trimmed. *)
Theorem shallowClone_outcome p repo branch target opts w :
  let m := shallowClone (Some p) platform process_env tmpName optCheck execFile
             repo branch target opts in
  ∃ before i,
    new_runs m w = before ++ [i] ∧ length before < 3 ∧
    (∀ k j, before !! k = Some j →
       ∃ out, execFile (spawned w ++ take k before) j = Ok out) ∧
    match (m w).2 with
    | Ok h => length before = 2 ∧ trimmed h ∧
        ∃ out, execFile (spawned w ++ before) i = Ok out ∧ h = Js.trim out.1
    | Rejected e => execFile (spawned w ++ before) i = Rejected e
    end.
Proof.
  intros m.
  destruct (shallowClone_trace p repo branch target opts w)
    as (n & Hn & Hw & Hprev & Hres).
  match type of Hw with _ = mkWorld _ _ (_ ++ take _ ?runs) =>
    exact (trace_outcome m w runs n _ _ Hn Hw Hprev Hres eq_refl)
  end.
Qed.

(** X20.  The runs of a shallow clone are the first ones of: the clone of
    the one branch at depth 1, the update of the submodules and the reading
    of HEAD, all three in the target directory, the clone included; none is
    a checkout.  All are runs of the binary that was found, in the memoized
    environment. *)
Theorem shallowClone_runs p repo branch target opts w :
  let m := shallowClone (Some p) platform process_env tmpName optCheck execFile
             repo branch target opts in
  let e := gitEnv_value process_env tmpName w in
  let run args (o : Options V) :=
    mkInvocation p args
      (mkSpawnOptions e (carried (opts_uid o)) (carried (opts_gid o)) (Some target)) in
  let o := optCheck (Some (optCheck opts)) in
  new_runs m w `prefix_of`
    [ run (["clone"; "--depth=1"; "-q"; "-b"; branch; repo; target] ++
           if decide (platform = "win32") then ["--config"; "core.longpaths=true"] else [])
        o;
      run ["submodule"; "update"; "-q"; "--init"; "--recursive"] o;
      run ["rev-parse"; "--revs-only"; "HEAD"] (optCheck (Some o)) ] ∧
  Forall (λ i, head (inv_args i) ≠ Some "checkout") (new_runs m w) ∧
  GITENV (m w).1 = Some e ∧
  REVS (m w).1 = REVS w.
Proof.
  intros m e run o.
  destruct (shallowClone_trace p repo branch target opts w)
    as (n & Hn & Hw & _ & _).
  unfold new_runs. fold m in Hw. rewrite Hw. cbn [spawned fst]. rewrite drop_app_length.
  split; [|split; [|done]].
  - match goal with |- take _ ?l `prefix_of` ?l' => assert (l = l') as -> end.
    { unfold run_of, spawn_options, run. simpl. by case_decide. }
    apply prefix_take.
  - apply Forall_take. repeat constructor; simpl; try done. by case_decide.
Qed.

End Workflows.

Section ShallowClone.

Context {V : Type} `{JsValue V}.
Variable platform : string.
Variable process_env : list (string * string).
Variable tmpName : string.
Variable optCheck : option (Options V) → Options V.
Variable execFile : list Invocation → Invocation → Result (string * string).

(** The normalizer leaves a normalized object as it is. *)
Hypothesis optCheck_idempotent :
  ∀ opts, optCheck (Some (optCheck opts)) = optCheck opts.

(** X21.  Every run of a shallow clone carries the uid and the gid of the
    caller's options: unlike the full clone, it has no step that is made
    without them. *)
Theorem shallowClone_caller_ids p repo branch target opts w :
  Forall (λ i, uid (inv_opts i) = carried (opts_uid (optCheck opts)) ∧
               gid (inv_opts i) = carried (opts_gid (optCheck opts)))
    (new_runs (shallowClone (Some p) platform process_env tmpName optCheck execFile
                 repo branch target opts) w).
Proof.
  destruct (shallowClone_trace platform process_env tmpName optCheck execFile
              p repo branch target opts w) as (n & Hn & Hw & _ & _).
  unfold new_runs. rewrite Hw. cbn [spawned fst]. rewrite drop_app_length.
  apply Forall_take. unfold run_of, spawn_options. simpl.
  rewrite !optCheck_idempotent. by repeat constructor.
Qed.

End ShallowClone.

Lemma shallowClone_caller_ids_witness :
  Forall (λ i, uid (inv_opts i) = Some (Finite 1000) ∧
               gid (inv_opts i) = Some (Finite 100))
    (spawned example_shallow.1) ∧
  length (spawned example_shallow.1) = 3.
Proof.
  split; [|vm_compute; reflexivity].
  exact (shallowClone_caller_ids (V := Primitive) "linux" [("HOME", "/root")]
           "/tmp/git-clone-1" optCheck_spec example_execFile
           (λ opts, eq_refl)
           "/usr/bin/git" "https://example.org/a.git" "main" "/srv/a"
           (Some (mkOptions (PNumber (Finite 1000)) (PNumber (Finite 100))))
           World_init).
Defined.

(** ** Spawning, lines 176-181, and the listing, lines 110-112 *)

Section Spawning.

Context {V : Type} `{JsValue V}.
Variable GITPATH : option string.
Variable process_env : list (string * string).
Variable tmpName : string.
Variable optCheck : option (Options V) → Options V.
Variable execFile : list Invocation → Invocation → Result (string * string).
Variable cp_spawn : list Invocation → Invocation → option Error.

(** X22.  Without a binary [spawnGit] fails with ENOGIT and changes
    nothing.  With a binary it builds the environment and the options that
    [execGit] builds for the same arguments, and asks [spawn] for the
    child: what [spawn] throws is the failure, unchanged, and no run is
    recorded; otherwise the child is recorded and returned, whatever
    becomes of it, and the state is the one that [execGit] leaves. *)
Theorem spawnGit_outcome gitArgs gitOpts opts w :
  let result := spawnGit GITPATH process_env tmpName optCheck cp_spawn
                  gitArgs gitOpts opts w in
  match GITPATH with
  | None => result = (w, Rejected ENOGIT)
  | Some p =>
      let i := run_of process_env tmpName optCheck p gitArgs gitOpts opts w in
      GITENV result.1 = Some (gitEnv_value process_env tmpName w) ∧
      REVS result.1 = REVS w ∧
      match cp_spawn (spawned w) i with
      | Some e => result.2 = Rejected e ∧ spawned result.1 = spawned w
      | None =>
          result.2 = Ok i ∧ spawned result.1 = spawned w ++ [i] ∧
          result.1 =
            (execGit GITPATH process_env tmpName optCheck execFile
               gitArgs gitOpts opts w).1
      end
  end.
Proof.
  destruct GITPATH as [p|]; [|reflexivity].
  unfold spawnGit, execGit, checkGit, mbind, M_bind, mret, M_ret.
  rewrite !mkOpts_run. unfold spawn, run_of. simpl.
  by destruct (cp_spawn _ _).
Qed.

(** X23.  The callback of [revs] builds the environment before it looks
    for the binary: without a binary it fails with ENOGIT and runs nothing,
    but the environment is memoized all the same.  With a binary it asks
    [spawn] for "ls-remote -h -t" and the repository, in that environment,
    with no working directory of its own, and with the uid and gid of the
    options; it fails with what [spawn] throws, and then records no run, or
    returns the child that it has recorded. *)
Theorem ls_remote_outcome repo opts w :
  let e := gitEnv_value process_env tmpName w in
  let o := optCheck opts in
  ls_remote GITPATH process_env tmpName optCheck cp_spawn repo opts w =
    match GITPATH with
    | None => (mkWorld (Some e) (REVS w) (spawned w), Rejected ENOGIT)
    | Some p =>
        let i := mkInvocation p ["ls-remote"; "-h"; "-t"; repo]
                   (mkSpawnOptions e (carried (opts_uid o)) (carried (opts_gid o)) None) in
        match cp_spawn (spawned w) i with
        | Some thrown => (mkWorld (Some e) (REVS w) (spawned w), Rejected thrown)
        | None => (mkWorld (Some e) (REVS w) (spawned w ++ [i]), Ok i)
        end
    end.
Proof.
  cbv zeta. rewrite ls_remote_eq. unfold ls_remote_query, ls_remote_child.
  destruct GITPATH as [p|]; simpl; [|by rewrite app_nil_r].
  destruct (cp_spawn _ _); simpl; [by rewrite app_nil_r | reflexivity].
Qed.

End Spawning.

(** ** The type of a reference, lines 210-218 *)

Lemma startsWith_spec s t : Js.startsWith s t = true ↔ ∃ b, s = t +:+ b.
Proof.
  split.
  - revert s. induction t as [|c t IH]; intros s Hs.
    + exists s. by rewrite app_empty_l.
    + destruct s as [|a s]; [done|]. simpl in Hs.
      case_decide as Hac; [|done]. subst a.
      destruct (IH s Hs) as [b ->]. exists b. by rewrite app_String.
  - intros [b ->]. apply startsWith_app.
Qed.

Lemma includes_unfold s t :
  Js.includes s t =
    if Js.startsWith s t then true
    else match s with
         | "" => false
         | String _ s' => Js.includes s' t
         end.
Proof. by destruct s. Qed.

Lemma includes_spec s t : Js.includes s t = true ↔ ∃ a b, s = a +:+ t +:+ b.
Proof.
  split.
  - induction s as [|c s IH]; rewrite includes_unfold;
      destruct (Js.startsWith _ t) eqn:Ht.
    + intros _. apply startsWith_spec in Ht as [b Hb]. exists "", b.
      by rewrite app_empty_l.
    + done.
    + intros _. apply startsWith_spec in Ht as [b Hb]. exists "", b.
      by rewrite app_empty_l.
    + intros Hs. destruct (IH Hs) as (a & b & ->).
      exists (String c a), b. by rewrite app_String.
  - intros (a & b & ->). apply includes_app_r.
    by rewrite includes_unfold, startsWith_app.
Qed.

(** X24.  The type of a reference: a tag when "refs/tags/" occurs anywhere
    in the text, also when "refs/heads/" occurs in it as well; a branch when
    "refs/heads/" occurs and "refs/tags/" does not; a head when neither
    occurs and the text ends with "HEAD". *)
Theorem refType_spec line :
  let occurs t := ∃ a b, line = a +:+ t +:+ b in
  (refType line = Tag ↔ occurs "refs/tags/") ∧
  (refType line = Branch ↔ ¬ occurs "refs/tags/" ∧ occurs "refs/heads/") ∧
  (refType line = Head ↔
     ¬ occurs "refs/tags/" ∧ ¬ occurs "refs/heads/" ∧ is_suffix "HEAD" line) ∧
  (refType line = Other ↔
     ¬ occurs "refs/tags/" ∧ ¬ occurs "refs/heads/" ∧ ¬ is_suffix "HEAD" line).
Proof.
  intros occurs. unfold refType.
  pose proof (includes_spec line REFS_TAGS) as Ht.
  pose proof (includes_spec line REFS_HEADS) as Hh.
  pose proof (endsWith_suffix line HEAD) as He.
  change (∃ a b, line = a +:+ REFS_TAGS +:+ b) with (occurs "refs/tags/") in Ht.
  change (∃ a b, line = a +:+ REFS_HEADS +:+ b) with (occurs "refs/heads/") in Hh.
  change (is_suffix HEAD line) with (is_suffix "HEAD" line) in He.
  destruct (Js.includes line REFS_TAGS), (Js.includes line REFS_HEADS),
    (Js.endsWith line HEAD); intuition (auto; congruence).
Qed.

(** ** What follows the second field of a line, line 121 *)

Lemma split_ws_from_field b s c rest :
  b = false ∨ s ≠ "" → no_whitespace s → Js.is_whitespace c = true →
  Js.split_ws_from b (s +:+ String c rest) = s :: Js.split_ws_from true rest.
Proof.
  intros Hne Hs Hc. revert b Hne. induction s as [|a s IH]; intros b Hne.
  - destruct Hne as [-> | ?]; [|done]. rewrite app_empty_l. simpl. by rewrite Hc.
  - unfold no_whitespace in Hs. simpl in Hs. apply andb_true_iff in Hs as [Ha Hs].
    apply negb_true_iff in Ha. rewrite app_String. simpl. rewrite Ha.
    by rewrite (IH Hs false) by by left.
Qed.

Lemma split_ws_rest s c path c' rest :
  no_whitespace s → Js.is_whitespace c = true →
  path ≠ "" → no_whitespace path → Js.is_whitespace c' = true →
  Js.split_ws (s +:+ String c (path +:+ String c' rest)) 2 = [s; path].
Proof.
  intros Hs Hc Hp1 Hp2 Hc'. unfold Js.split_ws.
  rewrite (split_ws_from_field false s c _ (or_introl eq_refl) Hs Hc).
  by rewrite (split_ws_from_field true path c' _ (or_intror Hp1) Hp2 Hc').
Qed.

(** X25.  Only the first two fields of a line are read: whatever follows
    the second field, a carriage return or further fields, changes
    neither the commit nor the name of the reference.  The type is found in
    the whole line, and stays when the longer line has the same type. *)
Theorem revs_line_ignores_rest revs s c path c' rest :
  no_whitespace s → Js.is_whitespace c = true →
  path ≠ "" → no_whitespace path → Js.is_whitespace c' = true →
  refType (s +:+ String c (path +:+ String c' rest)) = refType (s +:+ String c path) →
  revs_line revs (s +:+ String c (path +:+ String c' rest)) =
  revs_line revs (s +:+ String c path).
Proof.
  intros Hs Hc Hp1 Hp2 Hc' Htype.
  unfold revs_line.
  rewrite (split_ws_rest s c path c' rest), (split_ws_sha_path s c path), Htype by done.
  reflexivity.
Qed.

Lemma revs_line_ignores_rest_witness :
  revs_line revs_init
    ("aaaa" +:+ String "009" ("refs/tags/v1.0.0" +:+ String "013" "")) =
  revs_line revs_init ("aaaa" +:+ String "009" "refs/tags/v1.0.0").
Proof.
  apply (revs_line_ignores_rest revs_init "aaaa" "009"%char "refs/tags/v1.0.0"
           "013"%char "");
    try reflexivity; discriminate.
Defined.

(** ** The cache, lines 98-109 and 160-161 *)

(** X26.  When a listing has come back it is parsed; the result is stored
    as the most recently used entry of the cache, under the repository and
    with the time of storing, and returned.  A listing that fails to parse
    fails with a TypeError and leaves the cache as it was.  Neither runs
    the binary. *)
Theorem revs_finished_outcome clock repo stdout w :
  0 < LRU.max (REVS w) →
  let result := revs_finished clock repo stdout w in
  spawned result.1 = spawned w ∧
  GITENV result.1 = GITENV w ∧
  match result.2 with
  | Ok r => revs_parse stdout = Ok r ∧
            head (LRU.items (REVS result.1)) = Some (LRU.Entry repo r clock)
  | Rejected e => e = TypeError ∧ result.1 = w
  end.
Proof.
  intros Hmax. unfold revs_finished.
  destruct (revs_parse stdout) as [r|e] eqn:Hparse; simpl.
  - split; [done|]. split; [done|]. split; [done|].
    destruct (LRU.max (REVS w)); [lia | done].
  - split; [done|]. split; [done|]. split; [|done].
    by apply (revs_parse_TypeError stdout).
Qed.

Lemma revs_finished_outcome_witness :
  head (LRU.items (REVS (revs_finished 0 "https://example.org/a.git"
                           listing_two_branches World_init).1)) =
    Some (LRU.Entry "https://example.org/a.git"
            (mkRevs [("1.0.0", Doc "2222" "v1.0.0" Tag)] ∅
               {["main" := Doc "1111" "main" Branch;
                 "v1.0.0" := Doc "2222" "v1.0.0" Tag]} None
               {["1111" := ["main"]; "2222" := ["v1.0.0"]]}) 0).
Proof.
  assert (0 < LRU.max (REVS World_init)) as Hmax by (simpl; lia).
  destruct (revs_finished_outcome 0 "https://example.org/a.git"
              listing_two_branches World_init Hmax) as (_ & _ & Hres).
  assert ((revs_finished 0 "https://example.org/a.git" listing_two_branches
             World_init).2 =
          Ok (mkRevs [("1.0.0", Doc "2222" "v1.0.0" Tag)] ∅
               {["main" := Doc "1111" "main" Branch;
                 "v1.0.0" := Doc "2222" "v1.0.0" Tag]} None
               {["1111" := ["main"]; "2222" := ["v1.0.0"]]})) as Hok
    by (vm_compute; reflexivity).
  rewrite Hok in Hres. exact (proj2 Hres).
Defined.

Section CacheExpiry.

Context {V : Type}.
Variable optCheck : option (Options V) → Options V.

(** X27.  A stored listing is not served for longer than 5 minutes: a call
    for [repo] later than that finds the entry stale, drops it and goes
    back to the remote, under the key "ls-remote:" followed by the
    repository. *)
Theorem revs_expired w0 t0 repo stdout r w1 evs t1 opts :
  LRU.max (REVS w0) = 100 →
  LRU.maxAge (REVS w0) = (5 * 60 * 1000)%Z →
  revs_finished t0 repo stdout w0 = (w1, Ok r) →
  Forall (λ ev, event_repo ev ≠ repo) evs →
  length evs < 100 →
  (5 * 60 * 1000 < t1 - t0)%Z →
  ∃ w3, revs optCheck t1 repo opts (foldl (run_event optCheck) w1 evs)
          = (w3, InFlight ("ls-remote:" +:+ repo)) ∧
        LRU.find repo (LRU.items (REVS w3)) = None ∧
        spawned w3 = spawned (foldl (run_event optCheck) w1 evs).
Proof.
  intros Hmax Hage Hfin Hevs Hlen Ht. unfold revs_finished in Hfin.
  destruct (revs_parse stdout) as [r'|]; [|done]. injection Hfin as <- <-.
  set (w1 := mkWorld _ _ _).
  assert (cached_behind 0 repo (LRU.Entry repo r' t0) (REVS w1)) as Hc.
  { apply set_cached_front. lia. }
  destruct (run_events_cached_behind optCheck evs 0 repo (LRU.Entry repo r' t0) w1 Hevs)
    as [Hc' Hage']; [simpl; lia | done |].
  apply find_cached_behind in Hc'. simpl in Hc'.
  unfold revs, LRU.get. rewrite Hc'.
  assert (LRU.isStale (REVS (foldl (run_event optCheck) w1 evs)) t1
            (LRU.Entry repo r' t0) = true) as ->.
  { unfold LRU.isStale. rewrite Hage'. simpl. rewrite Hage.
    apply bool_decide_eq_true. lia. }
  eexists. split; [reflexivity|]. simpl. split; [apply find_remove | done].
Qed.

End CacheExpiry.

Lemma revs_expired_witness :
  ∃ w3, revs (optCheck_spec (V := Primitive)) 300001 "https://example.org/a.git" None
          (foldl (run_event optCheck_spec)
             (revs_finished 0 "https://example.org/a.git"
                ("1111" +:+ Js.TAB +:+ "refs/heads/main" +:+ Js.LF) World_init).1
             [Call 1000 "https://example.org/b.git" None])
        = (w3, InFlight "ls-remote:https://example.org/a.git") ∧
        LRU.find "https://example.org/a.git" (LRU.items (REVS w3)) = None ∧
        spawned w3 = [].
Proof.
  apply (revs_expired optCheck_spec World_init 0 "https://example.org/a.git"
           ("1111" +:+ Js.TAB +:+ "refs/heads/main" +:+ Js.LF)
           (mkRevs [] ∅ {["main" := Doc "1111" "main" Branch]} None
              {["1111" := ["main"]]})).
  - reflexivity.
  - reflexivity.
  - vm_compute; reflexivity.
  - repeat constructor; vm_compute; discriminate.
  - simpl; lia.
  - lia.
Defined.
